(** * The per-guild music queue of the [play] command

    A shallow embedding of [execute], [playSong] and the two player
    listeners of the play command, over an explicit store: the module-level
    [queues] map, the queue objects it points to (shared with the listener
    closures, hence kept in a heap and addressed by reference), and the
    journal of the calls made to the chat platform, the voice library and
    the logger.

    The libraries are not part of the sources. The result of each of their
    calls ([deferReply], [validateURL], [getInfo], [joinVoiceChannel], the
    opening of a stream, the delivery of a message) is an input of the step
    that makes the call, see [Env]; [createAudioPlayer] and the logger do not
    fail. Events are handled one at a time: all reads and writes of [queues]
    made by one call of [execute] lie after its last [await] that can
    suspend before them, so in [step] and [run] a call is one step, taken
    when the call gets past that [await]. The calls that are suspended at
    an [await] while others are handled are modelled by [turn] and [turns],
    see "Calls of [execute] in flight". *)

From stdpp Require Import gmap strings list fin_maps.

Open Scope string_scope.
Open Scope list_scope.

(** ** Values of the command *)

(** [song = { title, url }], built from [videoInfo.videoDetails]. *)
Record Song := { title : string; url : string }.

(** The channel types the command distinguishes; only [GuildVoice] passes. *)
Inductive ChannelType := GuildText | GuildVoice | GuildCategory | GuildStageVoice.

(** [type === ChannelType.GuildVoice]. *)
Definition is_GuildVoice (t : ChannelType) : bool :=
  match t with GuildVoice => true | _ => false end.

(** The channel option of the interaction. [can_connect] and [can_speak] are
    the bits read by [permissionsFor(client.user).has([Connect, Speak])]. *)
Record Channel := {
  channel_id : string;
  channel_name : string;
  channel_type : ChannelType;
  can_connect : bool;
  can_speak : bool
}.

(** What [execute] reads from its [interaction]. [token] identifies the reply
    channel that [reply], [deferReply], [editReply] and [followUp] write to. *)
Record Interaction := {
  token : nat;
  user_id : string;
  guild : option string;            (* interaction.guild, by its id *)
  option_channel : option Channel;  (* options.getChannel('channel') *)
  option_query : string             (* options.getString('query') *)
}.

(** Results of the external calls made while one event is handled. *)
Record Env := {
  deferReply_ok : bool;               (* interaction.deferReply() fulfils *)
  validateURL : string -> bool;       (* ytdl.validateURL(query) *)
  getInfo : string -> option Song;    (* ytdl.getInfo(query), None when it rejects *)
  joinVoiceChannel_ok : bool;         (* joinVoiceChannel(...) does not throw *)
  openStream : string -> bool;        (* ytdl(url, ...) and createAudioResource do not throw *)
  notify_ok : bool                    (* reply / editReply / followUp fulfils *)
}.

(** ** The store *)

(** A listener closure: the variables of [execute] it captured. *)
Record Listener := {
  l_token : nat;      (* interaction *)
  l_guild : string;   (* interaction.guild.id *)
  l_queue : nat       (* queue, by reference *)
}.

(** The audio player of a queue. [resource] is the song whose resource the
    player is playing, if any; a player signals [idle] or [error] only while
    it has one (the signal ends it). *)
Record Player := {
  player_id : nat;
  resource : option Song;
  error_listeners : list Listener;
  idle_listeners : list Listener
}.

(** A voice connection: [joinConfig.channelId], [joinConfig.guildId] and
    whether [destroy()] has been called on it. *)
Record Connection := {
  connection_id : nat;
  joinConfig_channelId : string;
  joinConfig_guildId : string;
  destroyed : bool
}.

(** [queue = { songs, player, connection }]. *)
Record Queue := {
  songs : list Song;
  player : Player;
  connection : option Connection
}.

(** [queues] is the module-level [Map]; it holds references into [heap]. *)
Record World := {
  queues : gmap string nat;
  heap : list Queue;
  players_created : nat;
  connections_created : nat
}.

Definition init : World :=
  {| queues := ∅; heap := []; players_created := 0; connections_created := 0 |}.

(** ** The journal *)

Inductive Level := Info | Warn | Error.

(** The texts sent to the user. *)
Inductive Message :=
| GuildOnly            (* This command can only be used in a server! *)
| InvalidChannel       (* Please select a valid voice channel! *)
| MissingPermissions   (* I lack permissions to join or speak ... *)
| InvalidUrl           (* Please provide a valid YouTube URL. *)
| JoinFailed           (* Failed to join the selected voice channel. ... *)
| AddedToQueue (t : string)          (* Added to queue: t *)
| NowPlaying (t : string) (ch : string)  (* Now playing: t in <#ch> *)
| CommandFailed        (* Failed to play the song. Please try again. *)
| PlaybackFailed       (* An error occurred while playing the audio. *)
| SongFailed.          (* Failed to play the song. *)

Inductive Effect :=
| Log (lvl : Level) (msg : string)
| Reply (tok : nat) (m : Message)
| DeferReply (tok : nat)
| EditReply (tok : nat) (m : Message)
| FollowUp (tok : nat) (m : Message)
| CreateAudioPlayer (pid : nat)
| JoinVoiceChannel (ch g : string)
| Play (g : string) (pid : nat) (s : Song)   (* queue.player.play, in playSong for guild g *)
| Subscribe (cid pid : nat)
| Destroy (cid : nat).

(** How a call ends: an [async] function fulfils or rejects, a listener
    returns or throws. *)
Inductive Completion := Normal | Abrupt.

(** [p.catch(err => logger.error(msg, ...))]: the failure is logged and dropped. *)
Definition caught (e : Env) (n : Effect) (msg : string) : list Effect :=
  n :: (if notify_ok e then [] else [Log Error msg]).

(** [return p]: the failure of [p] is the failure of the call. *)
Definition returned (e : Env) : Completion :=
  if notify_ok e then Normal else Abrupt.

(** ** Updates of the store *)

Definition set_songs (l : list Song) (q : Queue) : Queue :=
  {| songs := l; player := player q; connection := connection q |}.

Definition set_connection (c : option Connection) (q : Queue) : Queue :=
  {| songs := songs q; player := player q; connection := c |}.

Definition set_player (p : Player) (q : Queue) : Queue :=
  {| songs := songs q; player := p; connection := connection q |}.

Definition set_resource (s : option Song) (p : Player) : Player :=
  {| player_id := player_id p; resource := s;
     error_listeners := error_listeners p; idle_listeners := idle_listeners p |}.

(** [player.on('error', f)] followed by [player.on(Idle, f')], both closures
    over the same variables. *)
Definition add_listeners (l : Listener) (p : Player) : Player :=
  {| player_id := player_id p; resource := resource p;
     error_listeners := error_listeners p ++ [l];
     idle_listeners := idle_listeners p ++ [l] |}.

Definition destroy (c : Connection) : Connection :=
  {| connection_id := connection_id c;
     joinConfig_channelId := joinConfig_channelId c;
     joinConfig_guildId := joinConfig_guildId c;
     destroyed := true |}.

Definition set_heap (h : list Queue) (w : World) : World :=
  {| queues := queues w; heap := h;
     players_created := players_created w;
     connections_created := connections_created w |}.

Definition set_queues (m : gmap string nat) (w : World) : World :=
  {| queues := m; heap := heap w;
     players_created := players_created w;
     connections_created := connections_created w |}.

(** Mutation of the queue object at reference [r]. *)
Definition store (r : nat) (q : Queue) (w : World) : World :=
  set_heap (<[r := q]> (heap w)) w.

(** ** playSong *)

(** The journal of the [catch] branch of [playSong]. *)
Definition song_failed (e : Env) (tok : nat) : list Effect :=
  Log Error "Error playing song"
  :: caught e (FollowUp tok SongFailed) "Failed to send follow-up".

(** The journal of the [try] branch of [playSong] once the resource exists. *)
Definition song_started (e : Env) (tok : nat) (g : string) (pid : nat)
    (c : Connection) (song : Song) : list Effect :=
  [Play g pid song; Subscribe (connection_id c) pid]
  ++ caught e (EditReply tok (NowPlaying (title song) (joinConfig_channelId c)))
       "Failed to edit reply"
  ++ [Log Info "Playing song"].

(** [playSong(interaction, queue)]. A missing head song or a missing
    connection raises a TypeError inside the [try], which the [catch]
    reports like a failure to open the stream. *)
Definition playSong (e : Env) (tok : nat) (g : string) (r : nat) (w : World)
  : World * list Effect :=
  match heap w !! r with
  | None => (w, [])
  | Some q =>
    match songs q with
    | [] => (w, song_failed e tok)
    | song :: _ =>
      if openStream e (url song) then
        let w1 := store r (set_player (set_resource (Some song) (player q)) q) w in
        let pid := player_id (player q) in
        match connection q with
        | None => (w1, Play g pid song :: song_failed e tok)
        | Some c => (w1, song_started e tok g pid c song)
        end
      else (w, song_failed e tok)
    end
  end.

(** ** execute *)

(** Lines 115-124: look the guild up in [queues], or create the queue object
    [{ songs: [], player: createAudioPlayer(), connection: null }] and
    register it. *)
Definition get_or_create (g : string) (w : World) : nat * World * list Effect :=
  match queues w !! g with
  | Some r => (r, w, [])
  | None =>
    let r := length (heap w) in
    let pid := players_created w in
    let q := {| songs := [];
                player := {| player_id := pid; resource := None;
                             error_listeners := []; idle_listeners := [] |};
                connection := None |} in
    (r,
     {| queues := <[g := r]> (queues w);
        heap := heap w ++ [q];
        players_created := S pid;
        connections_created := connections_created w |},
     [CreateAudioPlayer pid])
  end.

(** Lines 184-191: start the song if it is alone in the queue, otherwise
    tell the user it was queued. *)
Definition play_or_announce (e : Env) (tok : nat) (g : string) (r : nat)
    (song : Song) (w : World) : World * list Effect :=
  match heap w !! r with
  | None => (w, [])
  | Some q =>
    if decide (length (songs q) = 1) then playSong e tok g r w
    else (w, caught e (EditReply tok (AddedToQueue (title song))) "Failed to edit reply")
  end.

(** Lines 115-191, the body of the [try] once the song is known. *)
Definition enqueue (e : Env) (tok : nat) (g : string) (vc : Channel)
    (song : Song) (w : World) : World * list Effect * Completion :=
  let '(r, w1, fx1) := get_or_create g w in
  match heap w1 !! r with
  | None => (w1, fx1, Normal)
  | Some q =>
    let q2 := set_songs (songs q ++ [song]) q in
    let w2 := store r q2 w1 in
    match connection q2 with
    | Some _ =>
      let '(w3, fx3) := play_or_announce e tok g r song w2 in
      (w3, fx1 ++ fx3, Normal)
    | None =>
      let join := JoinVoiceChannel (channel_id vc) g in
      if joinVoiceChannel_ok e then
        let c := {| connection_id := connections_created w2;
                    joinConfig_channelId := channel_id vc;
                    joinConfig_guildId := g;
                    destroyed := false |} in
        let l := {| l_token := tok; l_guild := g; l_queue := r |} in
        let q3 := set_player (add_listeners l (player q2))
                    (set_connection (Some c) q2) in
        let w3 := {| queues := queues w2;
                     heap := <[r := q3]> (heap w2);
                     players_created := players_created w2;
                     connections_created := S (connections_created w2) |} in
        let '(w4, fx4) := play_or_announce e tok g r song w3 in
        (w4, fx1 ++ [join; Log Info "Bot joined voice channel"] ++ fx4, Normal)
      else
        (set_queues (delete g (queues w2)) w2,
         fx1 ++ [join; Log Error "Failed to join voice channel";
                 EditReply tok JoinFailed],
         returned e)
    end
  end.

(** [execute(interaction)]. *)
Definition execute (e : Env) (i : Interaction) (w : World)
  : World * list Effect * Completion :=
  let tok := token i in
  let fx0 := [Log Info "Executing command"] in
  match guild i with
  | None =>
    (w, fx0 ++ [Log Warn "Play command used outside a guild"; Reply tok GuildOnly],
     returned e)
  | Some g =>
    let invalid :=
      (w, fx0 ++ [Log Warn "Invalid or non-voice channel selected";
                  Reply tok InvalidChannel], returned e) in
    match option_channel i with
    | None => invalid
    | Some vc =>
      if negb (is_GuildVoice (channel_type vc)) then invalid
      else if negb (can_connect vc && can_speak vc) then
        (w, fx0 ++ [Log Warn "Bot lacks voice channel permissions";
                    Reply tok MissingPermissions], returned e)
      else
        let fx1 := fx0 ++ [Log Info "Voice channel selected"; DeferReply tok] in
        if negb (deferReply_ok e) then
          (w, fx1 ++ [Log Error "Failed to defer reply"], Normal)
        else
          let query := option_query i in
          if negb (validateURL e query) then
            (w, fx1 ++ [Log Warn "Invalid YouTube URL provided";
                        EditReply tok InvalidUrl], returned e)
          else
            match getInfo e query with
            | None =>
              (w, fx1 ++ Log Error "Error in play command"
                         :: caught e (EditReply tok CommandFailed) "Failed to edit reply",
               Normal)
            | Some song =>
              let '(w', fx2, out) := enqueue e tok g vc song w in
              (w', fx1 ++ Log Info "Fetched song info" :: fx2, out)
            end
    end
  end.

(** ** The player listeners *)

(** The ['error'] listener registered by [execute]. [queue.connection.destroy()]
    on a missing connection is a TypeError that leaves the listener. *)
Definition on_error (e : Env) (l : Listener) (w : World)
  : World * list Effect * Completion :=
  let r := l_queue l in
  let fx := Log Error "Audio player error"
            :: caught e (FollowUp (l_token l) PlaybackFailed) "Failed to send follow-up" in
  match heap w !! r with
  | None => (w, fx, Normal)
  | Some q =>
    let q1 := set_songs [] q in
    match connection q1 with
    | None => (store r q1 w, fx, Abrupt)
    | Some c =>
      let w1 := store r (set_connection (Some (destroy c)) q1) w in
      (set_queues (delete (l_guild l) (queues w1)) w1,
       fx ++ [Destroy (connection_id c)], Normal)
    end
  end.

(** The [AudioPlayerStatus.Idle] listener registered by [execute]. *)
Definition on_idle (e : Env) (l : Listener) (w : World)
  : World * list Effect * Completion :=
  let r := l_queue l in
  match heap w !! r with
  | None => (w, [], Normal)
  | Some q =>
    let q1 := set_songs (tail (songs q)) q in
    let w1 := store r q1 w in
    if decide (0 < length (songs q1)) then
      let '(w2, fx) := playSong e (l_token l) (l_guild l) r w1 in
      (w2, fx, Normal)
    else
      match connection q1 with
      | None => (w1, [], Abrupt)
      | Some c =>
        let w2 := store r (set_connection (Some (destroy c)) q1) w1 in
        (set_queues (delete (l_guild l) (queues w2)) w2,
         [Destroy (connection_id c);
          Log Info "Queue empty, disconnected from voice channel"],
         Normal)
      end
  end.

(** [emitter.emit]: the listeners run in registration order; one that throws
    ends the emission. *)
Fixpoint dispatch (h : Env -> Listener -> World -> World * list Effect * Completion)
    (e : Env) (ls : list Listener) (w : World) : World * list Effect :=
  match ls with
  | [] => (w, [])
  | l :: ls' =>
    let '(w1, fx1, c) := h e l w in
    match c with
    | Normal => let '(w2, fx2) := dispatch h e ls' w1 in (w2, fx1 ++ fx2)
    | Abrupt => (w1, fx1)
    end
  end.

(** ** Events *)

Inductive Signal := Idle | Failure.

Inductive Event :=
| Command (i : Interaction)             (* the dispatcher calls execute *)
| PlayerSignal (sg : Signal) (r : nat). (* the player of queue object r signals *)

(** The player of queue object [r] has a resource that has not ended. *)
Definition playing (w : World) (r : nat) : bool :=
  match heap w !! r with
  | Some q => bool_decide (is_Some (resource (player q)))
  | None => false
  end.

(** Modelled from the spec: the audio player of the voice library, which is
    not among the sources. A player signals [idle] when "the current
    resource finished playing naturally" and [error] for a "failure during
    an already-playing session": a signal needs a resource that has not
    ended, and ends it. The listeners registered for the signal then run. *)
Definition emit (sg : Signal) (e : Env) (r : nat) (w : World)
  : option (World * list Effect) :=
  match heap w !! r with
  | None => None
  | Some q =>
    match resource (player q) with
    | None => None
    | Some _ =>
      let w1 := store r (set_player (set_resource None (player q)) q) w in
      Some match sg with
           | Idle => dispatch on_idle e (idle_listeners (player q)) w1
           | Failure => dispatch on_error e (error_listeners (player q)) w1
           end
    end
  end.

Definition step (e : Env) (ev : Event) (w : World) : option (World * list Effect) :=
  match ev with
  | Command i => let '(w', fx, _) := execute e i w in Some (w', fx)
  | PlayerSignal sg r => emit sg e r w
  end.

(** Events are handled one at a time, each to completion. *)
Fixpoint run (evs : list (Env * Event)) (w : World) : option (World * list Effect) :=
  match evs with
  | [] => Some (w, [])
  | (e, ev) :: evs' =>
    match step e ev w with
    | None => None
    | Some (w1, fx1) =>
      match run evs' w1 with
      | None => None
      | Some (w2, fx2) => Some (w2, fx1 ++ fx2)
      end
    end
  end.

Definition reachable (w : World) : Prop :=
  ∃ evs fx, run evs init = Some (w, fx).

(** ** A worked scenario *)

Module Scenario.

Definition lounge : Channel :=
  {| channel_id := "lounge"; channel_name := "Lounge";
     channel_type := GuildVoice; can_connect := true; can_speak := true |}.

Definition stage : Channel :=
  {| channel_id := "stage"; channel_name := "Stage";
     channel_type := GuildVoice; can_connect := true; can_speak := true |}.

Definition songA : Song := {| title := "a"; url := "https://youtu.be/a" |}.
Definition songB : Song := {| title := "b"; url := "https://youtu.be/b" |}.

(** Every external call succeeds; the query is the title of the song. *)
Definition sunny : Env :=
  {| deferReply_ok := true;
     validateURL := λ _, true;
     getInfo := λ q, Some {| title := q; url := "https://youtu.be/" +:+ q |};
     joinVoiceChannel_ok := true;
     openStream := λ _, true;
     notify_ok := true |}.

Definition request (tok : nat) (g : string) (vc : Channel) (q : string) : Interaction :=
  {| token := tok; user_id := "u"; guild := Some g;
     option_channel := Some vc; option_query := q |}.

(** A command sent in a direct message. *)
Definition direct_message : Interaction :=
  {| token := 9; user_id := "u"; guild := None;
     option_channel := Some lounge; option_query := "a" |}.

(** [getInfo] rejects. *)
Definition unresolvable : Env :=
  {| deferReply_ok := true; validateURL := λ _, true; getInfo := λ _, None;
     joinVoiceChannel_ok := true; openStream := λ _, true; notify_ok := true |}.

(** [joinVoiceChannel] throws. *)
Definition unjoinable : Env :=
  {| deferReply_ok := true;
     validateURL := λ _, true;
     getInfo := λ q, Some {| title := q; url := "https://youtu.be/" +:+ q |};
     joinVoiceChannel_ok := false;
     openStream := λ _, true;
     notify_ok := true |}.

(** The store while A plays and B waits in guild G. *)
Definition a_then_b : list (Env * Event) :=
  [(sunny, Command (request 1 "G" lounge "a"));
   (sunny, Command (request 2 "G" stage "b"))].

(** A and B requested, then both played to the end. *)
Definition a_b_played : list (Env * Event) :=
  a_then_b ++ [(sunny, PlayerSignal Idle 0); (sunny, PlayerSignal Idle 0)].

(** The store reached by a run, [init] if the run is not possible. *)
Definition after (evs : list (Env * Event)) : World :=
  match run evs init with
  | Some (w, _) => w
  | None => init
  end.

End Scenario.

(** ** Vocabulary of the properties *)

(** The request passes every check of [execute] up to and including the
    lookup of the song: it is made in a guild, names a voice channel the bot
    may join and speak in, [deferReply] fulfils, the URL is valid and
    [getInfo] yields the song. *)
Definition accepted (e : Env) (i : Interaction) : option (string * Channel * Song) :=
  match guild i, option_channel i with
  | Some g, Some vc =>
    if is_GuildVoice (channel_type vc) && (can_connect vc && can_speak vc)
       && deferReply_ok e && validateURL e (option_query i)
    then match getInfo e (option_query i) with
         | Some s => Some (g, vc, s)
         | None => None
         end
    else None
  | _, _ => None
  end.

(** The request passes the checks made before the URL is looked at: it is
    made in a guild, names a voice channel the bot may join and speak in, and
    [deferReply] fulfils. *)
Definition admitted (e : Env) (i : Interaction) : option (string * Channel) :=
  match guild i, option_channel i with
  | Some g, Some vc =>
    if is_GuildVoice (channel_type vc) && (can_connect vc && can_speak vc)
       && deferReply_ok e
    then Some (g, vc) else None
  | _, _ => None
  end.

(** Calls that reach the voice library. *)
Definition voice (x : Effect) : bool :=
  match x with
  | CreateAudioPlayer _ | JoinVoiceChannel _ _ | Play _ _ _
  | Subscribe _ _ | Destroy _ => true
  | _ => false
  end.

(** Calls made when a request is turned away: log lines, the deferral, and
    the replies that refuse it. *)
Definition refusal (x : Effect) : bool :=
  match x with
  | Log _ _ | DeferReply _ => true
  | Reply _ (GuildOnly | InvalidChannel | MissingPermissions) => true
  | EditReply _ (InvalidUrl | CommandFailed) => true
  | _ => false
  end.

(** The songs of guild [g] as [queues] gives them. *)
Definition songs_of (w : World) (g : string) : list Song :=
  match queues w !! g with
  | Some r => match heap w !! r with Some q => songs q | None => [] end
  | None => []
  end.

(** Guild [g] has a connection handle that has not been destroyed. *)
Definition connected (w : World) (g : string) : Prop :=
  ∃ r q c, queues w !! g = Some r ∧ heap w !! r = Some q
           ∧ connection q = Some c ∧ destroyed c = false.

(** The player of guild [g] has not finished its resource. *)
Definition playing_in (w : World) (g : string) : Prop :=
  ∃ r, queues w !! g = Some r ∧ playing w r = true.

(** Well-formedness of the queue object [q] that [queues] holds for [g]
    under reference [r]. *)
Record queue_ok (g : string) (r : nat) (q : Queue) : Prop := {
  ok_songs : songs q ≠ [];
  ok_connection : ∃ c, connection q = Some c ∧ destroyed c = false;
  ok_listeners : ∃ tok,
      error_listeners (player q) = [{| l_token := tok; l_guild := g; l_queue := r |}]
      ∧ idle_listeners (player q) = [{| l_token := tok; l_guild := g; l_queue := r |}];
  ok_resource : ∀ s, resource (player q) = Some s → head (songs q) = Some s
}.

(** The invariant of the store. *)
Record Inv (w : World) : Prop := {
  inv_mapped : ∀ g r, queues w !! g = Some r →
      ∃ q, heap w !! r = Some q ∧ queue_ok g r q;
  inv_inj : ∀ g1 g2 r, queues w !! g1 = Some r → queues w !! g2 = Some r → g1 = g2;
  inv_playing : ∀ r q s, heap w !! r = Some q → resource (player q) = Some s →
      ∃ g, queues w !! g = Some r;
  inv_live : ∀ r q c, heap w !! r = Some q → connection q = Some c →
      destroyed c = false → ∃ g, queues w !! g = Some r;
  inv_players : players_created w = length (heap w);
  inv_player_id : ∀ r q, heap w !! r = Some q → player_id (player q) = r;
  inv_connections : ∀ r q c, heap w !! r = Some q → connection q = Some c →
      connection_id c < connections_created w
}.

(** *** The transitions of a well-formed store *)

Definition admitted_journal (tok : nat) : list Effect :=
  [Log Info "Executing command"; Log Info "Voice channel selected";
   DeferReply tok; Log Info "Fetched song info"].

Definition new_connection (g : string) (vc : Channel) (w : World) : Connection :=
  {| connection_id := connections_created w;
     joinConfig_channelId := channel_id vc;
     joinConfig_guildId := g;
     destroyed := false |}.

(** The queue object after the first request of a guild went through. *)
Definition first_queue (e : Env) (tok : nat) (g : string) (vc : Channel)
    (s : Song) (w : World) : Queue :=
  let l := {| l_token := tok; l_guild := g; l_queue := length (heap w) |} in
  {| songs := [s];
     player := {| player_id := players_created w;
                  resource := if openStream e (url s) then Some s else None;
                  error_listeners := [l]; idle_listeners := [l] |};
     connection := Some (new_connection g vc w) |}.

(** The queue object left behind when the voice channel could not be joined. *)
Definition abandoned_queue (s : Song) (w : World) : Queue :=
  {| songs := [s];
     player := {| player_id := players_created w; resource := None;
                  error_listeners := []; idle_listeners := [] |};
     connection := None |}.

(** The queue object after its connection was destroyed. *)
Definition torn_down (c : Connection) (q : Queue) : Queue :=
  {| songs := [];
     player := set_resource None (player q);
     connection := Some (destroy c) |}.

(** The queue object after the head finished and [next] was started. *)
Definition advanced (e : Env) (next : Song) (rest : list Song) (q : Queue) : Queue :=
  {| songs := next :: rest;
     player := set_resource (if openStream e (url next) then Some next else None)
                 (player q);
     connection := connection q |}.

Inductive Transition (e : Env) (w : World) : Event → World → list Effect → Prop :=
| T_rejected i fx c :
    accepted e i = None →
    execute e i w = (w, fx, c) →
    (∀ x, x ∈ fx → refusal x = true) →
    Transition e w (Command i) w fx
| T_first i g vc s :
    accepted e i = Some (g, vc, s) →
    queues w !! g = None →
    joinVoiceChannel_ok e = true →
    Transition e w (Command i)
      {| queues := <[g := length (heap w)]> (queues w);
         heap := heap w ++ [first_queue e (token i) g vc s w];
         players_created := S (players_created w);
         connections_created := S (connections_created w) |}
      (admitted_journal (token i)
       ++ [CreateAudioPlayer (players_created w);
           JoinVoiceChannel (channel_id vc) g;
           Log Info "Bot joined voice channel"]
       ++ (if openStream e (url s)
           then song_started e (token i) g (players_created w)
                  (new_connection g vc w) s
           else song_failed e (token i)))
| T_abandoned i g vc s :
    accepted e i = Some (g, vc, s) →
    queues w !! g = None →
    joinVoiceChannel_ok e = false →
    Transition e w (Command i)
      {| queues := queues w;
         heap := heap w ++ [abandoned_queue s w];
         players_created := S (players_created w);
         connections_created := connections_created w |}
      (admitted_journal (token i)
       ++ [CreateAudioPlayer (players_created w);
           JoinVoiceChannel (channel_id vc) g;
           Log Error "Failed to join voice channel";
           EditReply (token i) JoinFailed])
| T_queued i g vc s r q :
    accepted e i = Some (g, vc, s) →
    queues w !! g = Some r →
    heap w !! r = Some q →
    Transition e w (Command i)
      (store r (set_songs (songs q ++ [s]) q) w)
      (admitted_journal (token i)
       ++ caught e (EditReply (token i) (AddedToQueue (title s))) "Failed to edit reply")
| T_advance g r q tok c s next rest :
    queues w !! g = Some r →
    heap w !! r = Some q →
    resource (player q) = Some s →
    songs q = s :: next :: rest →
    connection q = Some c →
    idle_listeners (player q) = [{| l_token := tok; l_guild := g; l_queue := r |}] →
    Transition e w (PlayerSignal Idle r)
      (store r (advanced e next rest q) w)
      (if openStream e (url next)
       then song_started e tok g (player_id (player q)) c next
       else song_failed e tok)
| T_drain g r q c s :
    queues w !! g = Some r →
    heap w !! r = Some q →
    resource (player q) = Some s →
    songs q = [s] →
    connection q = Some c →
    Transition e w (PlayerSignal Idle r)
      (set_queues (delete g (queues w)) (store r (torn_down c q) w))
      [Destroy (connection_id c);
       Log Info "Queue empty, disconnected from voice channel"]
| T_failure g r q tok c s :
    queues w !! g = Some r →
    heap w !! r = Some q →
    resource (player q) = Some s →
    connection q = Some c →
    error_listeners (player q) = [{| l_token := tok; l_guild := g; l_queue := r |}] →
    Transition e w (PlayerSignal Failure r)
      (set_queues (delete g (queues w)) (store r (torn_down c q) w))
      (Log Error "Audio player error"
       :: caught e (FollowUp tok PlaybackFailed) "Failed to send follow-up"
       ++ [Destroy (connection_id c)]).

(** *** First in, first out *)

(** The song that the event adds to the queue of guild [g], if any. *)
Definition request_of (g : string) (x : Env * Event) : list Song :=
  match x.2 with
  | Command i =>
    match accepted x.1 i with
    | Some (g', _, s) => if decide (g' = g) then [s] else []
    | None => []
    end
  | PlayerSignal _ _ => []
  end.

(** The songs that the steps of [evs] append for [g], in the order of the
    steps (which need not be the order in which the calls were made, see
    [arrivals]). *)
Definition requests (g : string) (evs : list (Env * Event)) : list Song :=
  concat (map (request_of g) evs).

(** The song that the call starts on the player of guild [g], if any. *)
Definition play_of (g : string) (x : Effect) : list Song :=
  match x with
  | Play g' _ s => if decide (g' = g) then [s] else []
  | _ => []
  end.

Definition played (g : string) (fx : list Effect) : list Song :=
  concat (map (play_of g) fx).




(** The command reaches [joinVoiceChannel]: it passed every check and its
    guild has no queue. *)
Definition join_attempt (e : Env) (ev : Event) (w : World) : bool :=
  match ev with
  | Command i =>
    match accepted e i with
    | Some (g, _, _) => bool_decide (queues w !! g = None)
    | None => false
    end
  | PlayerSignal _ _ => false
  end.

(** The first enqueue of a guild that goes through. *)
Definition first_enqueue (e : Env) (ev : Event) (w : World) : bool :=
  join_attempt e ev w && joinVoiceChannel_ok e.

(** The number of calls of [joinVoiceChannel] in a journal. *)
Fixpoint joins (fx : list Effect) : nat :=
  match fx with
  | [] => 0
  | JoinVoiceChannel _ _ :: fx' => S (joins fx')
  | _ :: fx' => joins fx'
  end.

(** The number of listener registrations on the players of a heap. *)
Definition registrations (h : list Queue) : nat :=
  sum_list_with (λ q, length (error_listeners (player q))
                      + length (idle_listeners (player q)))%nat h.

(** Queue object [q'] has the player, the listeners and the connection
    (identity and channel) of [q]. *)
Definition same_wiring (q q' : Queue) : Prop :=
  player_id (player q') = player_id (player q)
  ∧ error_listeners (player q') = error_listeners (player q)
  ∧ idle_listeners (player q') = idle_listeners (player q)
  ∧ match connection q with
    | Some c => ∃ c', connection q' = Some c'
                      ∧ connection_id c' = connection_id c
                      ∧ joinConfig_channelId c' = joinConfig_channelId c
    | None => connection q' = None
    end.

(** The contract of [getOrCreate] in the words of the specification, for a
    guild without a queue: the queue it registers is empty, has no
    connection, and no player has been made yet. *)
Definition created_without_player (g : string) (w : World) : Prop :=
  let '(r, w', fx) := get_or_create g w in
  (∃ q, heap w' !! r = Some q ∧ songs q = [] ∧ connection q = None)
  ∧ players_created w' = players_created w
  ∧ ∀ pid, CreateAudioPlayer pid ∉ fx.


Definition with_deferReply (b : bool) (e : Env) : Env :=
  {| deferReply_ok := b; validateURL := validateURL e;
     getInfo := getInfo e; joinVoiceChannel_ok := joinVoiceChannel_ok e;
     openStream := openStream e; notify_ok := notify_ok e |}.

(** ** Vocabulary of further properties of the command *)

(** The event is a request made in guild [g], or a signal of the player of
    the queue that [queues] holds for [g]. *)
Definition concerns (g : string) (ev : Event) (w : World) : Prop :=
  match ev with
  | Command i => guild i = Some g
  | PlayerSignal _ r => queues w !! g = Some r
  end.

(** Guild [g] has a queue whose player plays nothing. *)
Definition stalled (w : World) (g : string) : Prop :=
  ∃ r q, queues w !! g = Some r ∧ heap w !! r = Some q
         ∧ resource (player q) = None.

(** The messages sent to users, with the reply channel of each. *)
Fixpoint answers (fx : list Effect) : list (nat * Message) :=
  match fx with
  | [] => []
  | Reply t m :: fx' | EditReply t m :: fx' | FollowUp t m :: fx' =>
    (t, m) :: answers fx'
  | _ :: fx' => answers fx'
  end.

(** The request reached [deferReply], which failed. *)
Definition deferral_failed (e : Env) (i : Interaction) : bool :=
  bool_decide (is_Some (admitted (with_deferReply true e) i))
  && negb (deferReply_ok e).

(** The number of calls of [destroy()] on connection [cid] in a journal. *)
Fixpoint destroys (cid : nat) (fx : list Effect) : nat :=
  match fx with
  | [] => 0
  | Destroy c :: fx' => (if decide (c = cid) then 1 else 0) + destroys cid fx'
  | _ :: fx' => destroys cid fx'
  end.

(** Connection [cid] is held by a queue object and is not destroyed. *)
Definition live (w : World) (cid : nat) : Prop :=
  ∃ r q c, heap w !! r = Some q ∧ connection q = Some c
           ∧ connection_id c = cid ∧ destroyed c = false.

(** No two queue objects hold the same connection. *)
Definition distinct_connections (w : World) : Prop :=
  ∀ r1 r2 q1 q2 c1 c2,
    heap w !! r1 = Some q1 → heap w !! r2 = Some q2 →
    connection q1 = Some c1 → connection q2 = Some c2 →
    connection_id c1 = connection_id c2 → r1 = r2.

(** *** A scenario in which no stream can be opened *)

Module Stall.

(** Every call succeeds but the opening of a stream. *)
Definition streamless : Env :=
  {| deferReply_ok := true;
     validateURL := λ _, true;
     getInfo := λ q, Some {| title := q; url := "https://youtu.be/" +:+ q |};
     joinVoiceChannel_ok := true;
     openStream := λ _, false;
     notify_ok := true |}.

(** A is requested in guild G and its stream cannot be opened. *)
Definition a_fails : list (Env * Event) :=
  [(streamless, Command (Scenario.request 1 "G" Scenario.lounge "a"))].

(** Then B is requested, with every call succeeding. *)
Definition then_b : list (Env * Event) :=
  [(Scenario.sunny, Command (Scenario.request 2 "G" Scenario.stage "b"))].

End Stall.

(** ** Calls of [execute] in flight

    [execute] suspends twice before it reads [queues]: at
    [await interaction.deferReply()] (line 87) and at
    [await ytdl.getInfo(query)] (line 106). While a call is suspended other
    calls begin or resume and players signal. Lines 107-186, which hold
    every read and write of [queues], run without suspending: the awaits of
    lines 188 and 197 come last. *)

(** The await at which a call of [execute] is suspended. *)
Inductive Stage := Deferring | Resolving.

(** A suspended call: its interaction, the results its external calls have
    or will have, and where it waits. *)
Record Call := {
  call_env : Env;
  call_interaction : Interaction;
  call_stage : Stage
}.

(** Lines 36-87, from the call to the first await: the journal, and how the
    call ended ([None]: it called [deferReply] and is suspended). *)
Definition before_deferReply (e : Env) (i : Interaction)
  : list Effect * option Completion :=
  let tok := token i in
  let fx0 := [Log Info "Executing command"] in
  match guild i with
  | None =>
    (fx0 ++ [Log Warn "Play command used outside a guild"; Reply tok GuildOnly],
     Some (returned e))
  | Some g =>
    let invalid :=
      (fx0 ++ [Log Warn "Invalid or non-voice channel selected";
               Reply tok InvalidChannel], Some (returned e)) in
    match option_channel i with
    | None => invalid
    | Some vc =>
      if negb (is_GuildVoice (channel_type vc)) then invalid
      else if negb (can_connect vc && can_speak vc) then
        (fx0 ++ [Log Warn "Bot lacks voice channel permissions";
                 Reply tok MissingPermissions], Some (returned e))
      else (fx0 ++ [Log Info "Voice channel selected"; DeferReply tok], None)
    end
  end.

(** Lines 88-106, from the settling of [deferReply] to the await of
    [getInfo] ([None]: the call is suspended there). *)
Definition after_deferReply (e : Env) (i : Interaction)
  : list Effect * option Completion :=
  if negb (deferReply_ok e) then ([Log Error "Failed to defer reply"], Some Normal)
  else if negb (validateURL e (option_query i)) then
    ([Log Warn "Invalid YouTube URL provided"; EditReply (token i) InvalidUrl],
     Some (returned e))
  else ([], None).

(** Lines 106-200, from the settling of [getInfo] to the end of the call.
    A call that got here has a guild and a channel. *)
Definition after_getInfo (e : Env) (i : Interaction) (w : World)
  : World * list Effect * Completion :=
  match guild i, option_channel i with
  | Some g, Some vc =>
    match getInfo e (option_query i) with
    | None =>
      (w, Log Error "Error in play command"
          :: caught e (EditReply (token i) CommandFailed) "Failed to edit reply",
       Normal)
    | Some song =>
      let '(w', fx, out) := enqueue e (token i) g vc song w in
      (w', Log Info "Fetched song info" :: fx, out)
    end
  | _, _ => (w, [], Normal)
  end.

(** The store together with the calls that are suspended, oldest first. *)
Record Flight := {
  world : World;
  in_flight : list Call
}.


(** What the event loop handles in one turn. *)
Inductive Turn :=
| Called (e : Env) (i : Interaction)          (* the dispatcher calls execute *)
| Settled (k : nat)                           (* the promise that the k-th suspended call awaits settles *)
| Signalled (e : Env) (sg : Signal) (r : nat). (* the player of queue object r signals *)

Definition set_stage (s : Stage) (c : Call) : Call :=
  {| call_env := call_env c; call_interaction := call_interaction c;
     call_stage := s |}.

(** One turn of the event loop: the code runs from where it was entered to
    its next await or to its end. *)
Definition turn (t : Turn) (f : Flight) : option (Flight * list Effect) :=
  match t with
  | Called e i =>
    let '(fx, out) := before_deferReply e i in
    Some ({| world := world f;
             in_flight := match out with
                          | Some _ => in_flight f
                          | None => in_flight f
                                    ++ [{| call_env := e; call_interaction := i;
                                           call_stage := Deferring |}]
                          end |}, fx)
  | Settled k =>
    match in_flight f !! k with
    | None => None
    | Some c =>
      match call_stage c with
      | Deferring =>
        let '(fx, out) := after_deferReply (call_env c) (call_interaction c) in
        Some ({| world := world f;
                 in_flight := match out with
                              | Some _ => delete k (in_flight f)
                              | None => <[k := set_stage Resolving c]> (in_flight f)
                              end |}, fx)
      | Resolving =>
        let '(w', fx, _) :=
          after_getInfo (call_env c) (call_interaction c) (world f) in
        Some ({| world := w'; in_flight := delete k (in_flight f) |}, fx)
      end
    end
  | Signalled e sg r =>
    match emit sg e r (world f) with
    | None => None
    | Some (w', fx) => Some ({| world := w'; in_flight := in_flight f |}, fx)
    end
  end.







(** *** Two calls that overlap *)

Module Overlap.




End Overlap.

(** * The bot process and its dashboard ([index.js])

    The parts of the start-up script and of the dashboard endpoints that
    compute something. Library functions ([encodeURIComponent],
    [decodeURIComponent], [path.join], [String], [toUpperCase]) are
    parameters. *)

From stdpp Require Import pretty.

Module Dashboard.

(** ** The environment check (lines 29-44) *)

Definition requiredEnv : list string :=
  ["DISCORD_TOKEN"; "MONGO_URI"; "CLIENT_ID"; "CLIENT_SECRET"; "SESSION_KEY";
   "REDIRECT_URI"; "ENCRYPTION_SECRET"].

(** [!process.env[key]]: the variable is not set, or is the empty string. *)
Definition unset (env : gmap string string) (key : string) : bool :=
  match env !! key with
  | Some v => bool_decide (v = "")
  | None => true
  end.

(** The loop over the required keys: the key at which the process logs the
    error and exits with status 1, if any. *)
Fixpoint first_missing (env : gmap string string) (keys : list string)
  : option string :=
  match keys with
  | [] => None
  | key :: keys' => if unset env key then Some key else first_missing env keys'
  end.

Definition validate_env (env : gmap string string) : option string :=
  first_missing env requiredEnv.

(** ** Loading the commands (lines 94-128) *)

(** What the loader reads from an imported module: [command.data] (absent
    when falsy, otherwise taken by its [name], a string) and whether
    [command.execute] is a function. *)
Record CommandModule := {
  cmd_data : option string;
  cmd_execute : bool
}.

(** A directory entry with what the file system and [import] answer for it:
    the entries of a directory ([None] when [readdir] throws), the module of
    a file ([None] when [import] throws). *)
#[warnings="-register-all"]
Inductive Dirent :=
| DirectoryEntry (name : string) (entries : option (list Dirent))
| FileEntry (name : string) (imported : option CommandModule)
| OtherEntry (name : string).

Definition dirent_name (d : Dirent) : string :=
  match d with
  | DirectoryEntry n _ | FileEntry n _ | OtherEntry n => n
  end.

Inductive LogLine :=
| LogDebug (msg : string)
| LogWarn (msg : string)
| LogError (msg : string).

(** [name.endsWith(suffix)]. *)
Definition endsWith (name suffix : string) : bool :=
  (String.length suffix <=? String.length name)%nat
  && String.eqb (String.substring (String.length name - String.length suffix)
                   (String.length suffix) name) suffix.

(** A [for] loop over directory entries that collects the commands and the
    log lines of each turn. *)
Definition gather (turn : Dirent → list CommandModule * list LogLine)
  : list Dirent → list CommandModule * list LogLine :=
  fix loop l :=
    match l with
    | [] => ([], [])
    | x :: l' =>
      let '(c1, l1) := turn x in
      let '(c2, l2) := loop l' in
      (c1 ++ c2, l1 ++ l2)
    end.

Section Loading.

Variable join : string → string → string.

(** The body of the [for] loop of [loadCommandsRecursively] for one entry of
    directory [dir], the recursive call included. *)
Fixpoint load_dirent (dir : string) (d : Dirent)
  : list CommandModule * list LogLine :=
  let path := join dir (dirent_name d) in
  match d with
  | DirectoryEntry _ None =>
    ([], [LogWarn ("Command directory not found: " +:+ path)])
  | DirectoryEntry _ (Some ds) => gather (load_dirent path) ds
  | FileEntry name imported =>
    if endsWith name ".js" then
      match imported with
      | None => ([], [LogError ("Failed to load command " +:+ path +:+ ":")])
      | Some command =>
        match cmd_data command with
        | Some n =>
          if cmd_execute command
          then ([command], [LogDebug ("Loaded command: " +:+ n)])
          else ([], [LogWarn ("Skipped invalid command file: " +:+ path)])
        | None => ([], [LogWarn ("Skipped invalid command file: " +:+ path)])
        end
      end
    else ([], [])
  | OtherEntry _ => ([], [])
  end.

(** [loadCommandsRecursively(dir)], given what [readdir(dir)] answers. *)
Definition loadCommandsRecursively (dir : string) (entries : option (list Dirent))
  : list CommandModule * list LogLine :=
  match entries with
  | None => ([], [LogWarn ("Command directory not found: " +:+ dir)])
  | Some ds => gather (load_dirent dir) ds
  end.

End Loading.

(** A module the loader keeps: it exports [data] and a function [execute]. *)
Definition usable (c : CommandModule) : Prop :=
  is_Some (cmd_data c) ∧ cmd_execute c = true.

(** [for (const cmd of allCommands) client.commands.set(cmd.data.name, cmd)]:
    [None] when [cmd.data] is missing and reading its name throws. *)
Fixpoint register (cmds : list CommandModule) (m : gmap string CommandModule)
  : option (gmap string CommandModule) :=
  match cmds with
  | [] => Some m
  | cmd :: cmds' =>
    match cmd_data cmd with
    | Some n => register cmds' (<[n := cmd]> m)
    | None => None
    end
  end.

(** ** The servers endpoint behind [ensureAuth] (lines 192-198, 273-282)

    [/auth/callback] stores the parsed bodies of the user and guilds
    requests in the session unchecked (lines 236-244), so the session may
    hold any JSON value. [Value] is the type of these values; how the
    language converts them is a parameter. *)

(** [(BigInt(guild.permissions) & BigInt(8)) !== 0n], on the converted
    permissions. *)
Definition administrator (p : Z) : bool := negb (Z.land p 8 =? 0)%Z.

Section Servers.

Context {Value : Type}.

Variable encodeURIComponent : string → string.
(** Whether a value is truthy. *)
Variable is_truthy : Value → bool.
(** [BigInt(v)], [None] when it throws. *)
Variable BigInt : Value → option Z.
(** The string that a template literal makes of [v], [None] when the
    conversion throws. *)
Variable ToString : Value → option string.

(** An element of the stored array as the handler reads it: [null], of
    which no property can be read, or the values of the properties
    [permissions], [id], [name] and [icon] of any other value ([None]:
    [undefined]). *)
Inductive GuildEntry :=
| NullEntry
| GuildFields (permissions id name icon : option Value).

(** What [req.session.userGuilds] holds. *)
Inductive StoredGuilds :=
| FalsyGuilds                          (* undefined or another falsy value *)
| NotAnArray                           (* a truthy value that is no array *)
| GuildArray (entries : list GuildEntry).

Record Session := {
  discordUser : option Value;          (* None: undefined *)
  userGuilds : StoredGuilds
}.

Record Request := {
  session : option Session;
  originalUrl : string
}.

(** An element of the list that [/api/servers] answers with. *)
Record Server := {
  server_id : option Value;
  server_name : option Value;
  server_icon : option string
}.

Inductive Response :=
| Redirect (location : string)
| JsonServers (servers : list Server)
| Throws.

(** [req.session?.discordUser] is truthy. *)
Definition logged_in (req : Request) : bool :=
  match session req ≫= discordUser with
  | Some u => is_truthy u
  | None => false
  end.

(** [ensureAuth]: the redirect it answers with, or [None] when it calls
    [next()]. *)
Definition ensureAuth (req : Request) : option string :=
  if logged_in req then None
  else Some ("/login?redirect=" +:+ encodeURIComponent (originalUrl req)).

(** [BigInt(v)] where [v] may be [undefined], for which it throws. *)
Definition to_bigint (v : option Value) : option Z :=
  match v with
  | Some x => BigInt x
  | None => None
  end.

(** The string a template literal makes of [v], which may be [undefined]. *)
Definition interpolate (v : option Value) : option string :=
  match v with
  | Some x => ToString x
  | None => Some "undefined"
  end.

(** The callback of [filter] on one element: [None] when it throws. *)
Definition manageable (entry : GuildEntry) : option bool :=
  match entry with
  | NullEntry => None
  | GuildFields permissions _ _ _ => administrator <$> to_bigint permissions
  end.

(** [.filter(guild => ...)]: [None] when the callback throws. *)
Fixpoint filter_manageable (gs : list GuildEntry) : option (list GuildEntry) :=
  match gs with
  | [] => Some []
  | g :: gs' =>
    match manageable g with
    | None => None
    | Some keep =>
      match filter_manageable gs' with
      | None => None
      | Some l => Some (if keep then g :: l else l)
      end
    end
  end.

(** The callback of [map] on one element: [None] when it throws. *)
Definition summary (entry : GuildEntry) : option Server :=
  match entry with
  | NullEntry => None
  | GuildFields _ id name icon =>
    let without_icon :=
      Some {| server_id := id; server_name := name; server_icon := None |} in
    match icon with
    | None => without_icon
    | Some v =>
      if is_truthy v then
        match interpolate id, interpolate icon with
        | Some a, Some b =>
          Some {| server_id := id; server_name := name;
                  server_icon :=
                    Some ("https://cdn.discordapp.com/icons/" +:+ a +:+ "/"
                          +:+ b +:+ ".png?size=64") |}
        | _, _ => None
        end
      else without_icon
    end
  end.

(** [GET /api/servers]. *)
Definition api_servers (req : Request) : Response :=
  match ensureAuth req with
  | Some location => Redirect location
  | None =>
    match userGuilds <$> session req with
    | None | Some NotAnArray => Throws
    | Some FalsyGuilds => JsonServers []
    | Some (GuildArray gs) =>
      match filter_manageable gs ≫= mapM summary with
      | None => Throws
      | Some servers => JsonServers servers
      end
    end
  end.

End Servers.

Section Web.

Variable encodeURIComponent : string → string.
Variable decodeURIComponent : string → option string.

(** [x || '/dashboard'] for a string or missing [x]. *)
Definition or_dashboard (x : option string) : string :=
  match x with
  | Some s => if bool_decide (s = "") then "/dashboard" else s
  | None => "/dashboard"
  end.

(** [GET /login]: the [state] parameter of the authorization URL, from the
    [redirect] parameter of the query. *)
Definition login_state (redirect : option string) : string :=
  encodeURIComponent (or_dashboard redirect).

(** [GET /auth/callback], lines 246-254: where the user is sent after a
    login, from the [state] parameter of the query. *)
Definition post_login_redirect (state : option string) : string :=
  match state with
  | None => "/dashboard"
  | Some st =>
    if bool_decide (st = "") then "/dashboard"
    else match decodeURIComponent st with
         | None => "/dashboard"
         | Some redirect =>
           if String.prefix "/" redirect then redirect else "/dashboard"
         end
  end.

End Web.

(** ** The buttons of a ticket (lines 362-377) *)

(** A JavaScript string, as its UTF-16 code units. *)
Definition jstring := list N.

(** A string literal of the source (ASCII). *)
Definition lit (s : string) : jstring :=
  map (λ a, Ascii.N_of_ascii a) (String.list_ascii_of_string s).

(** [`${n}`] for a non-negative integer. *)
Definition decimal (n : nat) : jstring := lit (pretty n).

Inductive ButtonStyle := Primary | Secondary | Success | Danger.

Record Button := {
  customId : jstring;
  label : jstring;
  style : ButtonStyle
}.

Section Tickets.

(** The numbers of a parsed JSON body, and which of them are truthy. *)
Context {Number : Type}.
Variable number_truthy : Number → bool.

#[warnings="-register-all"]
Inductive Json :=
| JNull
| JBool (b : bool)
| JNum (n : Number)
| JStr (s : jstring)
| JArr (items : list Json)
| JObj (fields : list (jstring * Json)).

(** [String(v)] for a value that is not a string, [None] when the conversion
    throws (an object whose [toString] is not callable); [s.toUpperCase()]. *)
Variable String_other : Json → option jstring.
Variable toUpperCase : jstring → jstring.

(** [new ButtonBuilder().setCustomId(..).setLabel(..).setStyle(..)] and
    [row.addComponents(..)] do not throw for the button. *)
Variable builder_accepts : Button → bool.

Definition truthy (v : Json) : bool :=
  match v with
  | JNull => false
  | JBool b => b
  | JNum n => number_truthy n
  | JStr s => negb (bool_decide (s = []))
  | JArr _ | JObj _ => true
  end.

(** [v.key] for a key that no prototype defines ([label], [style],
    [expiresAt], [userId], ...):
    the own property of an object, where the last of duplicate keys of the
    parsed text counts; [None] is [undefined]. *)
Definition field (key : jstring) (v : Json) : option Json :=
  match v with
  | JObj fields =>
    foldl (λ found kv, if bool_decide (kv.1 = key) then Some kv.2 else found)
          None fields
  | _ => None
  end.

(** [x || d]. *)
Definition or_else (x : option Json) (d : Json) : Json :=
  match x with
  | Some v => if truthy v then v else d
  | None => d
  end.

(** [String(v)], [None] when it throws. *)
Definition to_string (v : Json) : option jstring :=
  match v with
  | JStr s => Some s
  | _ => String_other v
  end.

(** [Array.isArray(buttons) ? buttons.slice(0, 5) : []]. *)
Definition safeButtons (buttons : option Json) : list Json :=
  match buttons with
  | Some (JArr items) => take 5 items
  | _ => []
  end.

(** The characters of the class [[:/+=]]. *)
Definition separator (u : N) : bool :=
  bool_decide (u ∈ [58; 47; 43; 61]%N).

(** [(token || '').slice(0, 16).replace(/[:/+=]/g, '')]: [None] when the
    token is truthy and not a string, so that the call throws a TypeError. *)
Definition tokenShort (token : option Json) : option jstring :=
  match or_else token (JStr []) with
  | JStr s => Some (filter (λ u, separator u = false) (take 16 s))
  | _ => None
  end.

(** The lookup in the table of styles, [|| ButtonStyle.Primary]. *)
Definition style_of (key : jstring) : ButtonStyle :=
  if bool_decide (key = lit "SECONDARY") then Secondary
  else if bool_decide (key = lit "SUCCESS") then Success
  else if bool_decide (key = lit "DANGER") then Danger
  else Primary.

(** [b.label || `Open ${i + 1}`] for [b = safeButtons[i] || {}]. *)
Definition label_value (i : nat) (item : Json) : Json :=
  or_else (field (lit "label") (or_else (Some item) (JObj [])))
    (JStr (lit "Open " ++ decimal (i + 1))).

(** [b.style || 'PRIMARY'] for [b = safeButtons[i] || {}]. *)
Definition style_value (item : Json) : Json :=
  or_else (field (lit "style") (or_else (Some item) (JObj [])))
    (JStr (lit "PRIMARY")).

(** The button that the body of the loop builds at index [i] from the
    converted label and style. *)
Definition built (short : jstring) (i : nat) (l s : jstring) : Button :=
  {| customId := lit "ticket:" ++ short ++ lit ":" ++ decimal i;
     label := take 80 l;
     style := style_of (toUpperCase s) |}.

(** The body of the loop for the button at index [i]: [None] when a
    conversion or the builder throws. *)
Definition make_button (short : jstring) (i : nat) (item : Json) : option Button :=
  match to_string (label_value i item), to_string (style_value item) with
  | Some l, Some s =>
    if builder_accepts (built short i l s) then Some (built short i l s) else None
  | _, _ => None
  end.

(** The loop from index [i] on: [None] when it throws. *)
Fixpoint button_loop (token : option Json) (i : nat) (items : list Json)
  : option (list Button) :=
  match items with
  | [] => Some []
  | item :: items' =>
    match tokenShort token with
    | None => None
    | Some short =>
      match make_button short i item with
      | None => None
      | Some b =>
        match button_loop token (S i) items' with
        | None => None
        | Some bs => Some (b :: bs)
        end
      end
    end
  end.

(** The components of the row after the loop. *)
Definition row_components (token buttons : option Json) : option (list Button) :=
  button_loop token 0 (safeButtons buttons).

(** [components: row.components && row.components.length ? [row] : []]. *)
Definition message_components (row : list Button) : list (list Button) :=
  match row with
  | [] => []
  | _ :: _ => [row]
  end.

(** ** The ticket endpoints (lines 298-384) *)

(** [Date.now() > v] for a value [v] that is not [undefined]. *)
Variable now_exceeds : Z → Json → bool.

(** What [decryptJSON(token, secret)] does: it throws or returns a value
    ([JNull] for [null]). *)
Inductive Decrypted :=
| DecryptThrows
| DecryptReturns (payload : Json).

(** The answers of the two endpoints: a status with its message, the
    [valid: true] answer of the token endpoint (by the fields taken from the
    payload; the [bot] field is left out) and [success: true]. *)
Inductive TicketResponse :=
| Status (code : nat) (message : string)
| Valid (guildId : option Json) (guildName : option Json) (userId : option Json)
        (channels : Json)
| Deployed.

(** [typeof payload.expiresAt !== 'number' || Date.now() > payload.expiresAt],
    the test of [GET /api/ticket/token]. *)
Definition expired_for_token (now : Z) (payload : Json) : bool :=
  match field (lit "expiresAt") payload with
  | Some (JNum n) => now_exceeds now (JNum n)
  | _ => true
  end.

(** [Date.now() > payload.expiresAt], the test of [POST /api/ticket/deploy]:
    a comparison with [undefined] is false. *)
Definition expired_for_deploy (now : Z) (payload : Json) : bool :=
  match field (lit "expiresAt") payload with
  | Some v => now_exceeds now v
  | None => false
  end.

(** [GET /api/ticket/token]. [cached] is the name of the guild
    [client.guilds.cache.get(payload.guildId)], if the cache has it. *)
Definition ticket_token (token : option Json) (decrypt : Decrypted) (now : Z)
    (cached : option jstring) : TicketResponse :=
  if negb (truthy (or_else token JNull)) then Status 400 "No token provided"
  else match decrypt with
       | DecryptThrows => Status 500 "Server error"
       | DecryptReturns payload =>
         if negb (truthy payload) then Status 400 "Invalid token"
         else if expired_for_token now payload then Status 400 "Token expired"
         else match cached with
              | None => Status 400 "Bot not in guild"
              | Some guild_name =>
                Valid (field (lit "guildId") payload)
                      (Some (or_else (field (lit "guildName") payload)
                               (JStr guild_name)))
                      (field (lit "userId") payload)
                      (or_else (field (lit "channels") payload) (JArr []))
              end
       end.

(** [String(v)] where [v] may be [undefined]; [None] when it throws. *)
Definition to_string_opt (v : option Json) : option jstring :=
  match v with
  | Some x => to_string x
  | None => Some (lit "undefined")
  end.

(** What the calls of [POST /api/ticket/deploy] to the platform answer. *)
Record DeployEnv := {
  d_decrypt : Decrypted;              (* decryptJSON(token, secret) *)
  d_now : Z;                          (* Date.now() *)
  d_user : option Json;               (* req.session?.discordUser *)
  d_guild : bool;                     (* client.guilds.fetch(...) yields a guild *)
  d_channel : option ChannelType;     (* guild.channels.fetch(channelId), by its type *)
  d_embed_ok : bool;                  (* the EmbedBuilder calls do not throw *)
  d_send_ok : bool                    (* channel.send(...) fulfils *)
}.

(** [type === ChannelType.GuildText]. *)
Definition is_GuildText (t : ChannelType) : bool :=
  match t with GuildText => true | _ => false end.

(** [channel.send({ embeds: [embed], components })], by its components. *)
Inductive DeployEffect :=
| Send (components : list (list Button)).

(** [POST /api/ticket/deploy], for a request with a parsed body: the checks
    in the order of the handler, then the embed, the button row and
    [channel.send]; whatever throws on the way (a [String] conversion, a
    builder, the sending) is answered with status 500. *)
Definition ticket_deploy (require_login : bool) (token buttons : option Json)
    (env : DeployEnv) : TicketResponse * list DeployEffect :=
  if negb (truthy (or_else token JNull)) then (Status 400 "No token", [])
  else match d_decrypt env with
  | DecryptThrows => (Status 500 "Server error", [])
  | DecryptReturns payload =>
    if negb (truthy payload) then (Status 400 "Invalid token", [])
    else if expired_for_deploy (d_now env) payload
    then (Status 400 "Token expired", [])
    else
      let refused :=
        if require_login then
          match d_user env with
          | None => Some (Status 401 "Login required")
          | Some user =>
            if truthy user then
              match to_string_opt (field (lit "id") user),
                    to_string_opt (field (lit "userId") payload) with
              | Some mine, Some owner =>
                if bool_decide (mine = owner) then None
                else Some (Status 403 "Not token owner")
              | _, _ => Some (Status 500 "Server error")
              end
            else Some (Status 401 "Login required")
          end
        else None in
      match refused with
      | Some response => (response, [])
      | None =>
        if negb (d_guild env) then (Status 400 "Bot not in guild", [])
        else match d_channel env with
        | None => (Status 400 "Invalid channel", [])
        | Some type =>
          if negb (is_GuildText type)
          then (Status 400 "Invalid channel", [])
          else if negb (d_embed_ok env) then (Status 500 "Server error", [])
          else match row_components token buttons with
          | None => (Status 500 "Server error", [])
          | Some row =>
            if d_send_ok env
            then (Deployed, [Send (message_components row)])
            else (Status 500 "Server error", [Send (message_components row)])
          end
        end
      end
  end.

End Tickets.

End Dashboard.

(** * Properties *)

(** Membership in a journal that is written out. *)
Ltac journal H :=
  repeat first
    [ apply elem_of_nil in H; contradiction
    | apply elem_of_cons in H as [H|H]; [first [discriminate H | subst | idtac]|]
    | apply elem_of_app in H as [H|H] ].

(** The journal holds the given call. *)
Ltac in_journal :=
  repeat first [ apply elem_of_app; left; apply elem_of_cons; by left
               | apply elem_of_cons; first [ by left | right ]
               | apply elem_of_app; right ].

(** ** The heap *)

Lemma heap_snoc_lookup (h : list Queue) (q : Queue) :
  (h ++ [q]) !! length h = Some q.
Proof. by apply list_lookup_middle. Qed.

Lemma heap_snoc_insert (h : list Queue) (q q' : Queue) :
  <[length h := q']> (h ++ [q]) = h ++ [q'].
Proof. induction h as [|x h IH]; simpl; [done | by rewrite IH]. Qed.

Lemma heap_snoc_old (h : list Queue) (q q0 : Queue) (r : nat) :
  h !! r = Some q0 → (h ++ [q]) !! r = Some q0.
Proof. intros H. by apply lookup_app_l_Some. Qed.

Lemma store_lookup_eq r q q0 w :
  heap w !! r = Some q0 → heap (store r q w) !! r = Some q.
Proof.
  intros H. simpl. apply list_lookup_insert_eq. by eapply lookup_lt_Some.
Qed.

Lemma store_lookup_ne r r' q w :
  r ≠ r' → heap (store r q w) !! r' = heap w !! r'.
Proof. intros H. simpl. by apply list_lookup_insert_ne. Qed.

Lemma store_store r q q' w : store r q' (store r q w) = store r q' w.
Proof. unfold store, set_heap. simpl. by rewrite list_insert_insert_eq. Qed.

(** ** [execute], case by case *)

Lemma execute_accepted e i g vc s w :
  accepted e i = Some (g, vc, s) →
  execute e i w =
  (let '(w', fx, out) := enqueue e (token i) g vc s w in
   (w', admitted_journal (token i) ++ fx, out)).
Proof.
  unfold accepted, execute. intros H.
  destruct (guild i) as [g'|]; [|done].
  destruct (option_channel i) as [vc'|]; [|done].
  destruct (is_GuildVoice (channel_type vc')); [|done].
  destruct (can_connect vc' && can_speak vc'); [|done].
  destruct (deferReply_ok e); [|done].
  destruct (validateURL e (option_query i)); [|done].
  destruct (getInfo e (option_query i)) as [s'|]; [|done].
  simpl in *. inversion H; subst. by destruct (enqueue _ _ _ _ _ _) as [[? ?] ?].
Qed.

Lemma silent_caught e n msg x :
  voice n = false → x ∈ caught e n msg → voice x = false.
Proof.
  unfold caught. intros Hn Hx. destruct (notify_ok e); journal Hx; done.
Qed.

Lemma refusal_voice x : refusal x = true → voice x = false.
Proof. by destruct x. Qed.

Lemma execute_rejected e i w :
  accepted e i = None →
  ∃ fx c, execute e i w = (w, fx, c) ∧ ∀ x, x ∈ fx → refusal x = true.
Proof.
  unfold accepted, execute. intros H.
  assert (∀ (l : list Effect) (c : Completion),
    (∀ x, x ∈ l → refusal x = true) →
    ∃ fx c', (w, l, c) = (w, fx, c') ∧ ∀ x, x ∈ fx → refusal x = true) as Hfin
    by (intros l c Hl; by eexists _, _).
  destruct (guild i) as [g'|]; [|apply Hfin; intros x Hx; simpl in Hx; journal Hx; done].
  destruct (option_channel i) as [vc'|];
    [|apply Hfin; intros x Hx; simpl in Hx; journal Hx; done].
  destruct (is_GuildVoice (channel_type vc')); simpl;
    [|apply Hfin; intros x Hx; journal Hx; done].
  destruct (can_connect vc' && can_speak vc'); simpl;
    [|apply Hfin; intros x Hx; journal Hx; done].
  destruct (deferReply_ok e); simpl; [|apply Hfin; intros x Hx; journal Hx; done].
  destruct (validateURL e (option_query i)); simpl;
    [|apply Hfin; intros x Hx; journal Hx; done].
  destruct (getInfo e (option_query i)) as [s'|]; [done|].
  apply Hfin; intros x Hx. unfold caught in Hx.
  destruct (notify_ok e); journal Hx; done.
Qed.

Lemma enqueue_first e tok g vc s w :
  queues w !! g = None →
  joinVoiceChannel_ok e = true →
  enqueue e tok g vc s w =
  ({| queues := <[g := length (heap w)]> (queues w);
      heap := heap w ++ [first_queue e tok g vc s w];
      players_created := S (players_created w);
      connections_created := S (connections_created w) |},
   [CreateAudioPlayer (players_created w);
    JoinVoiceChannel (channel_id vc) g;
    Log Info "Bot joined voice channel"]
   ++ (if openStream e (url s)
       then song_started e tok g (players_created w) (new_connection g vc w) s
       else song_failed e tok),
   Normal).
Proof.
  intros Hg Hj. unfold enqueue, get_or_create. rewrite Hg. simpl.
  rewrite heap_snoc_lookup. simpl. rewrite Hj.
  unfold play_or_announce. simpl.
  rewrite !heap_snoc_insert, heap_snoc_lookup. simpl.
  unfold playSong. simpl. rewrite heap_snoc_lookup. simpl.
  unfold first_queue, new_connection.
  destruct (openStream e (url s)); simpl; [|done].
  unfold store, set_heap. simpl. by rewrite heap_snoc_insert.
Qed.

Lemma enqueue_abandoned e tok g vc s w :
  queues w !! g = None →
  joinVoiceChannel_ok e = false →
  enqueue e tok g vc s w =
  ({| queues := queues w;
      heap := heap w ++ [abandoned_queue s w];
      players_created := S (players_created w);
      connections_created := connections_created w |},
   [CreateAudioPlayer (players_created w);
    JoinVoiceChannel (channel_id vc) g;
    Log Error "Failed to join voice channel";
    EditReply tok JoinFailed],
   returned e).
Proof.
  intros Hg Hj. unfold enqueue, get_or_create. rewrite Hg. simpl.
  rewrite heap_snoc_lookup. simpl. rewrite Hj.
  unfold set_queues. simpl. rewrite heap_snoc_insert.
  rewrite delete_insert_eq, delete_id by done. done.
Qed.

Lemma enqueue_queued e tok g vc s r q c w :
  queues w !! g = Some r →
  heap w !! r = Some q →
  connection q = Some c →
  songs q ≠ [] →
  enqueue e tok g vc s w =
  (store r (set_songs (songs q ++ [s]) q) w,
   caught e (EditReply tok (AddedToQueue (title s))) "Failed to edit reply",
   Normal).
Proof.
  intros Hg Hr Hc Hs. unfold enqueue, get_or_create. rewrite Hg, Hr. simpl.
  rewrite Hc. unfold play_or_announce.
  rewrite (store_lookup_eq _ _ q) by done. simpl.
  rewrite length_app. simpl.
  destruct (songs q) as [|s0 l]; [done|]. simpl.
  destruct (decide _) as [Hl|]; [lia | done].
Qed.

(** ** The player signals, case by case *)

Lemma emit_advance e w r q tok g c s next rest :
  heap w !! r = Some q →
  resource (player q) = Some s →
  songs q = s :: next :: rest →
  connection q = Some c →
  idle_listeners (player q) = [{| l_token := tok; l_guild := g; l_queue := r |}] →
  emit Idle e r w =
  Some (store r (advanced e next rest q) w,
        if openStream e (url next)
        then song_started e tok g (player_id (player q)) c next
        else song_failed e tok).
Proof.
  intros Hr Hres Hs Hc Hl. unfold emit. rewrite Hr, Hres, Hl.
  unfold dispatch, on_idle. cbn [l_queue l_token l_guild].
  rewrite (store_lookup_eq _ _ q) by done. rewrite store_store.
  cbn [songs set_songs set_player]. rewrite Hs. cbn [tail length].
  destruct (decide _) as [_|Hn]; [|lia].
  unfold playSong. rewrite (store_lookup_eq _ _ q) by done.
  cbn [songs set_songs set_player connection player].
  rewrite store_store, Hc. unfold advanced.
  destruct (openStream e (url next)); cbn [fst snd player_id set_resource];
    by rewrite app_nil_r.
Qed.

Lemma emit_drain e w r q g tok c s :
  heap w !! r = Some q →
  resource (player q) = Some s →
  songs q = [s] →
  connection q = Some c →
  idle_listeners (player q) = [{| l_token := tok; l_guild := g; l_queue := r |}] →
  emit Idle e r w =
  Some (set_queues (delete g (queues w)) (store r (torn_down c q) w),
        [Destroy (connection_id c);
         Log Info "Queue empty, disconnected from voice channel"]).
Proof.
  intros Hr Hres Hs Hc Hl. unfold emit. rewrite Hr, Hres, Hl.
  unfold dispatch, on_idle. cbn [l_queue l_token l_guild].
  rewrite (store_lookup_eq _ _ q) by done. rewrite store_store.
  cbn [songs set_songs set_player]. rewrite Hs. cbn [tail length].
  destruct (decide _) as [Hn|_]; [lia|].
  cbn [connection set_songs set_player]. rewrite Hc, store_store.
  by rewrite app_nil_r.
Qed.

Lemma emit_failure e w r q g tok c s :
  heap w !! r = Some q →
  resource (player q) = Some s →
  connection q = Some c →
  error_listeners (player q) = [{| l_token := tok; l_guild := g; l_queue := r |}] →
  emit Failure e r w =
  Some (set_queues (delete g (queues w)) (store r (torn_down c q) w),
        Log Error "Audio player error"
        :: caught e (FollowUp tok PlaybackFailed) "Failed to send follow-up"
        ++ [Destroy (connection_id c)]).
Proof.
  intros Hr Hres Hc Hl. unfold emit. rewrite Hr, Hres, Hl.
  unfold dispatch, on_error. cbn [l_queue l_token l_guild].
  rewrite (store_lookup_eq _ _ q) by done.
  cbn [connection set_songs set_player]. rewrite Hc, store_store.
  by rewrite app_nil_r.
Qed.

(** ** Every step of a well-formed store is one of the transitions *)

Lemma emit_playing sg e r w w' fx :
  emit sg e r w = Some (w', fx) →
  ∃ q s, heap w !! r = Some q ∧ resource (player q) = Some s.
Proof.
  unfold emit. destruct (heap w !! r) as [q|]; [|done].
  destruct (resource (player q)) as [s|] eqn:Hres; [|done].
  intros _. by exists q, s.
Qed.

Lemma step_transition e ev w w' fx :
  Inv w → step e ev w = Some (w', fx) → Transition e w ev w' fx.
Proof.
  intros HI Hstep. destruct ev as [i|sg r]; simpl in Hstep.
  - destruct (accepted e i) as [[[g vc] s]|] eqn:Ha.
    + rewrite (execute_accepted _ _ _ _ _ _ Ha) in Hstep.
      destruct (queues w !! g) as [r|] eqn:Hg.
      * destruct (inv_mapped _ HI _ _ Hg) as (q & Hr & Hok).
        destruct (ok_connection _ _ _ Hok) as (c & Hc & _).
        rewrite (enqueue_queued _ _ _ _ _ _ _ _ _ Hg Hr Hc (ok_songs _ _ _ Hok)) in Hstep.
        inversion Hstep; subst. by eapply T_queued.
      * destruct (joinVoiceChannel_ok e) eqn:Hj.
        -- rewrite (enqueue_first _ _ _ _ _ _ Hg Hj) in Hstep.
           inversion Hstep; subst. by apply T_first.
        -- rewrite (enqueue_abandoned _ _ _ _ _ _ Hg Hj) in Hstep.
           inversion Hstep; subst. by apply T_abandoned.
    + destruct (execute_rejected e i w Ha) as (fx' & c & Hx & Hsil).
      rewrite Hx in Hstep. inversion Hstep; subst. by eapply T_rejected.
  - destruct (emit_playing _ _ _ _ _ _ Hstep) as (q & s & Hr & Hres).
    destruct (inv_playing _ HI _ _ _ Hr Hres) as [g Hg].
    destruct (inv_mapped _ HI _ _ Hg) as (q' & Hr' & Hok).
    rewrite Hr in Hr'. inversion Hr'; subst q'.
    destruct (ok_connection _ _ _ Hok) as (c & Hc & _).
    destruct (ok_listeners _ _ _ Hok) as (tok & Hel & Hil).
    pose proof (ok_resource _ _ _ Hok _ Hres) as Hhead.
    destruct (songs q) as [|s0 rest] eqn:Hs; [done|].
    simpl in Hhead. inversion Hhead; subst s0.
    destruct sg.
    + destruct rest as [|next rest].
      * rewrite (emit_drain _ _ _ _ _ _ _ _ Hr Hres Hs Hc Hil) in Hstep.
        inversion Hstep; subst. by eapply T_drain.
      * rewrite (emit_advance _ _ _ _ _ _ _ _ _ _ Hr Hres Hs Hc Hil) in Hstep.
        inversion Hstep; subst. by eapply T_advance.
    + rewrite (emit_failure _ _ _ _ _ _ _ _ Hr Hres Hc Hel) in Hstep.
      inversion Hstep; subst. by eapply T_failure.
Qed.

(** ** The invariant is kept *)

Lemma store_lookup_inv r q q0 w r' x :
  heap w !! r = Some q0 →
  heap (store r q w) !! r' = Some x →
  (r' = r ∧ x = q) ∨ (r' ≠ r ∧ heap w !! r' = Some x).
Proof.
  intros H0 H. destruct (decide (r = r')) as [->|Hne].
  - rewrite (store_lookup_eq _ _ q0) in H by done. left. by inversion H.
  - rewrite store_lookup_ne in H by done. right. auto.
Qed.

Lemma heap_snoc_inv (h : list Queue) (qn : Queue) r x :
  (h ++ [qn]) !! r = Some x →
  (r = length h ∧ x = qn) ∨ h !! r = Some x.
Proof.
  intros H. apply lookup_app_Some in H as [H|[Hle H]]; [by right|left].
  destruct (r - length h) as [|k] eqn:Hk; simpl in H; [|done].
  inversion H. split; [lia | done].
Qed.

Lemma Inv_init : Inv init.
Proof. split; simpl; try done; intros *; by rewrite lookup_empty. Qed.

(** A change of the queue object of a guild that leaves it well formed. *)
Lemma Inv_store w g r q q' :
  Inv w →
  queues w !! g = Some r →
  heap w !! r = Some q →
  queue_ok g r q' →
  player_id (player q') = player_id (player q) →
  (∀ c', connection q' = Some c' → connection_id c' < connections_created w) →
  Inv (store r q' w).
Proof.
  intros HI Hg Hr Hok Hpid Hcid. split.
  - intros g' r' Hg'. simpl in Hg'.
    destruct (decide (r = r')) as [<-|Hne].
    + rewrite (inv_inj _ HI _ _ _ Hg' Hg). exists q'. split; [|done].
      by eapply store_lookup_eq.
    + rewrite store_lookup_ne by done. by apply (inv_mapped _ HI).
  - intros g1 g2 r'. simpl. apply (inv_inj _ HI).
  - intros r' x s Hx Hres. simpl.
    destruct (store_lookup_inv _ _ _ _ _ _ Hr Hx) as [[-> ->]|[_ Hx']]; [eauto|].
    by eapply (inv_playing _ HI).
  - intros r' x c Hx Hc Hd. simpl.
    destruct (store_lookup_inv _ _ _ _ _ _ Hr Hx) as [[-> ->]|[_ Hx']]; [eauto|].
    by eapply (inv_live _ HI).
  - simpl. rewrite length_insert. apply (inv_players _ HI).
  - intros r' x Hx.
    destruct (store_lookup_inv _ _ _ _ _ _ Hr Hx) as [[-> ->]|[_ Hx']].
    + rewrite Hpid. by apply (inv_player_id _ HI).
    + by apply (inv_player_id _ HI).
  - intros r' x c Hx Hc. simpl.
    destruct (store_lookup_inv _ _ _ _ _ _ Hr Hx) as [[-> ->]|[_ Hx']]; [auto|].
    by eapply (inv_connections _ HI).
Qed.

(** The queue of a guild is torn down. *)
Lemma Inv_torn_down w g r q c :
  Inv w →
  queues w !! g = Some r →
  heap w !! r = Some q →
  connection q = Some c →
  Inv (set_queues (delete g (queues w)) (store r (torn_down c q) w)).
Proof.
  intros HI Hg Hr Hc.
  assert (∀ g' r', delete g (queues w) !! g' = Some r' →
                   g' ≠ g ∧ r' ≠ r ∧ queues w !! g' = Some r') as Hdel.
  { intros g' r' H. apply lookup_delete_Some in H as [Hne H].
    repeat split; [done| |done]. intros ->. by apply Hne, (inv_inj _ HI _ _ r). }
  split.
  - intros g' r' Hg'. simpl in Hg'. apply Hdel in Hg' as (_ & Hne & Hg').
    cbn [heap set_queues]. rewrite store_lookup_ne by done.
    by apply (inv_mapped _ HI).
  - intros g1 g2 r' H1 H2. simpl in *.
    apply Hdel in H1 as (_ & _ & H1). apply Hdel in H2 as (_ & _ & H2).
    by apply (inv_inj _ HI _ _ r').
  - intros r' x s Hx Hres. cbn [heap set_queues queues] in *.
    destruct (store_lookup_inv _ _ _ _ _ _ Hr Hx) as [[-> ->]|[Hne Hx']]; [done|].
    destruct (inv_playing _ HI _ _ _ Hx' Hres) as [g' Hg'].
    exists g'. rewrite lookup_delete_ne; [done|]. intros <-. congruence.
  - intros r' x c' Hx Hc' Hd. cbn [heap set_queues queues] in *.
    destruct (store_lookup_inv _ _ _ _ _ _ Hr Hx) as [[-> ->]|[Hne Hx']].
    { simpl in Hc'. inversion Hc'; subst c'. done. }
    destruct (inv_live _ HI _ _ _ Hx' Hc' Hd) as [g' Hg'].
    exists g'. rewrite lookup_delete_ne; [done|]. intros <-. congruence.
  - simpl. rewrite length_insert. apply (inv_players _ HI).
  - intros r' x Hx. cbn [heap set_queues] in Hx.
    destruct (store_lookup_inv _ _ _ _ _ _ Hr Hx) as [[-> ->]|[_ Hx']].
    + simpl. by apply (inv_player_id _ HI).
    + by apply (inv_player_id _ HI).
  - intros r' x c' Hx Hc'. cbn [heap set_queues connections_created store set_heap] in *.
    destruct (store_lookup_inv _ _ _ _ _ _ Hr Hx) as [[-> ->]|[_ Hx']].
    + simpl in Hc'. inversion Hc'; subst c'. simpl.
      by eapply (inv_connections _ HI).
    + by eapply (inv_connections _ HI).
Qed.

(** A new queue object is allocated, registered for [g] or not. *)
Lemma Inv_alloc w (m : gmap string nat) qn k :
  Inv w →
  player_id (player qn) = length (heap w) →
  (∀ c, connection qn = Some c → connection_id c < k) →
  (connections_created w ≤ k)%nat →
  (∀ g r, m !! g = Some r →
     (r = length (heap w) ∧ queue_ok g r qn) ∨ queues w !! g = Some r) →
  (∀ g1 g2, m !! g1 = Some (length (heap w)) →
     m !! g2 = Some (length (heap w)) → g1 = g2) →
  (∀ g r, queues w !! g = Some r → m !! g = Some r) →
  ((∃ g, m !! g = Some (length (heap w)))
   ∨ (resource (player qn) = None ∧ ∀ c, connection qn = Some c → destroyed c = true)) →
  Inv {| queues := m; heap := heap w ++ [qn];
         players_created := S (players_created w);
         connections_created := k |}.
Proof.
  intros HI Hpid Hcid Hk Hm Hinj Hold Hnew.
  split; simpl.
  - intros g r Hg. destruct (Hm _ _ Hg) as [(-> & Hok)|Hg'].
    + exists qn. split; [apply heap_snoc_lookup | done].
    + destruct (inv_mapped _ HI _ _ Hg') as (q & Hq & Hok).
      exists q. split; [by apply heap_snoc_old | done].
  - intros g1 g2 r H1 H2.
    destruct (Hm _ _ H1) as [(-> & _)|H1']; [by apply Hinj|].
    destruct (Hm _ _ H2) as [(-> & _)|H2']; [by apply Hinj|].
    by apply (inv_inj _ HI _ _ r).
  - intros r q s Hq Hres.
    destruct (heap_snoc_inv _ _ _ _ Hq) as [[-> ->]|Hq'].
    + destruct Hnew as [Hg|[Hn _]]; [done | congruence].
    + destruct (inv_playing _ HI _ _ _ Hq' Hres) as [g Hg]. eauto.
  - intros r q c Hq Hc Hd.
    destruct (heap_snoc_inv _ _ _ _ Hq) as [[-> ->]|Hq'].
    + destruct Hnew as [Hg|[_ Hn]]; [done|]. rewrite (Hn _ Hc) in Hd. done.
    + destruct (inv_live _ HI _ _ _ Hq' Hc Hd) as [g Hg]. eauto.
  - rewrite length_app. simpl. rewrite (inv_players _ HI). lia.
  - intros r q Hq.
    destruct (heap_snoc_inv _ _ _ _ Hq) as [[-> ->]|Hq']; [done|].
    by apply (inv_player_id _ HI).
  - intros r q c Hq Hc.
    destruct (heap_snoc_inv _ _ _ _ Hq) as [[-> ->]|Hq']; [auto|].
    pose proof (inv_connections _ HI _ _ _ Hq' Hc). lia.
Qed.

Lemma head_snoc (l : list Song) (s : Song) : l ≠ [] → head (l ++ [s]) = head l.
Proof. by destruct l. Qed.

Lemma Transition_Inv e w ev w' fx : Inv w → Transition e w ev w' fx → Inv w'.
Proof.
  intros HI HT.
  destruct HT as [i fx c Ha Hx Hsil | i g vc s Ha Hg Hj | i g vc s Ha Hg Hj
                 | i g vc s r q Ha Hg Hr
                 | g r q tok c s next rest Hg Hr Hres Hs Hc Hl
                 | g r q c s Hg Hr Hres Hs Hc
                 | g r q tok c s Hg Hr Hres Hc Hl ].
  - done.
  - apply Inv_alloc; try done.
    + simpl. apply (inv_players _ HI).
    + simpl. intros c Hc. inversion Hc. simpl. lia.
    + lia.
    + intros g' r' Hg'. apply lookup_insert_Some in Hg' as [[<- <-]|[_ Hg']]; [|by right].
      left. split; [done|]. split; simpl; [done | eauto | eauto |].
      intros s'. destruct (openStream e (url s)); by intros [= <-].
    + intros g1 g2 H1 H2.
      apply lookup_insert_Some in H1 as [[<- _]|[_ H1]];
        apply lookup_insert_Some in H2 as [[<- _]|[_ H2]]; try done.
      * destruct (inv_mapped _ HI _ _ H2) as (q & Hq & _).
        apply lookup_lt_Some in Hq. lia.
      * destruct (inv_mapped _ HI _ _ H1) as (q & Hq & _).
        apply lookup_lt_Some in Hq. lia.
      * destruct (inv_mapped _ HI _ _ H1) as (q & Hq & _).
        apply lookup_lt_Some in Hq. lia.
    + intros g' r' Hg'. rewrite lookup_insert_ne; [done|]. intros <-. congruence.
    + left. exists g. apply lookup_insert_eq.
  - apply Inv_alloc; try done.
    + simpl. apply (inv_players _ HI).
    + intros g' r' Hg'. by right.
    + intros g1 g2 H1 H2.
      destruct (inv_mapped _ HI _ _ H1) as (q & Hq & _).
      apply lookup_lt_Some in Hq. lia.
    + by right.
  - destruct (inv_mapped _ HI _ _ Hg) as (q' & Hr' & Hok).
    rewrite Hr in Hr'. inversion Hr'; subst q'.
    eapply Inv_store; try done.
    + destruct Hok as [Hs Hc Hl Hres]. split; simpl; try done.
      * by destruct (songs q).
      * intros s' Hs'. rewrite head_snoc by done. by apply Hres.
    + simpl. intros c'. by apply (inv_connections _ HI _ _ _ Hr).
  - destruct (inv_mapped _ HI _ _ Hg) as (q' & Hr' & Hok).
    rewrite Hr in Hr'. inversion Hr'; subst q'.
    eapply Inv_store; try done.
    + destruct Hok as [_ Hc' Hl' _]. split; simpl; try done.
      intros s'. destruct (openStream e (url next)); by intros [= <-].
    + simpl. intros c'. by apply (inv_connections _ HI _ _ _ Hr).
  - by eapply Inv_torn_down.
  - by eapply Inv_torn_down.
Qed.

Lemma step_Inv e ev w w' fx : Inv w → step e ev w = Some (w', fx) → Inv w'.
Proof. intros HI Hs. eapply Transition_Inv; [done|]. by eapply step_transition. Qed.

Lemma run_Inv evs : ∀ w w' fx, Inv w → run evs w = Some (w', fx) → Inv w'.
Proof.
  induction evs as [|[e ev] evs IH]; intros w w' fx HI Hrun; simpl in Hrun.
  - by inversion Hrun; subst.
  - destruct (step e ev w) as [[w1 fx1]|] eqn:Hs; [|done].
    destruct (run evs w1) as [[w2 fx2]|] eqn:Hr; [|done].
    inversion Hrun; subst. eapply IH; [|done]. by eapply step_Inv.
Qed.

Lemma reachable_Inv w : reachable w → Inv w.
Proof. intros (evs & fx & Hrun). eapply run_Inv; [apply Inv_init | done]. Qed.

Lemma run_snoc evs : ∀ e ev w w1 fx1 w2 fx2,
  run evs w = Some (w1, fx1) →
  step e ev w1 = Some (w2, fx2) →
  run (evs ++ [(e, ev)]) w = Some (w2, fx1 ++ fx2).
Proof.
  induction evs as [|[e0 ev0] evs IH]; intros e ev w w1 fx1 w2 fx2 Hrun Hs; simpl in *.
  - inversion Hrun; subst. rewrite Hs. simpl. by rewrite app_nil_r.
  - destruct (step e0 ev0 w) as [[w0 fx0]|]; [|done].
    destruct (run evs w0) as [[w3 fx3]|] eqn:Hr; [|done].
    inversion Hrun; subst. rewrite (IH _ _ _ _ _ _ _ Hr Hs).
    by rewrite app_assoc.
Qed.

Lemma reachable_init : reachable init.
Proof. by exists [], []. Qed.

Lemma reachable_step e ev w w' fx :
  reachable w → step e ev w = Some (w', fx) → reachable w'.
Proof.
  intros (evs & fx0 & Hrun) Hs. exists (evs ++ [(e, ev)]), (fx0 ++ fx).
  by eapply run_snoc.
Qed.

Lemma is_GuildVoice_false t : t ≠ GuildVoice → is_GuildVoice t = false.
Proof. by destruct t. Qed.

(** ** Requests turned away *)

(** Claim C10. A play command made outside a guild, naming no channel or a
    channel that is not a guild voice channel, or naming a voice channel in
    which the bot may not connect or speak, is answered with a rejection
    reply and nothing else: whatever the store is, it is returned as it was,
    the journal holds two log lines and the reply (no call to the voice
    library, so no connection is attempted), and neither depends on the
    store. *)
Theorem rejected_before_queues e i :
  guild i = None
  ∨ option_channel i = None
  ∨ (∃ vc, option_channel i = Some vc
           ∧ (channel_type vc ≠ GuildVoice ∨ can_connect vc = false
              ∨ can_speak vc = false)) →
  ∃ reason m,
    m ∈ [GuildOnly; InvalidChannel; MissingPermissions]
    ∧ ∀ w, execute e i w =
           (w, [Log Info "Executing command"; Log Warn reason; Reply (token i) m],
            returned e).
Proof.
  intros H. unfold execute.
  destruct (guild i) as [g|].
  2:{ eexists _, GuildOnly. split; [|done]. apply elem_of_cons; by left. }
  destruct (option_channel i) as [vc|].
  2:{ eexists _, InvalidChannel. split; [|done].
      apply elem_of_cons; right; apply elem_of_cons; by left. }
  destruct H as [H|[H|(vc' & [= <-] & H)]]; [done..|].
  destruct (is_GuildVoice (channel_type vc)) eqn:Hv; simpl.
  2:{ eexists _, InvalidChannel. split; [|done].
      apply elem_of_cons; right; apply elem_of_cons; by left. }
  destruct H as [H|H].
  { rewrite is_GuildVoice_false in Hv; done. }
  assert (can_connect vc && can_speak vc = false) as ->.
  { destruct H as [-> | ->]; [done | by destruct (can_connect vc)]. }
  simpl. eexists _, MissingPermissions. split; [|done].
  do 2 (apply elem_of_cons; right). apply elem_of_cons; by left.
Qed.

(** Claim C5. When the URL is not valid or the lookup of the song fails,
    [execute] returns the store it was given (so no queue entry appears for a
    guild that had none, and an existing queue and connection are untouched)
    and calls nothing of the voice library; a request that got as far as the
    URL is answered with the error reply. *)
Theorem resolution_failure_changes_nothing e i w :
  validateURL e (option_query i) = false ∨ getInfo e (option_query i) = None →
  ∃ fx c,
    execute e i w = (w, fx, c)
    ∧ (∀ x, x ∈ fx → voice x = false)
    ∧ (is_Some (admitted e i) →
       if validateURL e (option_query i)
       then EditReply (token i) CommandFailed ∈ fx ∧ c = Normal
       else EditReply (token i) InvalidUrl ∈ fx ∧ c = returned e).
Proof.
  intros H.
  assert (accepted e i = None) as Ha.
  { unfold accepted. destruct (guild i); [|done].
    destruct (option_channel i); [|done].
    destruct H as [-> | ->]; [by rewrite andb_false_r|].
    by destruct (_ && _). }
  destruct (execute_rejected e i w Ha) as (fx & c & Hx & Hsil).
  exists fx, c. split; [done|].
  split; [intros x Hin; by apply refusal_voice, Hsil|].
  intros [[g vc] Hadm]. revert Hx Hadm. unfold execute, admitted.
  destruct (guild i) as [g'|]; [|done].
  destruct (option_channel i) as [vc'|]; [|done].
  destruct (is_GuildVoice (channel_type vc')); [|done].
  destruct (can_connect vc' && can_speak vc'); [|done].
  destruct (deferReply_ok e); [|done]. simpl.
  destruct (validateURL e (option_query i)); simpl.
  - destruct H as [H|H]; [done|]. rewrite H. intros [= <- <-] _.
    split; [|done]. unfold caught. do 4 (apply elem_of_cons; right).
    apply elem_of_cons; by left.
  - intros [= <- <-] _. split; [|done].
    do 4 (apply elem_of_cons; right). apply elem_of_cons; by left.
Qed.

Lemma rejected_before_queues_witness :
  ∃ reason m,
    m ∈ [GuildOnly; InvalidChannel; MissingPermissions]
    ∧ ∀ w, execute Scenario.sunny Scenario.direct_message w =
           (w, [Log Info "Executing command"; Log Warn reason; Reply 9 m],
            Normal).
Proof.
  apply (rejected_before_queues Scenario.sunny Scenario.direct_message).
  left. reflexivity.
Defined.

Lemma resolution_failure_changes_nothing_witness :
  ∃ fx c,
    execute Scenario.unresolvable
      (Scenario.request 1 "G" Scenario.lounge "a") init = (init, fx, c)
    ∧ (∀ x, x ∈ fx → voice x = false)
    ∧ (is_Some (admitted Scenario.unresolvable
                  (Scenario.request 1 "G" Scenario.lounge "a")) →
       EditReply 1 CommandFailed ∈ fx ∧ c = Normal).
Proof.
  apply (resolution_failure_changes_nothing Scenario.unresolvable
           (Scenario.request 1 "G" Scenario.lounge "a") init).
  right. reflexivity.
Defined.

(** ** The voice channel cannot be joined *)

Lemma connected_mapped w g r :
  Inv w → queues w !! g = Some r → connected w g.
Proof.
  intros HI Hg. destruct (inv_mapped _ HI _ _ Hg) as (q & Hr & Hok).
  destruct (ok_connection _ _ _ Hok) as (c & Hc & Hd). by exists r, q, c.
Qed.

Lemma connected_None w g : queues w !! g = None → ¬ connected w g.
Proof. intros Hg (r & q & c & Hg' & _). congruence. Qed.

(** Claim C4. In a reachable store, a request that passed every check while
    [joinVoiceChannel] throws: the join is attempted exactly when the guild
    has no connection, and then the guild has no queue entry before and none
    after ([queues] is what it was), every queue object that existed is
    unchanged (so what other requests queued or are playing is untouched and
    the song of the failed request is in no queue of the map), the failure is
    reported with the error reply, and the call ends as that reply does. *)
Theorem join_failure_rolls_back e i g vc s w w' fx c :
  reachable w →
  accepted e i = Some (g, vc, s) →
  joinVoiceChannel_ok e = false →
  execute e i w = (w', fx, c) →
  ((∃ ch, JoinVoiceChannel ch g ∈ fx) ↔ ¬ connected w g)
  ∧ (¬ connected w g →
     queues w !! g = None
     ∧ queues w' = queues w
     ∧ (∀ r q, heap w !! r = Some q → heap w' !! r = Some q)
     ∧ (∀ g', songs_of w' g' = songs_of w g')
     ∧ EditReply (token i) JoinFailed ∈ fx
     ∧ c = returned e).
Proof.
  intros Hreach Ha Hj Hx. pose proof (reachable_Inv _ Hreach) as HI.
  rewrite (execute_accepted _ _ _ _ _ _ Ha) in Hx.
  destruct (queues w !! g) as [r|] eqn:Hg.
  - pose proof (connected_mapped _ _ _ HI Hg) as Hcon.
    destruct (inv_mapped _ HI _ _ Hg) as (q & Hr & Hok).
    destruct (ok_connection _ _ _ Hok) as (c0 & Hc0 & _).
    rewrite (enqueue_queued _ _ _ _ _ _ _ _ _ Hg Hr Hc0 (ok_songs _ _ _ Hok)) in Hx.
    inversion Hx; subst. split; [|done]. split; [|done].
    intros [ch Hin]. unfold admitted_journal, caught in Hin.
    destruct (notify_ok e); journal Hin; done.
  - pose proof (connected_None _ _ Hg) as Hcon.
    rewrite (enqueue_abandoned _ _ _ _ _ _ Hg Hj) in Hx.
    inversion Hx; subst. split.
    + split; [done|]. intros _. exists (channel_id vc).
      unfold admitted_journal. in_journal.
    + intros _. simpl. repeat split; try done.
      * intros r q. apply heap_snoc_old.
      * intros g'. unfold songs_of. simpl.
        destruct (queues w !! g') as [r|] eqn:Hg'; [|done].
        destruct (inv_mapped _ HI _ _ Hg') as (q & Hr & _).
        by rewrite Hr, (heap_snoc_old _ _ _ _ Hr).
      * unfold admitted_journal. in_journal.
Qed.

Lemma join_failure_rolls_back_witness :
  ∃ w' fx c,
    execute Scenario.unjoinable (Scenario.request 1 "G" Scenario.lounge "a") init
    = (w', fx, c)
    ∧ ((∃ ch, JoinVoiceChannel ch "G" ∈ fx) ↔ ¬ connected init "G")
    ∧ (¬ connected init "G" →
       queues init !! "G" = None
       ∧ queues w' = queues init
       ∧ (∀ r q, heap init !! r = Some q → heap w' !! r = Some q)
       ∧ (∀ g', songs_of w' g' = songs_of init g')
       ∧ EditReply 1 JoinFailed ∈ fx
       ∧ c = Normal).
Proof.
  eexists _, _, _. split; [reflexivity|].
  apply (join_failure_rolls_back Scenario.unjoinable
           (Scenario.request 1 "G" Scenario.lounge "a") "G" Scenario.lounge
           {| title := "a"; url := "https://youtu.be/a" |} init).
  - apply reachable_init.
  - reflexivity.
  - reflexivity.
  - reflexivity.
Defined.

(** ** Connection and queue content *)

(** Claim C2. In every reachable store and for every guild, the guild has a
    connection that is not destroyed exactly when its songs list is not
    empty or its player has not finished its resource. Moreover a connection
    that is not destroyed always belongs to a queue that [queues] holds and
    whose songs list is not empty, and a player that is playing always
    belongs to such a queue, has a connection that is not destroyed, and
    plays the head of the songs list. *)
Theorem connection_iff_content w g :
  reachable w →
  (connected w g ↔ songs_of w g ≠ [] ∨ playing_in w g)
  ∧ (∀ r q c, heap w !! r = Some q → connection q = Some c → destroyed c = false →
       ∃ g', queues w !! g' = Some r ∧ songs q ≠ [])
  ∧ (∀ r q s, heap w !! r = Some q → resource (player q) = Some s →
       ∃ g' c, queues w !! g' = Some r ∧ connection q = Some c
               ∧ destroyed c = false ∧ head (songs q) = Some s).
Proof.
  intros Hreach. pose proof (reachable_Inv _ Hreach) as HI.
  split; [|split].
  - split.
    + intros (r & q & c & Hg & Hr & _). left. unfold songs_of. rewrite Hg, Hr.
      destruct (inv_mapped _ HI _ _ Hg) as (q' & Hr' & Hok).
      rewrite Hr in Hr'. inversion Hr'; subst q'. apply (ok_songs _ _ _ Hok).
    + intros [Hs|(r & Hg & _)].
      * unfold songs_of in Hs. destruct (queues w !! g) as [r|] eqn:Hg; [|done].
        by eapply connected_mapped.
      * by eapply connected_mapped.
  - intros r q c Hr Hc Hd. destruct (inv_live _ HI _ _ _ Hr Hc Hd) as [g' Hg'].
    exists g'. split; [done|].
    destruct (inv_mapped _ HI _ _ Hg') as (q' & Hr' & Hok).
    rewrite Hr in Hr'. inversion Hr'; subst q'. apply (ok_songs _ _ _ Hok).
  - intros r q s Hr Hres. destruct (inv_playing _ HI _ _ _ Hr Hres) as [g' Hg'].
    destruct (inv_mapped _ HI _ _ Hg') as (q' & Hr' & Hok).
    rewrite Hr in Hr'. inversion Hr'; subst q'.
    destruct (ok_connection _ _ _ Hok) as (c & Hc & Hd).
    exists g', c. repeat split; try done. by apply (ok_resource _ _ _ Hok).
Qed.

Lemma reachable_after evs : is_Some (run evs init) → reachable (Scenario.after evs).
Proof.
  unfold Scenario.after, reachable. intros [[w fx] H]. rewrite H. by exists evs, fx.
Qed.

Lemma connection_iff_content_witness :
  (connected (Scenario.after Scenario.a_then_b) "G"
   ↔ songs_of (Scenario.after Scenario.a_then_b) "G" ≠ []
     ∨ playing_in (Scenario.after Scenario.a_then_b) "G")
  ∧ (∀ r q c, heap (Scenario.after Scenario.a_then_b) !! r = Some q →
       connection q = Some c → destroyed c = false →
       ∃ g', queues (Scenario.after Scenario.a_then_b) !! g' = Some r ∧ songs q ≠ [])
  ∧ (∀ r q s, heap (Scenario.after Scenario.a_then_b) !! r = Some q →
       resource (player q) = Some s →
       ∃ g' c, queues (Scenario.after Scenario.a_then_b) !! g' = Some r
               ∧ connection q = Some c
               ∧ destroyed c = false ∧ head (songs q) = Some s).
Proof.
  apply (connection_iff_content (Scenario.after Scenario.a_then_b) "G").
  apply reachable_after. vm_compute. eexists. reflexivity.
Defined.

(** ** The player fails *)

(** Claim C3. In a reachable store, when the player of the queue of a guild
    signals an error while it is playing, the listener empties the songs
    list of the queue object, destroys its connection and deletes the entry
    of the guild from [queues], leaving the other guilds as they were. A
    later request for the guild that goes through then registers a queue
    object that did not exist before, holding just the requested song, with
    a connection that is not destroyed, that no earlier queue object holds,
    and that was obtained by a new call of [joinVoiceChannel] for the
    requested channel. *)
Theorem player_error_resets e w g r q :
  reachable w →
  queues w !! g = Some r →
  heap w !! r = Some q →
  is_Some (resource (player q)) →
  ∃ w1 fx1 q1 c1,
    step e (PlayerSignal Failure r) w = Some (w1, fx1)
    ∧ queues w1 !! g = None
    ∧ heap w1 !! r = Some q1 ∧ songs q1 = []
    ∧ connection q1 = Some c1 ∧ destroyed c1 = true
    ∧ Destroy (connection_id c1) ∈ fx1
    ∧ (∀ g', g' ≠ g → queues w1 !! g' = queues w !! g')
    ∧ ∀ e2 i vc s,
        accepted e2 i = Some (g, vc, s) →
        joinVoiceChannel_ok e2 = true →
        ∃ w2 fx2 r2 q2 c2,
          step e2 (Command i) w1 = Some (w2, fx2)
          ∧ queues w2 !! g = Some r2
          ∧ heap w1 !! r2 = None
          ∧ heap w2 !! r2 = Some q2 ∧ songs q2 = [s]
          ∧ connection q2 = Some c2 ∧ destroyed c2 = false
          ∧ joinConfig_channelId c2 = channel_id vc
          ∧ (∀ r' q' c', heap w1 !! r' = Some q' → connection q' = Some c' →
               connection_id c' ≠ connection_id c2)
          ∧ JoinVoiceChannel (channel_id vc) g ∈ fx2.
Proof.
  intros Hreach Hg Hr [s0 Hres]. pose proof (reachable_Inv _ Hreach) as HI.
  destruct (inv_mapped _ HI _ _ Hg) as (q' & Hr' & Hok).
  rewrite Hr in Hr'. inversion Hr'; subst q'.
  destruct (ok_connection _ _ _ Hok) as (c & Hc & Hd).
  destruct (ok_listeners _ _ _ Hok) as (tok & Hel & _).
  pose proof (Inv_torn_down _ _ _ _ _ HI Hg Hr Hc) as HI1.
  eexists _, _, (torn_down c q), (destroy c).
  split; [simpl; by eapply emit_failure|].
  split; [simpl; apply lookup_delete_eq|].
  split; [by eapply (store_lookup_eq _ _ q)|].
  repeat split; try done.
  - unfold caught. destruct (notify_ok e); in_journal.
  - intros g' Hne. simpl. by apply lookup_delete_ne.
  - intros e2 i vc s Ha Hj. simpl.
    rewrite (execute_accepted _ _ _ _ _ _ Ha).
    rewrite enqueue_first; [|simpl; apply lookup_delete_eq|done].
    eexists _, _, _, _, _. split; [reflexivity|]. cbn [queues heap].
    split; [apply lookup_insert_eq|].
    split; [by apply lookup_ge_None|].
    split; [apply heap_snoc_lookup|].
    repeat split; try done.
    + intros r' q' c' Hq' Hc'. cbn [connection_id new_connection].
      pose proof (inv_connections _ HI1 _ _ _ Hq' Hc'). lia.
    + unfold admitted_journal. in_journal.
Qed.

Lemma player_error_resets_witness :
  ∃ w1 fx1 q1 c1,
    step Scenario.sunny (PlayerSignal Failure 0) (Scenario.after Scenario.a_then_b)
    = Some (w1, fx1)
    ∧ queues w1 !! "G" = None
    ∧ heap w1 !! 0 = Some q1 ∧ songs q1 = []
    ∧ connection q1 = Some c1 ∧ destroyed c1 = true
    ∧ Destroy (connection_id c1) ∈ fx1
    ∧ (∀ g', g' ≠ "G" →
         queues w1 !! g' = queues (Scenario.after Scenario.a_then_b) !! g')
    ∧ ∀ e2 i vc s,
        accepted e2 i = Some ("G", vc, s) →
        joinVoiceChannel_ok e2 = true →
        ∃ w2 fx2 r2 q2 c2,
          step e2 (Command i) w1 = Some (w2, fx2)
          ∧ queues w2 !! "G" = Some r2
          ∧ heap w1 !! r2 = None
          ∧ heap w2 !! r2 = Some q2 ∧ songs q2 = [s]
          ∧ connection q2 = Some c2 ∧ destroyed c2 = false
          ∧ joinConfig_channelId c2 = channel_id vc
          ∧ (∀ r' q' c', heap w1 !! r' = Some q' → connection q' = Some c' →
               connection_id c' ≠ connection_id c2)
          ∧ JoinVoiceChannel (channel_id vc) "G" ∈ fx2.
Proof.
  assert (is_Some (heap (Scenario.after Scenario.a_then_b) !! 0)) as [q Hq]
    by (vm_compute; eexists; reflexivity).
  apply (player_error_resets Scenario.sunny (Scenario.after Scenario.a_then_b) "G" 0 q).
  - apply reachable_after. vm_compute. eexists. reflexivity.
  - vm_compute. reflexivity.
  - exact Hq.
  - vm_compute in Hq. inversion Hq. vm_compute. eexists. reflexivity.
Defined.

(** ** First in, first out *)

Lemma played_app g fx1 fx2 : played g (fx1 ++ fx2) = played g fx1 ++ played g fx2.
Proof. unfold played. by rewrite map_app, concat_app. Qed.

Lemma played_cons g x fx : played g (x :: fx) = play_of g x ++ played g fx.
Proof. done. Qed.

Lemma played_silent g fx : (∀ x, x ∈ fx → voice x = false) → played g fx = [].
Proof.
  induction fx as [|x fx IH]; intros H; [done|].
  unfold played in *. simpl. rewrite IH.
  - assert (voice x = false) as Hx by (apply H; by left). by destruct x.
  - intros y Hy. apply H. by right.
Qed.

Lemma played_caught g e n msg : voice n = false → played g (caught e n msg) = [].
Proof. intros Hn. apply played_silent. intros x Hx. by eapply silent_caught. Qed.

Lemma played_song_failed g e tok : played g (song_failed e tok) = [].
Proof.
  apply played_silent. intros x Hx. unfold song_failed in Hx.
  apply elem_of_cons in Hx as [->|Hx]; [done|].
  eapply silent_caught; [|exact Hx]. done.
Qed.

Lemma played_song_started g g' e tok pid c s :
  played g (song_started e tok g' pid c s) = if decide (g' = g) then [s] else [].
Proof.
  unfold song_started. rewrite !played_app, played_caught by done.
  unfold played. simpl. destruct (decide (g' = g)); by rewrite ?app_nil_r.
Qed.

Lemma played_admitted g tok : played g (admitted_journal tok) = [].
Proof. done. Qed.

Lemma accepted_guild e i g vc s : accepted e i = Some (g, vc, s) → guild i = Some g.
Proof.
  unfold accepted. destruct (guild i); [|done].
  destruct (option_channel i); [|done]. destruct (_ && _); [|done].
  destruct (getInfo _ _); [|done]. by intros [= -> _ _].
Qed.




(** *** Calls that overlap *)













(** ** One connection and one set of listeners per queue *)

Lemma same_wiring_refl q : same_wiring q q.
Proof.
  repeat split. destruct (connection q) as [c|]; [|done]. by exists c.
Qed.

Lemma store_wiring w r q q' :
  heap w !! r = Some q →
  same_wiring q q' →
  ∀ r0 q0, heap w !! r0 = Some q0 →
    ∃ q0', heap (store r q' w) !! r0 = Some q0' ∧ same_wiring q0 q0'.
Proof.
  intros Hr Hw r0 q0 H0. destruct (decide (r = r0)) as [<-|Hne].
  - exists q'. split; [by eapply store_lookup_eq|]. congruence.
  - exists q0. rewrite store_lookup_ne by done. split; [done|apply same_wiring_refl].
Qed.

Lemma alloc_wiring (h : list Queue) qn :
  ∀ r0 q0, h !! r0 = Some q0 →
    ∃ q0', (h ++ [qn]) !! r0 = Some q0' ∧ same_wiring q0 q0'.
Proof.
  intros r0 q0 H0. exists q0. split; [by apply heap_snoc_old|apply same_wiring_refl].
Qed.

Lemma set_songs_wiring q l : same_wiring q (set_songs l q).
Proof.
  repeat split. simpl. destruct (connection q) as [c|]; [|done]. by exists c.
Qed.

Lemma advanced_wiring e next rest q : same_wiring q (advanced e next rest q).
Proof.
  repeat split. simpl. destruct (connection q) as [c|]; [|done]. by exists c.
Qed.

Lemma torn_down_wiring q c : connection q = Some c → same_wiring q (torn_down c q).
Proof. intros Hc. repeat split. rewrite Hc. by exists (destroy c). Qed.

(** No step changes the player, the listeners or the connection of a queue
    object that exists. *)
Lemma Transition_wiring e w ev w' fx :
  Transition e w ev w' fx →
  ∀ r q, heap w !! r = Some q →
    ∃ q', heap w' !! r = Some q' ∧ same_wiring q q'.
Proof.
  intros HT.
  destruct HT as [i fx c Ha Hx Hsil | i g vc s Ha Hg Hj | i g vc s Ha Hg Hj
                 | i g vc s r q Ha Hg Hr
                 | g r q tok c s next rest Hg Hr Hres Hs Hc Hl
                 | g r q c s Hg Hr Hres Hs Hc
                 | g r q tok c s Hg Hr Hres Hc Hl ].
  - intros r q Hr. exists q. split; [done|apply same_wiring_refl].
  - apply alloc_wiring.
  - apply alloc_wiring.
  - eapply store_wiring; [done|]. apply set_songs_wiring.
  - eapply store_wiring; [done|]. apply advanced_wiring.
  - cbn [heap set_queues]. eapply store_wiring; [done|]. by apply torn_down_wiring.
  - cbn [heap set_queues]. eapply store_wiring; [done|]. by apply torn_down_wiring.
Qed.

Lemma joins_app fx1 fx2 : joins (fx1 ++ fx2) = joins fx1 + joins fx2.
Proof.
  induction fx1 as [|x fx1 IH]; [done|]. simpl. destruct x; simpl; by rewrite ?IH.
Qed.

Lemma joins_silent fx : (∀ x, x ∈ fx → voice x = false) → joins fx = 0.
Proof.
  induction fx as [|x fx IH]; intros H; [done|].
  assert (voice x = false) as Hx by (apply H; by left).
  simpl. rewrite IH; [by destruct x|]. intros y Hy. apply H. by right.
Qed.

Lemma joins_caught e n msg : voice n = false → joins (caught e n msg) = 0.
Proof.
  intros Hn. apply joins_silent. intros x Hx. by eapply silent_caught.
Qed.

Lemma joins_song_started e tok g pid c s : joins (song_started e tok g pid c s) = 0.
Proof. unfold song_started, caught. by destruct (notify_ok e). Qed.

Lemma joins_song_failed e tok : joins (song_failed e tok) = 0.
Proof. unfold song_failed, caught. by destruct (notify_ok e). Qed.

Lemma registrations_snoc h q :
  registrations (h ++ [q])
  = registrations h + (length (error_listeners (player q))
                       + length (idle_listeners (player q))).
Proof.
  unfold registrations. rewrite sum_list_with_app. simpl. lia.
Qed.

Lemma registrations_insert q' : ∀ h r q,
  h !! r = Some q →
  same_wiring q q' →
  registrations (<[r := q']> h) = registrations h.
Proof.
  unfold registrations.
  induction h as [|x h IH]; intros r q Hr Hw; [done|].
  destruct r as [|r]; simpl in *.
  - inversion Hr; subst x. destruct Hw as (_ & -> & -> & _). done.
  - by rewrite (IH r q).
Qed.

Lemma Transition_joins e w ev w' fx :
  Transition e w ev w' fx →
  joins fx = (if join_attempt e ev w then 1 else 0)
  ∧ connections_created w' =
    connections_created w + (if first_enqueue e ev w then 1 else 0)
  ∧ registrations (heap w') =
    registrations (heap w) + (if first_enqueue e ev w then 2 else 0).
Proof.
  intros HT. unfold first_enqueue, join_attempt.
  destruct HT as [i fx c Ha Hx Hsil | i g vc s Ha Hg Hj | i g vc s Ha Hg Hj
                 | i g vc s r q Ha Hg Hr
                 | g r q tok c s next rest Hg Hr Hres Hs Hc Hl
                 | g r q c s Hg Hr Hres Hs Hc
                 | g r q tok c s Hg Hr Hres Hc Hl ];
    rewrite ?Ha; cbn [connections_created heap store set_heap set_queues andb].
  - rewrite joins_silent; [lia|]. intros x Hin. by apply refusal_voice, Hsil.
  - rewrite bool_decide_eq_true_2, Hj by done. rewrite registrations_snoc.
    rewrite !joins_app. cbn [andb].
    split; [|simpl; lia].
    destruct (openStream e (url s));
      by rewrite ?joins_song_started, ?joins_song_failed.
  - rewrite bool_decide_eq_true_2, Hj by done. rewrite registrations_snoc.
    simpl. lia.
  - rewrite bool_decide_eq_false_2 by congruence.
    rewrite joins_app, joins_caught by done.
    rewrite (registrations_insert _ _ _ q) by (done || apply set_songs_wiring).
    simpl. lia.
  - rewrite (registrations_insert _ _ _ q) by (done || apply advanced_wiring).
    destruct (openStream e (url next));
      rewrite ?joins_song_started, ?joins_song_failed; lia.
  - rewrite (registrations_insert _ _ _ q) by (done || by apply torn_down_wiring).
    simpl. lia.
  - rewrite (registrations_insert _ _ _ q) by (done || by apply torn_down_wiring).
    change (joins _) with (joins (caught e (FollowUp tok PlaybackFailed)
                                    "Failed to send follow-up"
                                  ++ [Destroy (connection_id c)])).
    rewrite joins_app, joins_caught by done. simpl. lia.
Qed.

Lemma Transition_first e w ev w' fx :
  Inv w →
  Transition e w ev w' fx →
  first_enqueue e ev w = true
  ↔ ∃ g, queues w !! g = None ∧ is_Some (queues w' !! g).
Proof.
  intros HI HT. unfold first_enqueue, join_attempt.
  destruct HT as [i fx c Ha Hx Hsil | i g vc s Ha Hg Hj | i g vc s Ha Hg Hj
                 | i g vc s r q Ha Hg Hr
                 | g r q tok c s next rest Hg Hr Hres Hs Hc Hl
                 | g r q c s Hg Hr Hres Hs Hc
                 | g r q tok c s Hg Hr Hres Hc Hl ];
    rewrite ?Ha; cbn [queues store set_heap set_queues andb].
  - split; [done|]. intros (g & Hn & [r Hr]). congruence.
  - rewrite bool_decide_eq_true_2, Hj by done. split; [|done]. intros _.
    exists g. split; [done|]. rewrite lookup_insert_eq. by eexists.
  - rewrite Hj, andb_false_r. split; [done|]. intros (g' & Hn & [r Hr]). congruence.
  - rewrite bool_decide_eq_false_2 by congruence.
    split; [done|]. intros (g' & Hn & [r' Hr']). congruence.
  - split; [done|]. intros (g' & Hn & [r' Hr']). congruence.
  - split; [done|]. intros (g' & Hn & [r' Hr']).
    apply lookup_delete_Some in Hr' as [_ Hr']. congruence.
  - split; [done|]. intros (g' & Hn & [r' Hr']).
    apply lookup_delete_Some in Hr' as [_ Hr']. congruence.
Qed.

(** Claim C7. For every step of a reachable store: every guild that has a
    queue afterwards has one connection, not destroyed, and one error and
    one idle listener on its player; no queue object that existed gets
    another player, connection or listener; [joinVoiceChannel] is called
    once if the step is a request that passed every check for a guild
    without a queue and not at all otherwise; the number of connections
    created grows by one and the number of registered listeners by two (one
    [error], one [idle]) if that call succeeds, which is exactly when the
    step gives a queue to a guild that had none, and neither grows
    otherwise. In particular a request for a guild that has a connection
    calls [joinVoiceChannel] zero times, creates no connection and registers
    no listener. *)
Theorem one_connection_one_subscription e ev w w' fx :
  reachable w →
  step e ev w = Some (w', fx) →
  (∀ g r, queues w' !! g = Some r →
     ∃ q c l, heap w' !! r = Some q
              ∧ connection q = Some c ∧ destroyed c = false
              ∧ error_listeners (player q) = [l] ∧ idle_listeners (player q) = [l])
  ∧ (∀ r q, heap w !! r = Some q → ∃ q', heap w' !! r = Some q' ∧ same_wiring q q')
  ∧ joins fx = (if join_attempt e ev w then 1 else 0)
  ∧ connections_created w' =
    connections_created w + (if first_enqueue e ev w then 1 else 0)
  ∧ registrations (heap w') =
    registrations (heap w) + (if first_enqueue e ev w then 2 else 0)
  ∧ (first_enqueue e ev w = true
     ↔ ∃ g, queues w !! g = None ∧ is_Some (queues w' !! g))
  ∧ (∀ i g, ev = Command i → guild i = Some g → connected w g →
       joins fx = 0
       ∧ connections_created w' = connections_created w
       ∧ registrations (heap w') = registrations (heap w)).
Proof.
  intros Hreach Hs. pose proof (reachable_Inv _ Hreach) as HI.
  pose proof (step_transition _ _ _ _ _ HI Hs) as HT.
  pose proof (Transition_Inv _ _ _ _ _ HI HT) as HI'.
  destruct (Transition_joins _ _ _ _ _ HT) as (Hj & Hc & Hreg).
  split.
  { intros g r Hg. destruct (inv_mapped _ HI' _ _ Hg) as (q & Hr & Hok).
    destruct (ok_connection _ _ _ Hok) as (c & Hc' & Hd).
    destruct (ok_listeners _ _ _ Hok) as (tok & Hel & Hil).
    by eexists q, c, _. }
  split; [by eapply Transition_wiring|].
  split; [done|]. split; [done|]. split; [done|].
  split; [by eapply Transition_first|].
  intros i g -> Hg (r & q & c & Hq & _).
  assert (join_attempt e (Command i) w = false) as Hno.
  { unfold join_attempt. destruct (accepted e i) as [[[g' vc] s]|] eqn:Ha; [|done].
    pose proof (accepted_guild _ _ _ _ _ Ha) as Hg'.
    rewrite Hg in Hg'. inversion Hg'; subst g'.
    apply bool_decide_eq_false_2. congruence. }
  unfold first_enqueue in *. rewrite Hno in *. simpl in *. lia.
Qed.

Lemma one_connection_one_subscription_witness :
  ∃ w' fx,
    step Scenario.sunny (Command (Scenario.request 2 "G" Scenario.stage "b"))
      (Scenario.after [(Scenario.sunny,
                        Command (Scenario.request 1 "G" Scenario.lounge "a"))])
    = Some (w', fx)
    ∧ joins fx = 0
    ∧ connections_created w' = 1
    ∧ registrations (heap w') = 2.
Proof.
  eexists _, _. split; [vm_compute; reflexivity|].
  pose proof (one_connection_one_subscription Scenario.sunny
    (Command (Scenario.request 2 "G" Scenario.stage "b"))
    (Scenario.after [(Scenario.sunny,
                      Command (Scenario.request 1 "G" Scenario.lounge "a"))])) as H.
  edestruct H as (_ & _ & Hj & Hc & Hr & _).
  - apply reachable_after. vm_compute. eexists. reflexivity.
  - vm_compute. reflexivity.
  - split; [exact Hj|]. split; [exact Hc | exact Hr].
Defined.

(** ** What is announced as playing *)

Lemma Transition_queues e w ev w' fx :
  Transition e w ev w' fx →
  ∀ g r, queues w !! g = Some r →
    queues w' !! g = Some r ∨ queues w' !! g = None.
Proof.
  intros HT g' r' Hg'.
  destruct HT as [i fx c Ha Hx Hsil | i g vc s Ha Hg Hj | i g vc s Ha Hg Hj
                 | i g vc s r q Ha Hg Hr
                 | g r q tok c s next rest Hg Hr Hres Hs Hc Hl
                 | g r q c s Hg Hr Hres Hs Hc
                 | g r q tok c s Hg Hr Hres Hc Hl ];
    cbn [queues store set_heap set_queues]; try by left.
  - left. rewrite lookup_insert_ne; [done|]. intros <-. congruence.
  - destruct (decide (g = g')) as [<-|Hne].
    + right. apply lookup_delete_eq.
    + left. by rewrite lookup_delete_ne.
  - destruct (decide (g = g')) as [<-|Hne].
    + right. apply lookup_delete_eq.
    + left. by rewrite lookup_delete_ne.
Qed.

Lemma Transition_join_guild e w ev w' fx :
  Transition e w ev w' fx →
  ∀ ch g, JoinVoiceChannel ch g ∈ fx → queues w !! g = None.
Proof.
  intros HT ch g' Hin.
  destruct HT as [i fx c Ha Hx Hsil | i g vc s Ha Hg Hj | i g vc s Ha Hg Hj
                 | i g vc s r q Ha Hg Hr
                 | g r q tok c s next rest Hg Hr Hres Hs Hc Hl
                 | g r q c s Hg Hr Hres Hs Hc
                 | g r q tok c s Hg Hr Hres Hc Hl ].
  - by apply Hsil in Hin.
  - unfold admitted_journal, song_started, song_failed, caught in Hin.
    destruct (openStream e (url s)), (notify_ok e); journal Hin; by simplify_eq.
  - unfold admitted_journal in Hin. journal Hin; by simplify_eq.
  - unfold admitted_journal, caught in Hin.
    destruct (notify_ok e); journal Hin; by simplify_eq.
  - unfold song_started, song_failed, caught in Hin.
    destruct (openStream e (url next)), (notify_ok e); journal Hin; by simplify_eq.
  - journal Hin; by simplify_eq.
  - unfold caught in Hin. destruct (notify_ok e); journal Hin; by simplify_eq.
Qed.

(** A song is started only through [playSong] on the queue of its guild, and
    the notice sent with it names the channel of the connection of that
    queue. *)
Lemma Transition_plays e w ev w' fx :
  Inv w →
  Transition e w ev w' fx →
  ∀ x, x ∈ fx →
    match x with
    | Play g pid s =>
      ∃ r q c tok,
        queues w' !! g = Some r ∧ heap w' !! r = Some q
        ∧ player_id (player q) = pid
        ∧ connection q = Some c ∧ destroyed c = false
        ∧ resource (player q) = Some s ∧ head (songs q) = Some s
        ∧ EditReply tok (NowPlaying (title s) (joinConfig_channelId c)) ∈ fx
    | EditReply tok (NowPlaying t ch) =>
      ∃ g r q c s,
        queues w' !! g = Some r ∧ heap w' !! r = Some q
        ∧ connection q = Some c ∧ joinConfig_channelId c = ch
        ∧ resource (player q) = Some s ∧ title s = t
        ∧ Play g (player_id (player q)) s ∈ fx
    | _ => True
    end.
Proof.
  intros HI HT x Hin.
  destruct HT as [i fx c Ha Hx Hsil | i g vc s Ha Hg Hj | i g vc s Ha Hg Hj
                 | i g vc s r q Ha Hg Hr
                 | g r q tok c s next rest Hg Hr Hres Hs Hc Hl
                 | g r q c s Hg Hr Hres Hs Hc
                 | g r q tok c s Hg Hr Hres Hc Hl ].
  - apply Hsil in Hin. destruct x as [| | |? []| | | | | |]; done.
  - destruct (openStream e (url s)) eqn:Ho.
    + assert (∃ r q,
        queues {| queues := <[g := length (heap w)]> (queues w);
                  heap := heap w ++ [first_queue e (token i) g vc s w];
                  players_created := S (players_created w);
                  connections_created := S (connections_created w) |} !! g = Some r
        ∧ (heap w ++ [first_queue e (token i) g vc s w]) !! r = Some q
        ∧ player_id (player q) = players_created w
        ∧ connection q = Some (new_connection g vc w)
        ∧ resource (player q) = Some s ∧ head (songs q) = Some s) as (r & q & H).
      { exists (length (heap w)), (first_queue e (token i) g vc s w).
        cbn [queues]. rewrite lookup_insert_eq, heap_snoc_lookup.
        unfold first_queue. simpl. by rewrite Ho. }
      destruct H as (H1 & H2 & H3 & H4 & H5 & H6).
      unfold admitted_journal, song_started, caught in *.
      destruct (notify_ok e); journal Hin; try done.
      all: first
        [ exists r, q, (new_connection g vc w), (token i);
          repeat split; try done; in_journal
        | exists g, r, q, (new_connection g vc w), s;
          repeat split; try done; rewrite H3; in_journal ].
    + unfold admitted_journal, song_failed, caught in Hin.
      destruct (notify_ok e); journal Hin; done.
  - unfold admitted_journal in Hin. journal Hin; done.
  - unfold admitted_journal, caught in Hin. destruct (notify_ok e); journal Hin; done.
  - destruct (openStream e (url next)) eqn:Ho.
    + assert (heap (store r (advanced e next rest q) w) !! r
              = Some (advanced e next rest q)) as H2
        by (by eapply store_lookup_eq).
      assert (resource (player (advanced e next rest q)) = Some next) as H5
        by (simpl; by rewrite Ho).
      assert (destroyed c = false) as Hd.
      { destruct (inv_mapped _ HI _ _ Hg) as (q' & Hr' & Hok).
        destruct (ok_connection _ _ _ Hok) as (c' & Hc' & Hd). congruence. }
      unfold song_started, caught in *.
      destruct (notify_ok e); journal Hin; try done.
      all: first
        [ exists r, (advanced e next rest q), c, tok;
          repeat split; try done; in_journal
        | exists g, r, (advanced e next rest q), c, next;
          repeat split; try done; in_journal ].
    + unfold song_failed, caught in Hin.
      destruct (notify_ok e); journal Hin; done.
  - journal Hin; done.
  - unfold caught in Hin. destruct (notify_ok e); journal Hin; done.
Qed.

(** Where [playSong] is called and the stream opens, the song is started
    and announced: at the first request of a guild that goes through, and
    when the idle signal finds a next song. *)
Lemma Transition_starts e w ev w' fx :
  Inv w →
  Transition e w ev w' fx →
  match ev with
  | Command i =>
    ∀ g vc s,
      accepted e i = Some (g, vc, s) → queues w !! g = None →
      joinVoiceChannel_ok e = true → openStream e (url s) = true →
      Play g (players_created w) s ∈ fx
      ∧ EditReply (token i) (NowPlaying (title s) (channel_id vc)) ∈ fx
  | PlayerSignal Idle r =>
    ∀ g q s0 s rest,
      queues w !! g = Some r → heap w !! r = Some q →
      songs q = s0 :: s :: rest → openStream e (url s) = true →
      ∃ c l,
        connection q = Some c ∧ idle_listeners (player q) = [l]
        ∧ Play g (player_id (player q)) s ∈ fx
        ∧ EditReply (l_token l) (NowPlaying (title s) (joinConfig_channelId c)) ∈ fx
  | PlayerSignal Failure _ => True
  end.
Proof.
  intros HI HT.
  destruct HT as [i fx c Ha Hx Hsil | i g vc s Ha Hg Hj | i g vc s Ha Hg Hj
                 | i g vc s r q Ha Hg Hr
                 | g r q tok c s next rest Hg Hr Hres Hs Hc Hl
                 | g r q c s Hg Hr Hres Hs Hc
                 | g r q tok c s Hg Hr Hres Hc Hl ].
  - intros g vc s Ha'. congruence.
  - intros g' vc' s' Ha' _ _ Ho. rewrite Ha in Ha'. inversion Ha'; subst.
    rewrite Ho. unfold admitted_journal, song_started, caught.
    split; destruct (notify_ok e); in_journal.
  - intros g' vc' s' _ _ Hj'. congruence.
  - intros g' vc' s' Ha' Hg'. rewrite Ha in Ha'. inversion Ha'; subst. congruence.
  - intros g' q' s0 s' rest' Hg' Hr' Hs' Ho.
    assert (g' = g) as -> by (by eapply (inv_inj _ HI)).
    rewrite Hr in Hr'. inversion Hr'; subst q'.
    rewrite Hs in Hs'. inversion Hs'; subst.
    rewrite Ho. exists c, {| l_token := tok; l_guild := g; l_queue := r |}.
    split; [done|]. split; [done|]. unfold song_started, caught. cbn [l_token].
    split; destruct (notify_ok e); in_journal.
  - intros g' q' s0 s' rest' Hg' Hr' Hs' Ho.
    rewrite Hr in Hr'. inversion Hr'; subst q'. rewrite Hs in Hs'. done.
  - done.
Qed.

(** Claim C9. For every step of a reachable store. Playback starts where
    [playSong] is called and the stream opens: at the first request of a
    guild that goes through, and when the idle signal of a player finds a
    next song; in both cases the song is started on the player of the queue
    and the notice "now playing" is sent with the title of the song and the
    [joinConfig.channelId] of the connection of that queue (for the first
    request, the channel just joined). Whenever a song is started
    ([queue.player.play]), the queue of its guild holds it at the head, its
    player plays it, and the journal holds that notice; every "now playing"
    notice in the journal is of this kind. And for a guild that has a
    connection, the step calls [joinVoiceChannel] for that guild not at all,
    the guild keeps its queue object or loses its entry, and the queue
    object keeps the same connection, bound to the same channel. *)
Theorem now_playing_names_connection_channel e ev w w' fx :
  reachable w →
  step e ev w = Some (w', fx) →
  (∀ i g vc s,
     ev = Command i → accepted e i = Some (g, vc, s) → queues w !! g = None →
     joinVoiceChannel_ok e = true → openStream e (url s) = true →
     Play g (players_created w) s ∈ fx
     ∧ EditReply (token i) (NowPlaying (title s) (channel_id vc)) ∈ fx)
  ∧ (∀ g r q s0 s rest,
     ev = PlayerSignal Idle r →
     queues w !! g = Some r → heap w !! r = Some q →
     songs q = s0 :: s :: rest → openStream e (url s) = true →
     ∃ c l,
       connection q = Some c ∧ idle_listeners (player q) = [l]
       ∧ Play g (player_id (player q)) s ∈ fx
       ∧ EditReply (l_token l) (NowPlaying (title s) (joinConfig_channelId c)) ∈ fx)
  ∧ (∀ g pid s, Play g pid s ∈ fx →
     ∃ r q c tok,
       queues w' !! g = Some r ∧ heap w' !! r = Some q
       ∧ player_id (player q) = pid
       ∧ connection q = Some c ∧ destroyed c = false
       ∧ resource (player q) = Some s ∧ head (songs q) = Some s
       ∧ EditReply tok (NowPlaying (title s) (joinConfig_channelId c)) ∈ fx)
  ∧ (∀ tok t ch, EditReply tok (NowPlaying t ch) ∈ fx →
     ∃ g r q c s,
       queues w' !! g = Some r ∧ heap w' !! r = Some q
       ∧ connection q = Some c ∧ joinConfig_channelId c = ch
       ∧ resource (player q) = Some s ∧ title s = t
       ∧ Play g (player_id (player q)) s ∈ fx)
  ∧ (∀ g r q c,
       queues w !! g = Some r → heap w !! r = Some q → connection q = Some c →
       (∀ ch, JoinVoiceChannel ch g ∉ fx)
       ∧ (queues w' !! g = Some r ∨ queues w' !! g = None)
       ∧ ∃ q' c', heap w' !! r = Some q' ∧ connection q' = Some c'
                  ∧ connection_id c' = connection_id c
                  ∧ joinConfig_channelId c' = joinConfig_channelId c).
Proof.
  intros Hreach Hs. pose proof (reachable_Inv _ Hreach) as HI.
  pose proof (step_transition _ _ _ _ _ HI Hs) as HT.
  split; [|split; [|split; [|split]]].
  - intros i g vc s ->. apply (Transition_starts _ _ _ _ _ HI HT).
  - intros g r q s0 s rest ->. apply (Transition_starts _ _ _ _ _ HI HT).
  - intros g pid s Hin. apply (Transition_plays _ _ _ _ _ HI HT _ Hin).
  - intros tok t ch Hin. apply (Transition_plays _ _ _ _ _ HI HT _ Hin).
  - intros g r q c Hg Hr Hc. split; [|split].
    + intros ch Hin. pose proof (Transition_join_guild _ _ _ _ _ HT _ _ Hin).
      congruence.
    + by eapply Transition_queues.
    + destruct (Transition_wiring _ _ _ _ _ HT _ _ Hr) as (q' & Hr' & Hw).
      destruct Hw as (_ & _ & _ & Hw). rewrite Hc in Hw.
      destruct Hw as (c' & Hc' & Hid & Hch). by exists q', c'.
Qed.

(** While A plays in "lounge", B is requested for "stage" and queued; when
    A ends, B is started and announced in "lounge". *)
Lemma now_playing_names_connection_channel_witness :
  ∃ w' fx,
    step Scenario.sunny (PlayerSignal Idle 0) (Scenario.after Scenario.a_then_b)
    = Some (w', fx)
    ∧ option_channel (Scenario.request 2 "G" Scenario.stage "b")
      = Some Scenario.stage
    ∧ Play "G" 0 Scenario.songB ∈ fx
    ∧ EditReply 1 (NowPlaying "b" "lounge") ∈ fx.
Proof.
  destruct (step Scenario.sunny (PlayerSignal Idle 0)
              (Scenario.after Scenario.a_then_b)) as [[w' fx]|] eqn:Hs.
  - exists w', fx. split; [reflexivity|]. split; [reflexivity|].
    destruct (now_playing_names_connection_channel Scenario.sunny
                (PlayerSignal Idle 0) (Scenario.after Scenario.a_then_b) w' fx)
      as (_ & H & _).
    + apply reachable_after. vm_compute. eexists. reflexivity.
    + exact Hs.
    + destruct (H "G" 0
                  {| songs := [Scenario.songA; Scenario.songB];
                     player := {| player_id := 0; resource := Some Scenario.songA;
                                  error_listeners :=
                                    [{| l_token := 1; l_guild := "G"; l_queue := 0 |}];
                                  idle_listeners :=
                                    [{| l_token := 1; l_guild := "G"; l_queue := 0 |}] |};
                     connection := Some {| connection_id := 0;
                                           joinConfig_channelId := "lounge";
                                           joinConfig_guildId := "G";
                                           destroyed := false |} |}
                  Scenario.songA Scenario.songB [] eq_refl)
        as (c & l & Hc & Hl & Hplay & Hnote); try (vm_compute; reflexivity).
      inversion Hc; subst c. inversion Hl; subst l.
      split; [exact Hplay|exact Hnote].
  - vm_compute in Hs. discriminate Hs.
Defined.

(** In the scenario, B was requested for the channel "stage" while the
    connection of the guild is bound to "lounge": B is queued without a
    join, and when A ends, B is announced in "lounge", on the reply channel
    of the first request. *)
Example now_playing_keeps_first_channel :
  ∃ w1 fx1 w2 fx2,
    run Scenario.a_then_b init = Some (w1, fx1)
    ∧ joins fx1 = 1
    ∧ step Scenario.sunny (PlayerSignal Idle 0) w1 = Some (w2, fx2)
    ∧ fx2 = [Play "G" 0 Scenario.songB; Subscribe 0 0;
             EditReply 1 (NowPlaying "b" "lounge"); Log Info "Playing song"].
Proof.
  eexists _, _, _, _. split; [vm_compute; reflexivity|].
  split; [vm_compute; reflexivity|].
  split; vm_compute; reflexivity.
Qed.

(** ** The player of a queue *)

(** Claim C6, as stated, fails: the queue object that lines 115-124 create
    already holds a player, made by [createAudioPlayer()] in the object
    literal, before any connection is attempted; and when the join then
    fails a player has been made although no connection ever was. *)
Lemma player_made_before_connection :
  ¬ created_without_player "G" init
  ∧ ∃ w fx c,
      execute Scenario.unjoinable (Scenario.request 1 "G" Scenario.lounge "a") init
      = (w, fx, c)
      ∧ CreateAudioPlayer 0 ∈ fx
      ∧ players_created w = 1
      ∧ connections_created w = 0.
Proof.
  split.
  - unfold created_without_player. simpl. intros (_ & H & _). discriminate H.
  - eexists _, _, _. split; [vm_compute; reflexivity|].
    split; [|done]. in_journal.
Qed.

Lemma get_or_create_new g w :
  queues w !! g = None →
  get_or_create g w =
  (length (heap w),
   {| queues := <[g := length (heap w)]> (queues w);
      heap := heap w ++ [{| songs := [];
                            player := {| player_id := players_created w;
                                         resource := None;
                                         error_listeners := [];
                                         idle_listeners := [] |};
                            connection := None |}];
      players_created := S (players_created w);
      connections_created := connections_created w |},
   [CreateAudioPlayer (players_created w)]).
Proof. intros H. unfold get_or_create. by rewrite H. Qed.

(** Claim C6, amended. In a reachable store, the lookup of lines 115-124
    returns the queue of the guild if it has one, and otherwise allocates and
    registers a queue object with no songs, no connection, and a player made
    on the spot that no other queue object has, that plays nothing and has no
    listeners. There are as many players as queue objects, two queue objects
    never share a player, no step gives a queue object another player, and
    every song started in a step is started on the player of the queue of its
    guild. *)
Theorem player_made_with_queue e ev w w' fx g :
  reachable w →
  step e ev w = Some (w', fx) →
  match queues w !! g with
  | Some r => get_or_create g w = (r, w, [])
  | None =>
    ∃ w1 q,
      get_or_create g w
      = (length (heap w), w1, [CreateAudioPlayer (players_created w)])
      ∧ queues w1 = <[g := length (heap w)]> (queues w)
      ∧ heap w1 = heap w ++ [q]
      ∧ songs q = [] ∧ connection q = None
      ∧ resource (player q) = None
      ∧ error_listeners (player q) = [] ∧ idle_listeners (player q) = []
      ∧ ∀ r' q', heap w !! r' = Some q' →
          player_id (player q') ≠ player_id (player q)
  end
  ∧ players_created w = length (heap w)
  ∧ players_created w' = length (heap w')
  ∧ (∀ r1 r2 q1 q2, heap w' !! r1 = Some q1 → heap w' !! r2 = Some q2 →
       player_id (player q1) = player_id (player q2) → r1 = r2)
  ∧ (∀ r q, heap w !! r = Some q →
       ∃ q', heap w' !! r = Some q' ∧ player_id (player q') = player_id (player q))
  ∧ (∀ g' pid s, Play g' pid s ∈ fx →
       ∃ r q, queues w' !! g' = Some r ∧ heap w' !! r = Some q
              ∧ player_id (player q) = pid).
Proof.
  intros Hreach Hs. pose proof (reachable_Inv _ Hreach) as HI.
  pose proof (step_transition _ _ _ _ _ HI Hs) as HT.
  pose proof (Transition_Inv _ _ _ _ _ HI HT) as HI'.
  split; [|split; [|split; [|split; [|split]]]].
  - destruct (queues w !! g) as [r|] eqn:Hg.
    + unfold get_or_create. by rewrite Hg.
    + eexists _, _. split; [by apply get_or_create_new|].
      cbn. repeat split; try done.
      intros r' q' Hq'. rewrite (inv_player_id _ HI _ _ Hq'), (inv_players _ HI).
      apply lookup_lt_Some in Hq'. simpl. lia.
  - apply (inv_players _ HI).
  - apply (inv_players _ HI').
  - intros r1 r2 q1 q2 H1 H2.
    rewrite (inv_player_id _ HI' _ _ H1), (inv_player_id _ HI' _ _ H2). done.
  - intros r q Hr. destruct (Transition_wiring _ _ _ _ _ HT _ _ Hr) as (q' & Hr' & Hw).
    exists q'. split; [done|]. apply Hw.
  - intros g' pid s Hin.
    destruct (Transition_plays _ _ _ _ _ HI HT _ Hin)
      as (r & q & c & tok & H1 & H2 & H3 & _).
    by exists r, q.
Qed.

Lemma player_made_with_queue_witness :
  ∃ w' fx,
    step Scenario.sunny (PlayerSignal Idle 0) (Scenario.after Scenario.a_then_b)
    = Some (w', fx)
    ∧ players_created w' = length (heap w').
Proof.
  destruct (step Scenario.sunny (PlayerSignal Idle 0)
              (Scenario.after Scenario.a_then_b)) as [[w' fx]|] eqn:Hs.
  - exists w', fx. split; [reflexivity|].
    assert (reachable (Scenario.after Scenario.a_then_b)) as Hreach
      by (apply reachable_after; vm_compute; eexists; reflexivity).
    exact (proj1 (proj2 (proj2
      (player_made_with_queue Scenario.sunny (PlayerSignal Idle 0)
         (Scenario.after Scenario.a_then_b) w' fx "G" Hreach Hs)))).
  - vm_compute in Hs. discriminate Hs.
Defined.

(** ** Notifications that fail *)

Section Notify.

(** The fate [b] of the notifications is imposed on the environment [e]. *)
Variables (b : bool) (e : Env).









End Notify.




(** ** The scenario of the specification *)

(** A is requested, B is requested while A plays, A ends, B ends: A and B
    were requested and started in this order, one connection was made, and
    at the end the guild has no queue entry and the connection is
    destroyed. *)
Example a_then_b_scenario :
  ∃ w fx,
    run Scenario.a_b_played init = Some (w, fx)
    ∧ requests "G" Scenario.a_b_played = [Scenario.songA; Scenario.songB]
    ∧ played "G" fx = [Scenario.songA; Scenario.songB]
    ∧ joins fx = 1
    ∧ queues w !! "G" = None
    ∧ (destroyed <$> (heap w !! 0 ≫= connection)) = Some true.
Proof.
  eexists _, _. split; [vm_compute; reflexivity|].
  repeat split; vm_compute; reflexivity.
Qed.

(** * Further properties of the command *)

(** ** Guilds do not interfere *)

Lemma Transition_frame e ev w w' fx g :
  Inv w →
  Transition e w ev w' fx →
  ¬ concerns g ev w →
  queues w' !! g = queues w !! g
  ∧ (∀ r, queues w !! g = Some r → heap w' !! r = heap w !! r)
  ∧ played g fx = []
  ∧ (∀ ch, JoinVoiceChannel ch g ∉ fx).
Proof.
  intros HI HT Hno.
  assert (∀ g0 r0 r, g0 ≠ g → queues w !! g0 = Some r0 → queues w !! g = Some r →
                     r0 ≠ r) as Hsep.
  { intros g0 r0 r Hne H0 H1 ->. by apply Hne, (inv_inj _ HI _ _ r). }
  assert (∀ qn r, queues w !! g = Some r →
            (heap w ++ [qn]) !! r = heap w !! r) as Hold.
  { intros qn r Hr. destruct (inv_mapped _ HI _ _ Hr) as (q & Hq & _).
    by rewrite Hq, (heap_snoc_old _ _ _ _ Hq). }
  destruct HT as [i fx c Ha Hx Hsil | i g0 vc s Ha Hg Hj | i g0 vc s Ha Hg Hj
                 | i g0 vc s r q Ha Hg Hr
                 | g0 r q tok c s next rest Hg Hr Hres Hsongs Hc Hl
                 | g0 r q c s Hg Hr Hres Hsongs Hc
                 | g0 r q tok c s Hg Hr Hres Hc Hl ]; simpl in Hno.
  - repeat split; try done.
    + apply played_silent. intros x Hin. by apply refusal_voice, Hsil.
    + intros ch Hin. by apply Hsil in Hin.
  - assert (g0 ≠ g) as Hne by (intros ->; by apply Hno, (accepted_guild _ _ _ _ _ Ha)).
    split; [by apply lookup_insert_ne|]. split; [intros r' Hr'; cbn [heap]; by apply Hold|]. split.
    + rewrite !played_app, played_admitted. cbn [app].
      destruct (openStream e (url s)); [|apply played_song_failed].
      rewrite played_song_started. by rewrite decide_False.
    + intros ch Hin. unfold admitted_journal, song_started, song_failed, caught in Hin.
      destruct (openStream e (url s)), (notify_ok e); journal Hin; by simplify_eq.
  - assert (g0 ≠ g) as Hne by (intros ->; by apply Hno, (accepted_guild _ _ _ _ _ Ha)).
    split; [done|]. split; [intros r' Hr'; cbn [heap]; by apply Hold|]. split; [done|].
    intros ch Hin. unfold admitted_journal in Hin. journal Hin; by simplify_eq.
  - assert (g0 ≠ g) as Hne by (intros ->; by apply Hno, (accepted_guild _ _ _ _ _ Ha)).
    split; [done|]. split.
    { intros r' Hr'. apply store_lookup_ne. by eapply Hsep. }
    split.
    + by rewrite played_app, played_admitted, played_caught.
    + intros ch Hin. unfold admitted_journal, caught in Hin.
      destruct (notify_ok e); journal Hin; by simplify_eq.
  - assert (g0 ≠ g) as Hne by (intros ->; by apply Hno).
    split; [done|]. split.
    { intros r' Hr'. apply store_lookup_ne. by eapply Hsep. }
    split.
    + destruct (openStream e (url next)); [|apply played_song_failed].
      rewrite played_song_started. by rewrite decide_False.
    + intros ch Hin. unfold song_started, song_failed, caught in Hin.
      destruct (openStream e (url next)), (notify_ok e); journal Hin; by simplify_eq.
  - assert (g0 ≠ g) as Hne by (intros ->; by apply Hno).
    split; [by apply lookup_delete_ne|]. split.
    { intros r' Hr'. cbn [heap set_queues]. apply store_lookup_ne. by eapply Hsep. }
    split; [done|]. intros ch Hin. journal Hin; by simplify_eq.
  - assert (g0 ≠ g) as Hne by (intros ->; by apply Hno).
    split; [by apply lookup_delete_ne|]. split.
    { intros r' Hr'. cbn [heap set_queues]. apply store_lookup_ne. by eapply Hsep. }
    split.
    + rewrite played_cons, played_app, played_caught by done. done.
    + intros ch Hin. unfold caught in Hin.
      destruct (notify_ok e); journal Hin; by simplify_eq.
Qed.


(** A step that is neither a request made in guild [g] nor a signal of the
    player of [g] leaves the entry of [g] in [queues] and its queue object
    as they were, starts no song for [g] and does not join a channel of
    [g]. *)
Theorem guilds_are_independent e ev w w' fx g :
  reachable w →
  step e ev w = Some (w', fx) →
  ¬ concerns g ev w →
  queues w' !! g = queues w !! g
  ∧ (∀ r, queues w !! g = Some r → heap w' !! r = heap w !! r)
  ∧ played g fx = []
  ∧ (∀ ch, JoinVoiceChannel ch g ∉ fx).
Proof.
  intros Hreach Hs Hno. pose proof (reachable_Inv _ Hreach) as HI.
  eapply Transition_frame; [done| |done]. by apply step_transition.
Qed.

Lemma guilds_are_independent_witness :
  ∃ w' fx,
    step Scenario.sunny (Command (Scenario.request 3 "H" Scenario.stage "c"))
      (Scenario.after Scenario.a_then_b) = Some (w', fx)
    ∧ queues w' !! "G" = queues (Scenario.after Scenario.a_then_b) !! "G"
    ∧ played "G" fx = [].
Proof.
  destruct (step Scenario.sunny (Command (Scenario.request 3 "H" Scenario.stage "c"))
              (Scenario.after Scenario.a_then_b)) as [[w' fx]|] eqn:Hs.
  - exists w', fx. split; [reflexivity|].
    assert (reachable (Scenario.after Scenario.a_then_b)) as Hreach
      by (apply reachable_after; vm_compute; eexists; reflexivity).
    assert (¬ concerns "G" (Command (Scenario.request 3 "H" Scenario.stage "c"))
              (Scenario.after Scenario.a_then_b)) as Hno
      by (simpl; discriminate).
    destruct (guilds_are_independent _ _ _ _ _ "G" Hreach Hs Hno) as (H1 & _ & H3 & _).
    split; [exact H1 | exact H3].
  - vm_compute in Hs. discriminate Hs.
Defined.

(** ** A stream that cannot be opened *)

Lemma stalled_frame g w w' :
  stalled w g →
  queues w' !! g = queues w !! g →
  (∀ r, queues w !! g = Some r → heap w' !! r = heap w !! r) →
  stalled w' g
  ∧ ∃ r q q', queues w !! g = Some r ∧ queues w' !! g = Some r
              ∧ heap w !! r = Some q ∧ heap w' !! r = Some q'
              ∧ songs q `prefix_of` songs q'.
Proof.
  intros (r & q & Hg & Hr & Hres) Hq Hh. split.
  - exists r, q. rewrite Hq, (Hh _ Hg). done.
  - exists r, q, q. rewrite Hq, (Hh _ Hg). done.
Qed.

Lemma concerns_or_not g ev w : concerns g ev w ∨ ¬ concerns g ev w.
Proof.
  destruct ev as [i|sg r]; simpl.
  - destruct (decide (guild i = Some g)); auto.
  - destruct (decide (queues w !! g = Some r)); auto.
Qed.

Lemma stalled_step e ev w w' fx g :
  Inv w →
  stalled w g →
  Transition e w ev w' fx →
  stalled w' g
  ∧ played g fx = []
  ∧ ∃ r q q', queues w !! g = Some r ∧ queues w' !! g = Some r
              ∧ heap w !! r = Some q ∧ heap w' !! r = Some q'
              ∧ songs q `prefix_of` songs q'.
Proof.
  intros HI Hst HT.
  destruct (concerns_or_not g ev w) as [Hc|Hno].
  2:{ destruct (Transition_frame _ _ _ _ _ _ HI HT Hno) as (H1 & H2 & H3 & _).
      destruct (stalled_frame _ _ _ Hst H1 H2) as [H4 H5]. done. }
  destruct Hst as (r0 & q0 & Hg0 & Hr0 & Hres0).
  destruct HT as [i fx c Ha Hx Hsil | i g0 vc s Ha Hg Hj | i g0 vc s Ha Hg Hj
                 | i g0 vc s r q Ha Hg Hr
                 | g0 r q tok c s next rest Hg Hr Hres Hsongs Hcn Hl
                 | g0 r q c s Hg Hr Hres Hsongs Hcn
                 | g0 r q tok c s Hg Hr Hres Hcn Hl ]; simpl in Hc.
  - split; [by exists r0, q0|]. split.
    + apply played_silent. intros x Hin. by apply refusal_voice, Hsil.
    + by exists r0, q0, q0.
  - rewrite (accepted_guild _ _ _ _ _ Ha) in Hc. congruence.
  - rewrite (accepted_guild _ _ _ _ _ Ha) in Hc. congruence.
  - rewrite (accepted_guild _ _ _ _ _ Ha) in Hc. inversion Hc; subst g0.
    rewrite Hg in Hg0. inversion Hg0; subst r0.
    rewrite Hr in Hr0. inversion Hr0; subst q0.
    pose proof (store_lookup_eq r (set_songs (songs q ++ [s]) q) q w Hr) as Hnew.
    split; [by exists r, (set_songs (songs q ++ [s]) q)|]. split.
    + by rewrite played_app, played_admitted, played_caught.
    + exists r, q, (set_songs (songs q ++ [s]) q). repeat split; try done.
      simpl. by apply prefix_app_r.
  - congruence.
  - congruence.
  - congruence.
Qed.

Lemma stalled_run g evs : ∀ w w' fx,
  Inv w →
  stalled w g →
  run evs w = Some (w', fx) →
  stalled w' g
  ∧ played g fx = []
  ∧ ∃ r q q', queues w !! g = Some r ∧ queues w' !! g = Some r
              ∧ heap w !! r = Some q ∧ heap w' !! r = Some q'
              ∧ songs q `prefix_of` songs q'.
Proof.
  induction evs as [|[e ev] evs IH]; intros w w' fx HI Hst Hrun; simpl in Hrun.
  - inversion Hrun; subst. split; [done|]. split; [done|].
    destruct Hst as (r & q & Hg & Hr & _). by exists r, q, q.
  - destruct (step e ev w) as [[w1 fx1]|] eqn:Hs; [|done].
    destruct (run evs w1) as [[w2 fx2]|] eqn:Hr; [|done].
    inversion Hrun; subst.
    pose proof (step_transition _ _ _ _ _ HI Hs) as HT.
    destruct (stalled_step _ _ _ _ _ _ HI Hst HT)
      as (Hst1 & Hp1 & r & q & q1 & Hg & Hg1 & Hq & Hq1 & Hpre1).
    destruct (IH _ _ _ (Transition_Inv _ _ _ _ _ HI HT) Hst1 Hr)
      as (Hst2 & Hp2 & r' & q1' & q2 & Hg1' & Hg2 & Hq1' & Hq2 & Hpre2).
    split; [done|]. split; [by rewrite played_app, Hp1, Hp2|].
    rewrite Hg1 in Hg1'. inversion Hg1'; subst r'.
    rewrite Hq1 in Hq1'. inversion Hq1'; subst q1'.
    exists r, q, q2. repeat split; try done. by etrans.
Qed.

(** Once the queue of a guild has a player that plays nothing, it stays that
    way whatever happens next: the guild keeps the same queue object, its
    songs list only grows at the tail, and no song of the guild is ever
    started. *)
Theorem stalled_forever g evs w w' fx :
  reachable w →
  stalled w g →
  run evs w = Some (w', fx) →
  stalled w' g
  ∧ played g fx = []
  ∧ ∃ r q q', queues w !! g = Some r ∧ queues w' !! g = Some r
              ∧ heap w !! r = Some q ∧ heap w' !! r = Some q'
              ∧ songs q `prefix_of` songs q'.
Proof.
  intros Hreach Hst Hrun. eapply stalled_run; [|done|done]. by apply reachable_Inv.
Qed.

(** When the stream of the song to start cannot be opened (at the first
    request of a guild, or when the idle signal moves its queue on to the
    next song), the user is told that the song failed, nothing is started,
    the song stays at the head, the connection stays, and the queue is left
    with a player that plays nothing. *)
Theorem stream_failure_stalls e ev w w' fx g s :
  reachable w →
  step e ev w = Some (w', fx) →
  openStream e (url s) = false →
  match ev with
  | Command i =>
    ∃ vc, accepted e i = Some (g, vc, s) ∧ queues w !! g = None
          ∧ joinVoiceChannel_ok e = true
  | PlayerSignal Idle r =>
    queues w !! g = Some r
    ∧ ∃ q s0 rest, heap w !! r = Some q ∧ songs q = s0 :: s :: rest
  | PlayerSignal Failure _ => False
  end →
  stalled w' g
  ∧ connected w' g
  ∧ head (songs_of w' g) = Some s
  ∧ played g fx = []
  ∧ ∃ tok, FollowUp tok SongFailed ∈ fx.
Proof.
  intros Hreach Hs Ho Hev. pose proof (reachable_Inv _ Hreach) as HI.
  pose proof (step_Inv _ _ _ _ _ HI Hs) as HI'.
  destruct ev as [i|[] r]; [| |done].
  - destruct Hev as (vc & Ha & Hg & Hj). simpl in Hs.
    rewrite (execute_accepted _ _ _ _ _ _ Ha), (enqueue_first _ _ _ _ _ _ Hg Hj) in Hs.
    inversion Hs; subst w' fx. clear Hs. rewrite Ho in *.
    assert (queues {| queues := <[g := length (heap w)]> (queues w);
                      heap := heap w ++ [first_queue e (token i) g vc s w];
                      players_created := S (players_created w);
                      connections_created := S (connections_created w) |} !! g
            = Some (length (heap w))) as Hg' by apply lookup_insert_eq.
    split.
    { eexists _, _. split; [exact Hg'|]. split; [apply heap_snoc_lookup|].
      unfold first_queue. simpl. by rewrite Ho. }
    split; [by eapply connected_mapped|].
    split.
    { unfold songs_of. rewrite Hg'. cbn [heap]. by rewrite heap_snoc_lookup. }
    split.
    { unfold admitted_journal, song_failed, caught. by destruct (notify_ok e). }
    exists (token i). unfold admitted_journal, song_failed, caught. in_journal.
  - destruct Hev as (Hg & q & s0 & rest & Hr & Hsongs).
    destruct (inv_mapped _ HI _ _ Hg) as (q' & Hr' & Hok).
    rewrite Hr in Hr'. inversion Hr'; subst q'.
    destruct (ok_connection _ _ _ Hok) as (c & Hc & Hd).
    destruct (ok_listeners _ _ _ Hok) as (tok & _ & Hil).
    destruct (emit_playing _ _ _ _ _ _ Hs) as (q' & s1 & Hr'' & Hres).
    rewrite Hr in Hr''. inversion Hr''; subst q'.
    pose proof (ok_resource _ _ _ Hok _ Hres) as Hhead.
    rewrite Hsongs in Hhead. inversion Hhead; subst s1.
    simpl in Hs.
    rewrite (emit_advance _ _ _ _ _ _ _ _ _ _ Hr Hres Hsongs Hc Hil) in Hs.
    inversion Hs; subst w' fx. clear Hs. rewrite Ho in *.
    pose proof (store_lookup_eq r (advanced e s rest q) q w Hr) as Hnew.
    split.
    { exists r, (advanced e s rest q). repeat split; try done. simpl. by rewrite Ho. }
    split; [by eapply connected_mapped|].
    split.
    { unfold songs_of. cbn [queues store set_heap]. rewrite Hg.
      cbn [queues store set_heap] in Hnew. by rewrite Hnew. }
    split; [apply played_song_failed|].
    exists tok. unfold song_failed, caught. in_journal.
Qed.

Lemma stalled_forever_witness :
  ∃ w' fx,
    run Stall.then_b (Scenario.after Stall.a_fails) = Some (w', fx)
    ∧ stalled w' "G"
    ∧ played "G" fx = [].
Proof.
  destruct (run Stall.then_b (Scenario.after Stall.a_fails)) as [[w' fx]|] eqn:Hrun.
  - exists w', fx. split; [reflexivity|].
    assert (reachable (Scenario.after Stall.a_fails)) as Hreach
      by (apply reachable_after; vm_compute; eexists; reflexivity).
    assert (stalled (Scenario.after Stall.a_fails) "G") as Hst.
    { eexists 0, _. split; [vm_compute; reflexivity|].
      split; [vm_compute; reflexivity|]. reflexivity. }
    destruct (stalled_forever "G" _ _ _ _ Hreach Hst Hrun) as (H1 & H2 & _).
    split; [exact H1 | exact H2].
  - vm_compute in Hrun. discriminate Hrun.
Defined.

Lemma stream_failure_stalls_witness :
  ∃ w' fx,
    step Stall.streamless (Command (Scenario.request 1 "G" Scenario.lounge "a")) init
    = Some (w', fx)
    ∧ stalled w' "G"
    ∧ connected w' "G"
    ∧ head (songs_of w' "G") = Some Scenario.songA
    ∧ played "G" fx = []
    ∧ ∃ tok, FollowUp tok SongFailed ∈ fx.
Proof.
  destruct (step Stall.streamless
              (Command (Scenario.request 1 "G" Scenario.lounge "a")) init)
    as [[w' fx]|] eqn:Hs.
  - exists w', fx. split; [reflexivity|].
    apply (stream_failure_stalls Stall.streamless
             (Command (Scenario.request 1 "G" Scenario.lounge "a"))
             init w' fx "G" Scenario.songA).
    + apply reachable_init.
    + exact Hs.
    + reflexivity.
    + exists Scenario.lounge. split; [reflexivity|]. split; reflexivity.
  - vm_compute in Hs. discriminate Hs.
Defined.

(** ** The answers a request gets *)

Lemma accepted_not_failed e i g vc s :
  accepted e i = Some (g, vc, s) → deferral_failed e i = false.
Proof.
  unfold accepted, deferral_failed. destruct (guild i); [|done].
  destruct (option_channel i); [|done].
  destruct (deferReply_ok e); [by rewrite andb_false_r|].
  by rewrite !andb_false_r.
Qed.

Lemma execute_rejected_answers e i w :
  accepted e i = None →
  (if deferral_failed e i then answers (execute e i w).1.2 = []
   else ∃ m, answers (execute e i w).1.2 = [(token i, m)])
  ∧ ((∃ m, Reply (token i) m ∈ (execute e i w).1.2)
     ↔ DeferReply (token i) ∉ (execute e i w).1.2).
Proof.
  unfold accepted, deferral_failed, admitted, execute.
  cbn [deferReply_ok with_deferReply].
  destruct (guild i) as [g|]; simpl.
  2:{ intros _. split; [by eexists|]. split.
      - intros _ Hin. journal Hin.
      - intros _. eexists. in_journal. }
  destruct (option_channel i) as [vc|]; simpl.
  2:{ intros _. split; [by eexists|]. split.
      - intros _ Hin. journal Hin.
      - intros _. eexists. in_journal. }
  destruct (is_GuildVoice (channel_type vc)); simpl.
  2:{ intros _. split; [by eexists|]. split.
      - intros _ Hin. journal Hin.
      - intros _. eexists. in_journal. }
  destruct (can_connect vc && can_speak vc); simpl.
  2:{ intros _. split; [by eexists|]. split.
      - intros _ Hin. journal Hin.
      - intros _. eexists. in_journal. }
  rewrite ?bool_decide_eq_true_2 by (by eexists).
  destruct (deferReply_ok e); simpl.
  2:{ intros _. split; [done|]. split.
      - intros [m Hin]. journal Hin.
      - intros Hn. destruct Hn. in_journal. }
  destruct (validateURL e (option_query i)); simpl.
  2:{ intros _. split; [by eexists|]. split.
      - intros [m Hin]. journal Hin.
      - intros Hn. destruct Hn. in_journal. }
  destruct (getInfo e (option_query i)); [done|]. intros _. simpl.
  unfold caught. destruct (notify_ok e); (split; [by eexists|]); split.
  all: first [ by (intros [m Hin]; journal Hin)
             | by (intros Hn; destruct Hn; in_journal) ].
Qed.

(** Every request gets exactly one message, on its own reply channel,
    unless it reached [deferReply] and that failed, in which case it gets
    none. The message is a [reply] exactly when the request was not
    deferred: [reply] and [deferReply] are never both used. *)
Theorem one_answer_per_command e i w w' fx c :
  reachable w →
  execute e i w = (w', fx, c) →
  (if deferral_failed e i then answers fx = []
   else ∃ m, answers fx = [(token i, m)])
  ∧ ((∃ m, Reply (token i) m ∈ fx) ↔ DeferReply (token i) ∉ fx).
Proof.
  intros Hreach Hx. pose proof (reachable_Inv _ Hreach) as HI.
  destruct (accepted e i) as [[[g vc] s]|] eqn:Ha.
  2:{ pose proof (execute_rejected_answers e i w Ha) as H. by rewrite Hx in H. }
  rewrite (accepted_not_failed _ _ _ _ _ Ha).
  assert (∀ fx2, (∀ m, Reply (token i) m ∉ fx2) →
            (∃ m, Reply (token i) m ∈ admitted_journal (token i) ++ fx2)
            ↔ DeferReply (token i) ∉ admitted_journal (token i) ++ fx2) as Hdef.
  { intros fx2 Hno. split.
    - intros [m Hin]. apply elem_of_app in Hin as [Hin|Hin]; [|by apply Hno in Hin].
      unfold admitted_journal in Hin. journal Hin.
    - intros Hn. destruct Hn. unfold admitted_journal. in_journal. }
  rewrite (execute_accepted _ _ _ _ _ _ Ha) in Hx.
  destruct (queues w !! g) as [r|] eqn:Hg.
  - destruct (inv_mapped _ HI _ _ Hg) as (q & Hr & Hok).
    destruct (ok_connection _ _ _ Hok) as (c0 & Hc0 & _).
    rewrite (enqueue_queued _ _ _ _ _ _ _ _ _ Hg Hr Hc0 (ok_songs _ _ _ Hok)) in Hx.
    inversion Hx; subst. split.
    + unfold admitted_journal, caught. destruct (notify_ok e); by eexists.
    + apply Hdef. intros m Hin. unfold caught in Hin.
      destruct (notify_ok e); journal Hin.
  - destruct (joinVoiceChannel_ok e) eqn:Hj.
    + rewrite (enqueue_first _ _ _ _ _ _ Hg Hj) in Hx. inversion Hx; subst. split.
      * unfold admitted_journal, song_started, song_failed, caught.
        destruct (openStream e (url s)), (notify_ok e); by eexists.
      * apply Hdef. intros m Hin. unfold song_started, song_failed, caught in Hin.
        destruct (openStream e (url s)), (notify_ok e); journal Hin.
    + rewrite (enqueue_abandoned _ _ _ _ _ _ Hg Hj) in Hx. inversion Hx; subst. split.
      * by eexists.
      * apply Hdef. intros m Hin. journal Hin.
Qed.

Lemma one_answer_per_command_witness :
  ∃ w' fx c,
    execute Scenario.sunny (Scenario.request 2 "G" Scenario.stage "b")
      (Scenario.after Scenario.a_then_b) = (w', fx, c)
    ∧ (∃ m, answers fx = [(2, m)])
    ∧ ((∃ m, Reply 2 m ∈ fx) ↔ DeferReply 2 ∉ fx).
Proof.
  destruct (execute Scenario.sunny (Scenario.request 2 "G" Scenario.stage "b")
              (Scenario.after Scenario.a_then_b)) as [[w' fx] c] eqn:Hx.
  exists w', fx, c. split; [reflexivity|].
  apply (one_answer_per_command Scenario.sunny
           (Scenario.request 2 "G" Scenario.stage "b")
           (Scenario.after Scenario.a_then_b) w' fx c).
  - apply reachable_after. vm_compute. eexists. reflexivity.
  - exact Hx.
Defined.

(** ** How a call of the command ends *)

Lemma enqueue_completion e tok g vc s w :
  (enqueue e tok g vc s w).2 = Normal ∨ (enqueue e tok g vc s w).2 = returned e.
Proof.
  unfold enqueue. destruct (get_or_create g w) as [[r w1] fx1].
  destruct (heap w1 !! r) as [q|]; [|by left].
  destruct (connection _).
  - destruct (play_or_announce _ _ _ _ _ _). by left.
  - destruct (joinVoiceChannel_ok e); [|by right].
    destruct (play_or_announce _ _ _ _ _ _). by left.
Qed.

(** A call of [execute] whose messages are delivered never fails, whatever
    the store; and in a reachable store a call that fails has enqueued
    nothing: [queues] and the songs of every guild are what they were. *)
Theorem failure_only_from_undelivered_reply e i w :
  (notify_ok e = true → (execute e i w).2 = Normal)
  ∧ (reachable w → (execute e i w).2 = Abrupt →
     notify_ok e = false
     ∧ queues (execute e i w).1.1 = queues w
     ∧ ∀ g, songs_of (execute e i w).1.1 g = songs_of w g).
Proof.
  assert (notify_ok e = true → (execute e i w).2 = Normal) as H1.
  { intros Hn. destruct (accepted e i) as [[[g vc] s]|] eqn:Ha.
    - rewrite (execute_accepted _ _ _ _ _ _ Ha).
      pose proof (enqueue_completion e (token i) g vc s w) as Hc.
      destruct (enqueue e (token i) g vc s w) as [[w1 fx1] c1]. simpl in *.
      unfold returned in Hc. rewrite Hn in Hc. by destruct Hc.
    - revert Ha. unfold accepted, execute, returned. rewrite Hn.
      destruct (guild i); [|done]. destruct (option_channel i) as [vc|]; [|done].
      destruct (is_GuildVoice (channel_type vc)); [|done].
      destruct (can_connect vc && can_speak vc); [|done].
      destruct (deferReply_ok e); [|done].
      destruct (validateURL e (option_query i)); [|done]. simpl.
      by destruct (getInfo e (option_query i)). }
  split; [done|]. intros Hreach Hab.
  assert (notify_ok e = false) as Hn.
  { destruct (notify_ok e); [|done]. rewrite H1 in Hab; done. }
  split; [done|]. pose proof (reachable_Inv _ Hreach) as HI.
  destruct (accepted e i) as [[[g vc] s]|] eqn:Ha.
  2:{ destruct (execute_rejected e i w Ha) as (fx & c & Hx & _). by rewrite Hx. }
  rewrite (execute_accepted _ _ _ _ _ _ Ha) in *.
  destruct (queues w !! g) as [r|] eqn:Hg.
  - destruct (inv_mapped _ HI _ _ Hg) as (q & Hr & Hok).
    destruct (ok_connection _ _ _ Hok) as (c0 & Hc0 & _).
    rewrite (enqueue_queued _ _ _ _ _ _ _ _ _ Hg Hr Hc0 (ok_songs _ _ _ Hok)) in *.
    done.
  - destruct (joinVoiceChannel_ok e) eqn:Hj.
    + rewrite (enqueue_first _ _ _ _ _ _ Hg Hj) in *. done.
    + rewrite (enqueue_abandoned _ _ _ _ _ _ Hg Hj) in *. cbn [fst snd queues].
      split; [done|]. intros g'. unfold songs_of. cbn [queues heap].
      destruct (queues w !! g') as [r|] eqn:Hg'; [|done].
      destruct (inv_mapped _ HI _ _ Hg') as (q & Hr & _).
      by rewrite Hr, (heap_snoc_old _ _ _ _ Hr).
Qed.

Lemma failure_only_from_undelivered_reply_witness :
  (execute Scenario.sunny (Scenario.request 2 "G" Scenario.stage "b")
     (Scenario.after Scenario.a_then_b)).2 = Normal.
Proof.
  apply (proj1 (failure_only_from_undelivered_reply Scenario.sunny
                  (Scenario.request 2 "G" Scenario.stage "b")
                  (Scenario.after Scenario.a_then_b))).
  reflexivity.
Defined.

(** ** Whose reply channel a message goes to *)

(** Every message sent while a request is handled goes to the reply channel
    of that request. Every message sent while a player signal is handled
    (the notice for the next song, or the report of a failure) goes to the
    reply channel captured by the listeners of that player; and the
    listeners registered by the first request of a guild capture the reply
    channel of that request, its guild and its queue object. No step
    changes the listeners of a queue object that exists. *)
Theorem messages_go_to_the_first_request e ev w w' fx :
  reachable w →
  step e ev w = Some (w', fx) →
  (∀ tok m, (tok, m) ∈ answers fx →
     match ev with
     | Command i => tok = token i
     | PlayerSignal _ r =>
       ∃ q l, heap w !! r = Some q
              ∧ error_listeners (player q) = [l] ∧ idle_listeners (player q) = [l]
              ∧ l_token l = tok
     end)
  ∧ (∀ i, ev = Command i → first_enqueue e ev w = true →
       ∃ g r q,
         guild i = Some g ∧ queues w' !! g = Some r ∧ heap w' !! r = Some q
         ∧ error_listeners (player q)
           = [{| l_token := token i; l_guild := g; l_queue := r |}]
         ∧ idle_listeners (player q)
           = [{| l_token := token i; l_guild := g; l_queue := r |}])
  ∧ (∀ r q, heap w !! r = Some q →
       ∃ q', heap w' !! r = Some q'
             ∧ error_listeners (player q') = error_listeners (player q)
             ∧ idle_listeners (player q') = idle_listeners (player q)).
Proof.
  intros Hreach Hs. pose proof (reachable_Inv _ Hreach) as HI.
  pose proof (step_transition _ _ _ _ _ HI Hs) as HT. split; [|split].
  3: { intros r q Hr.
       destruct (Transition_wiring _ _ _ _ _ HT _ _ Hr) as (q' & Hr' & Hw).
       destruct Hw as (_ & He & Hi & _). by exists q'. }
  - intros tok m Hin.
    destruct HT as [i fx c Ha Hx Hsil | i g vc s Ha Hg Hj | i g vc s Ha Hg Hj
                   | i g vc s r q Ha Hg Hr
                   | g r q tok0 c s next rest Hg Hr Hres Hsongs Hc Hl
                   | g r q c s Hg Hr Hres Hsongs Hc
                   | g r q tok0 c s Hg Hr Hres Hc Hl ].
    + destruct (execute_rejected_answers e i w Ha) as [H _]. rewrite Hx in H.
      simpl in H. destruct (deferral_failed e i).
      * rewrite H in Hin. by apply elem_of_nil in Hin.
      * destruct H as [m' H]. rewrite H in Hin. journal Hin. by simplify_eq.
    + unfold admitted_journal, song_started, song_failed, caught in Hin.
      destruct (openStream e (url s)), (notify_ok e); simpl in Hin;
        journal Hin; by simplify_eq.
    + simpl in Hin. journal Hin. by simplify_eq.
    + unfold admitted_journal, caught in Hin.
      destruct (notify_ok e); simpl in Hin; journal Hin; by simplify_eq.
    + destruct (inv_mapped _ HI _ _ Hg) as (q' & Hr' & Hok).
      rewrite Hr in Hr'. inversion Hr'; subst q'.
      destruct (ok_listeners _ _ _ Hok) as (tok1 & Hel & Hil).
      rewrite Hl in Hil. inversion Hil; subst tok1.
      exists q, {| l_token := tok0; l_guild := g; l_queue := r |}.
      repeat split; try done.
      unfold song_started, song_failed, caught in Hin.
      destruct (openStream e (url next)), (notify_ok e); simpl in Hin;
        journal Hin; by simplify_eq.
    + simpl in Hin. by apply elem_of_nil in Hin.
    + destruct (inv_mapped _ HI _ _ Hg) as (q' & Hr' & Hok).
      rewrite Hr in Hr'. inversion Hr'; subst q'.
      destruct (ok_listeners _ _ _ Hok) as (tok1 & Hel & Hil).
      rewrite Hl in Hel. inversion Hel; subst tok1.
      exists q, {| l_token := tok0; l_guild := g; l_queue := r |}.
      repeat split; try done.
      unfold caught in Hin. destruct (notify_ok e); simpl in Hin;
        journal Hin; by simplify_eq.
  - intros i -> Hfirst. unfold first_enqueue, join_attempt in Hfirst.
    destruct (accepted e i) as [[[g vc] s]|] eqn:Ha; [|done].
    apply andb_true_iff in Hfirst as [Hg Hj]. apply bool_decide_eq_true in Hg.
    simpl in Hs.
    rewrite (execute_accepted _ _ _ _ _ _ Ha), (enqueue_first _ _ _ _ _ _ Hg Hj) in Hs.
    inversion Hs; subst w' fx.
    exists g, (length (heap w)), (first_queue e (token i) g vc s w).
    split; [by eapply accepted_guild|]. cbn [queues heap].
    split; [apply lookup_insert_eq|]. split; [apply heap_snoc_lookup|]. done.
Qed.

Lemma messages_go_to_the_first_request_witness :
  ∃ w' fx,
    step Scenario.sunny (PlayerSignal Idle 0) (Scenario.after Scenario.a_then_b)
    = Some (w', fx)
    ∧ ∀ tok m, (tok, m) ∈ answers fx →
        ∃ q l, heap (Scenario.after Scenario.a_then_b) !! 0 = Some q
               ∧ error_listeners (player q) = [l]
               ∧ idle_listeners (player q) = [l]
               ∧ l_token l = tok.
Proof.
  destruct (step Scenario.sunny (PlayerSignal Idle 0)
              (Scenario.after Scenario.a_then_b)) as [[w' fx]|] eqn:Hs.
  - exists w', fx. split; [reflexivity|].
    assert (reachable (Scenario.after Scenario.a_then_b)) as Hreach
      by (apply reachable_after; vm_compute; eexists; reflexivity).
    exact (proj1 (messages_go_to_the_first_request Scenario.sunny
                    (PlayerSignal Idle 0) (Scenario.after Scenario.a_then_b)
                    w' fx Hreach Hs)).
  - vm_compute in Hs. discriminate Hs.
Defined.

(** ** How a songs list changes *)

(** A step allocates at most one queue object and removes none. The songs
    list of a queue object changes in three ways only: a request that passed
    every check appends its song at the tail of the queue of its guild, the
    idle signal of its player drops the head, and the error signal of its
    player empties it. *)
Theorem songs_change_by_push_shift_clear e ev w w' fx :
  reachable w →
  step e ev w = Some (w', fx) →
  (length (heap w) ≤ length (heap w') ≤ S (length (heap w)))%nat
  ∧ ∀ r q, heap w !! r = Some q →
      ∃ q', heap w' !! r = Some q'
            ∧ match ev with
              | Command i =>
                songs q' = songs q
                ∨ ∃ g vc s, accepted e i = Some (g, vc, s)
                            ∧ queues w !! g = Some r
                            ∧ songs q' = songs q ++ [s]
              | PlayerSignal Idle r0 =>
                if decide (r = r0) then songs q' = tail (songs q)
                else songs q' = songs q
              | PlayerSignal Failure r0 =>
                if decide (r = r0) then songs q' = [] else songs q' = songs q
              end.
Proof.
  intros Hreach Hs. pose proof (reachable_Inv _ Hreach) as HI.
  pose proof (step_transition _ _ _ _ _ HI Hs) as HT.
  destruct HT as [i fx c Ha Hx Hsil | i g vc s Ha Hg Hj | i g vc s Ha Hg Hj
                 | i g vc s r q Ha Hg Hr
                 | g r q tok0 c s next rest Hg Hr Hres Hsongs Hc Hl
                 | g r q c s Hg Hr Hres Hsongs Hc
                 | g r q tok0 c s Hg Hr Hres Hc Hl ];
    cbn [heap store set_heap set_queues]; rewrite ?length_app, ?length_insert;
    (split; [simpl; lia|]); intros r1 q1 H1.
  - exists q1. split; [done|by left].
  - exists q1. split; [by apply heap_snoc_old|by left].
  - exists q1. split; [by apply heap_snoc_old|by left].
  - destruct (decide (r = r1)) as [<-|Hne].
    + rewrite Hr in H1. inversion H1; subst q1.
      exists (set_songs (songs q ++ [s]) q).
      split; [by apply list_lookup_insert_eq, (lookup_lt_Some _ _ q)|].
      right. by exists g, vc, s.
    + exists q1. split; [by rewrite list_lookup_insert_ne|by left].
  - destruct (decide (r1 = r)) as [->|Hne].
    + rewrite Hr in H1. inversion H1; subst q1.
      exists (advanced e next rest q).
      split; [by apply list_lookup_insert_eq, (lookup_lt_Some _ _ q)|].
      simpl. by rewrite Hsongs.
    + exists q1. split; [by rewrite list_lookup_insert_ne|done].
  - destruct (decide (r1 = r)) as [->|Hne].
    + rewrite Hr in H1. inversion H1; subst q1.
      exists (torn_down c q).
      split; [by apply list_lookup_insert_eq, (lookup_lt_Some _ _ q)|].
      simpl. by rewrite Hsongs.
    + exists q1. split; [by rewrite list_lookup_insert_ne|done].
  - destruct (decide (r1 = r)) as [->|Hne].
    + rewrite Hr in H1. inversion H1; subst q1.
      exists (torn_down c q).
      split; [by apply list_lookup_insert_eq, (lookup_lt_Some _ _ q)|done].
    + exists q1. split; [by rewrite list_lookup_insert_ne|done].
Qed.

Lemma songs_change_by_push_shift_clear_witness :
  ∃ w' fx,
    step Scenario.sunny (PlayerSignal Idle 0) (Scenario.after Scenario.a_then_b)
    = Some (w', fx)
    ∧ (length (heap (Scenario.after Scenario.a_then_b)) ≤ length (heap w')
       ≤ S (length (heap (Scenario.after Scenario.a_then_b))))%nat.
Proof.
  destruct (step Scenario.sunny (PlayerSignal Idle 0)
              (Scenario.after Scenario.a_then_b)) as [[w' fx]|] eqn:Hs.
  - exists w', fx. split; [reflexivity|].
    assert (reachable (Scenario.after Scenario.a_then_b)) as Hreach
      by (apply reachable_after; vm_compute; eexists; reflexivity).
    exact (proj1 (songs_change_by_push_shift_clear Scenario.sunny
                    (PlayerSignal Idle 0) (Scenario.after Scenario.a_then_b)
                    w' fx Hreach Hs)).
  - vm_compute in Hs. discriminate Hs.
Defined.

(** ** Connections are destroyed once *)

Lemma destroys_app cid fx1 fx2 :
  destroys cid (fx1 ++ fx2) = destroys cid fx1 + destroys cid fx2.
Proof.
  induction fx1 as [|x fx1 IH]; [done|]. simpl. destruct x; simpl; rewrite ?IH; lia.
Qed.

Lemma destroys_silent cid fx :
  (∀ x, x ∈ fx → voice x = false) → destroys cid fx = 0.
Proof.
  induction fx as [|x fx IH]; intros H; [done|].
  assert (voice x = false) as Hx by (apply H; by left).
  simpl. rewrite IH; [by destruct x|]. intros y Hy. apply H. by right.
Qed.

Lemma destroys_elem cid fx : Destroy cid ∈ fx ↔ 0 < destroys cid fx.
Proof.
  induction fx as [|x fx IH].
  - simpl. split; [by intros ?%elem_of_nil | lia].
  - rewrite elem_of_cons, IH. destruct x; simpl;
      try (split; [intros [H|H]; [discriminate|done] | by right]).
    destruct (decide (cid0 = cid)) as [->|Hne]; simpl.
    + split; [lia | by left].
    + split; [intros [H|H]; [congruence|done] | by right].
Qed.

(** The queue objects after a step: the ones that existed, with the same
    wiring and with a connection that stays destroyed if it was, and at most
    one new one, whose connection if any is the one just created. *)
Lemma Transition_heap e ev w w' fx :
  Transition e w ev w' fx →
  ∀ r q', heap w' !! r = Some q' →
    (∃ q, heap w !! r = Some q ∧ same_wiring q q'
          ∧ ∀ c c', connection q = Some c → connection q' = Some c' →
                    destroyed c = true → destroyed c' = true)
    ∨ (r = length (heap w)
       ∧ ∀ c', connection q' = Some c' → connection_id c' = connections_created w).
Proof.
  intros HT r1 q1 H1.
  assert (∀ q, same_wiring q q ∧
               ∀ c c', connection q = Some c → connection q = Some c' →
                       destroyed c = true → destroyed c' = true) as Hsame.
  { intros q. split; [apply same_wiring_refl|]. intros c c' Hc Hc'. congruence. }
  destruct HT as [i fx c Ha Hx Hsil | i g vc s Ha Hg Hj | i g vc s Ha Hg Hj
                 | i g vc s r q Ha Hg Hr
                 | g r q tok0 c s next rest Hg Hr Hres Hsongs Hc Hl
                 | g r q c s Hg Hr Hres Hsongs Hc
                 | g r q tok0 c s Hg Hr Hres Hc Hl ];
    cbn [heap store set_heap set_queues] in H1.
  - left. exists q1. split; [done|apply Hsame].
  - destruct (heap_snoc_inv _ _ _ _ H1) as [[-> ->]|Hold].
    + right. split; [done|]. simpl. by intros c' [= <-].
    + left. exists q1. split; [done|apply Hsame].
  - destruct (heap_snoc_inv _ _ _ _ H1) as [[-> ->]|Hold].
    + right. split; [done|]. simpl. by intros c'.
    + left. exists q1. split; [done|apply Hsame].
  - left. destruct (store_lookup_inv r _ q w r1 q1 Hr H1) as [[-> ->]|[_ Hold]].
    + exists q. split; [done|]. split; [apply set_songs_wiring|].
      simpl. intros c c' Hc Hc'. congruence.
    + exists q1. split; [done|apply Hsame].
  - left. destruct (store_lookup_inv r _ q w r1 q1 Hr H1) as [[-> ->]|[_ Hold]].
    + exists q. split; [done|]. split; [apply advanced_wiring|].
      simpl. intros c1 c' Hc1 Hc'. congruence.
    + exists q1. split; [done|apply Hsame].
  - left. destruct (store_lookup_inv r _ q w r1 q1 Hr H1) as [[-> ->]|[_ Hold]].
    + exists q. split; [done|]. split; [by apply torn_down_wiring|].
      simpl. by intros c1 c' _ [= <-].
    + exists q1. split; [done|apply Hsame].
  - left. destruct (store_lookup_inv r _ q w r1 q1 Hr H1) as [[-> ->]|[_ Hold]].
    + exists q. split; [done|]. split; [by apply torn_down_wiring|].
      simpl. by intros c1 c' _ [= <-].
    + exists q1. split; [done|apply Hsame].
Qed.

Lemma wiring_connection q q' c' :
  same_wiring q q' → connection q' = Some c' →
  ∃ c, connection q = Some c ∧ connection_id c = connection_id c'.
Proof.
  intros (_ & _ & _ & Hw) Hc'. destruct (connection q) as [c|].
  - destruct Hw as (c'' & Hc'' & Hid & _). exists c. split; [done|]. congruence.
  - congruence.
Qed.

Lemma Transition_distinct e ev w w' fx :
  Inv w → distinct_connections w → Transition e w ev w' fx →
  distinct_connections w'.
Proof.
  intros HI Hd HT r1 r2 q1 q2 c1 c2 H1 H2 Hc1 Hc2 Hid.
  destruct (Transition_heap _ _ _ _ _ HT _ _ H1) as [(p1 & Hp1 & Hw1 & _)|[-> Hn1]];
    destruct (Transition_heap _ _ _ _ _ HT _ _ H2) as [(p2 & Hp2 & Hw2 & _)|[-> Hn2]].
  - destruct (wiring_connection _ _ _ Hw1 Hc1) as (d1 & Hd1 & Hi1).
    destruct (wiring_connection _ _ _ Hw2 Hc2) as (d2 & Hd2 & Hi2).
    eapply Hd; [exact Hp1|exact Hp2|exact Hd1|exact Hd2|congruence].
  - destruct (wiring_connection _ _ _ Hw1 Hc1) as (d1 & Hd1 & Hi1).
    pose proof (inv_connections _ HI _ _ _ Hp1 Hd1).
    pose proof (Hn2 _ Hc2). lia.
  - destruct (wiring_connection _ _ _ Hw2 Hc2) as (d2 & Hd2 & Hi2).
    pose proof (inv_connections _ HI _ _ _ Hp2 Hd2).
    pose proof (Hn1 _ Hc1). lia.
  - done.
Qed.

Lemma distinct_init : distinct_connections init.
Proof. intros r1 r2 q1 q2 c1 c2 H1. done. Qed.

Lemma run_distinct evs : ∀ w w' fx,
  Inv w → distinct_connections w → run evs w = Some (w', fx) →
  distinct_connections w'.
Proof.
  induction evs as [|[e ev] evs IH]; intros w w' fx HI Hd Hrun; simpl in Hrun.
  - by inversion Hrun; subst.
  - destruct (step e ev w) as [[w1 fx1]|] eqn:Hs; [|done].
    destruct (run evs w1) as [[w2 fx2]|] eqn:Hr; [|done].
    inversion Hrun; subst.
    pose proof (step_transition _ _ _ _ _ HI Hs) as HT.
    eapply IH; [by eapply Transition_Inv|by eapply Transition_distinct|done].
Qed.

Lemma reachable_distinct w : reachable w → distinct_connections w.
Proof.
  intros (evs & fx & Hrun). eapply run_distinct; [apply Inv_init|apply distinct_init|done].
Qed.

Lemma live_bound w cid : Inv w → live w cid → cid < connections_created w.
Proof.
  intros HI (r & q & c & Hr & Hc & <- & _). by eapply (inv_connections _ HI).
Qed.

(** A connection that is not live and was created stays that way. *)
Lemma Transition_dead e ev w w' fx cid :
  Transition e w ev w' fx →
  cid < connections_created w → ¬ live w cid → ¬ live w' cid.
Proof.
  intros HT Hlt Hdead (r & q' & c' & Hr & Hc' & Hid & Hd).
  destruct (Transition_heap _ _ _ _ _ HT _ _ Hr) as [(q & Hq & Hw & Hstay)|[-> Hn]].
  - destruct (wiring_connection _ _ _ Hw Hc') as (c & Hc & Hi).
    apply Hdead. exists r, q, c. repeat split; try done; [congruence|].
    destruct (destroyed c) eqn:Hdc; [|done].
    rewrite (Hstay _ _ Hc Hc' Hdc) in Hd. done.
  - pose proof (Hn _ Hc'). lia.
Qed.

(** Each step calls [destroy()] at most once, on a live connection, which is
    not live afterwards. *)
Lemma Transition_destroys e ev w w' fx cid :
  Inv w → distinct_connections w → Transition e w ev w' fx →
  (destroys cid fx ≤ 1)%nat
  ∧ (destroys cid fx = 1 → live w cid ∧ ¬ live w' cid).
Proof.
  intros HI Hdist HT.
  assert (∀ g r q c, queues w !! g = Some r → heap w !! r = Some q →
            connection q = Some c → connection_id c = cid →
            live w cid
            ∧ ¬ live (set_queues (delete g (queues w)) (store r (torn_down c q) w)) cid)
    as Htear.
  { intros g r q c Hg Hr Hc Hid.
    destruct (inv_mapped _ HI _ _ Hg) as (q' & Hr' & Hok).
    rewrite Hr in Hr'. inversion Hr'; subst q'.
    destruct (ok_connection _ _ _ Hok) as (c0 & Hc0 & Hd0).
    rewrite Hc in Hc0. inversion Hc0; subst c0.
    split; [by exists r, q, c|].
    intros (r1 & q1 & c1 & H1 & Hc1 & Hid1 & Hd1). cbn [heap set_queues] in H1.
    destruct (store_lookup_inv r _ q w r1 q1 Hr H1) as [[-> ->]|[Hne Hold]].
    - simpl in Hc1. inversion Hc1; subst c1. done.
    - apply Hne. eapply Hdist; [exact Hold|exact Hr|exact Hc1|exact Hc|congruence]. }
  destruct HT as [i fx c Ha Hx Hsil | i g vc s Ha Hg Hj | i g vc s Ha Hg Hj
                 | i g vc s r q Ha Hg Hr
                 | g r q tok0 c s next rest Hg Hr Hres Hsongs Hc Hl
                 | g r q c s Hg Hr Hres Hsongs Hc
                 | g r q tok0 c s Hg Hr Hres Hc Hl ].
  - rewrite destroys_silent; [lia|]. intros x Hin. by apply refusal_voice, Hsil.
  - unfold admitted_journal, song_started, song_failed, caught.
    destruct (openStream e (url s)), (notify_ok e); simpl; lia.
  - simpl. lia.
  - unfold admitted_journal, caught. destruct (notify_ok e); simpl; lia.
  - unfold song_started, song_failed, caught.
    destruct (openStream e (url next)), (notify_ok e); simpl; lia.
  - simpl. destruct (decide (connection_id c = cid)) as [Hid|Hne]; simpl; [|lia].
    split; [lia|]. intros _. by eapply Htear.
  - unfold caught. destruct (notify_ok e); simpl;
      (destruct (decide (connection_id c = cid)) as [Hid|Hne]; simpl; [|lia]);
      (split; [lia|]); intros _; by eapply Htear.
Qed.

Lemma run_destroys evs : ∀ w w' fx fx0,
  Inv w → distinct_connections w →
  (∀ cid, (destroys cid fx0 ≤ 1)%nat
          ∧ (destroys cid fx0 = 1 → cid < connections_created w ∧ ¬ live w cid)) →
  run evs w = Some (w', fx) →
  ∀ cid, (destroys cid (fx0 ++ fx) ≤ 1)%nat
         ∧ (destroys cid (fx0 ++ fx) = 1 →
            cid < connections_created w' ∧ ¬ live w' cid).
Proof.
  induction evs as [|[e ev] evs IH]; intros w w' fx fx0 HI Hd HJ Hrun; simpl in Hrun.
  - inversion Hrun; subst. by rewrite app_nil_r.
  - destruct (step e ev w) as [[w1 fx1]|] eqn:Hs; [|done].
    destruct (run evs w1) as [[w2 fx2]|] eqn:Hr; [|done].
    inversion Hrun; subst. rewrite app_assoc.
    pose proof (step_transition _ _ _ _ _ HI Hs) as HT.
    eapply IH; [by eapply Transition_Inv|by eapply Transition_distinct| |done].
    intros cid. rewrite destroys_app.
    destruct (HJ cid) as [H0 H1].
    destruct (Transition_destroys _ _ _ _ _ cid HI Hd HT) as [H2 H3].
    destruct (Transition_joins _ _ _ _ _ HT) as (_ & Hcc & _).
    assert (connections_created w ≤ connections_created w1)%nat as Hmono by lia.
    destruct (decide (destroys cid fx1 = 1)) as [Hone|Hnone].
    + destruct (H3 Hone) as [Hlive Hdead].
      pose proof (live_bound _ _ HI Hlive) as Hb.
      assert (destroys cid fx0 = 0) as Hz.
      { destruct (decide (destroys cid fx0 = 1)) as [H|H]; [|lia].
        by destruct (H1 H) as [_ Hn]. }
      split; [lia|]. intros _. split; [lia|done].
    + assert (destroys cid fx1 = 0) as Hz by lia. rewrite Hz, Nat.add_0_r.
      split; [done|]. intros Hone. destruct (H1 Hone) as [Hb Hn].
      split; [lia|]. by eapply Transition_dead.
Qed.

(** In any run from the empty store, [destroy()] is called at most once on
    each connection, and not at all on a connection that is still live. *)
Theorem connections_destroyed_once evs w fx cid :
  run evs init = Some (w, fx) →
  (destroys cid fx ≤ 1)%nat ∧ (live w cid → destroys cid fx = 0).
Proof.
  intros Hrun.
  destruct (run_destroys evs init w fx [] Inv_init distinct_init) with (cid := cid)
    as [H1 H2]; [|done|].
  { intros cid'. simpl. split; lia. }
  simpl in *. split; [done|]. intros Hlive.
  destruct (decide (destroys cid fx = 1)) as [Hone|]; [|lia].
  by destruct (H2 Hone) as [_ Hn].
Qed.

Lemma connections_destroyed_once_witness :
  ∃ w fx,
    run Scenario.a_b_played init = Some (w, fx)
    ∧ (destroys 0 fx ≤ 1)%nat ∧ (live w 0 → destroys 0 fx = 0).
Proof.
  destruct (run Scenario.a_b_played init) as [[w fx]|] eqn:Hrun.
  - exists w, fx. split; [reflexivity|].
    exact (connections_destroyed_once Scenario.a_b_played w fx 0 Hrun).
  - vm_compute in Hrun. discriminate Hrun.
Defined.

(** In a step of a reachable store, [destroy()] is only called on a
    connection that is live, which is not live afterwards, and a player is
    only subscribed to a connection that is live. *)
Theorem only_live_connections_are_used e ev w w' fx :
  reachable w →
  step e ev w = Some (w', fx) →
  (∀ cid, Destroy cid ∈ fx → live w cid ∧ ¬ live w' cid)
  ∧ (∀ cid pid, Subscribe cid pid ∈ fx → live w' cid).
Proof.
  intros Hreach Hs. pose proof (reachable_Inv _ Hreach) as HI.
  pose proof (reachable_distinct _ Hreach) as Hdist.
  pose proof (step_transition _ _ _ _ _ HI Hs) as HT. split.
  - intros cid Hin. apply destroys_elem in Hin.
    destruct (Transition_destroys _ _ _ _ _ cid HI Hdist HT) as [H1 H2].
    apply H2. lia.
  - intros cid pid Hin.
    destruct HT as [i fx c Ha Hx Hsil | i g vc s Ha Hg Hj | i g vc s Ha Hg Hj
                   | i g vc s r q Ha Hg Hr
                   | g r q tok0 c s next rest Hg Hr Hres Hsongs Hc Hl
                   | g r q c s Hg Hr Hres Hsongs Hc
                   | g r q tok0 c s Hg Hr Hres Hc Hl ].
    + by apply Hsil in Hin.
    + assert (live {| queues := <[g := length (heap w)]> (queues w);
                      heap := heap w ++ [first_queue e (token i) g vc s w];
                      players_created := S (players_created w);
                      connections_created := S (connections_created w) |}
                (connections_created w)) as Hlive.
      { exists (length (heap w)), (first_queue e (token i) g vc s w),
          (new_connection g vc w).
        cbn [heap]. by rewrite heap_snoc_lookup. }
      unfold admitted_journal, song_started, song_failed, caught in Hin.
      destruct (openStream e (url s)), (notify_ok e); journal Hin;
        by simplify_eq.
    + unfold admitted_journal in Hin. journal Hin.
    + unfold admitted_journal, caught in Hin. destruct (notify_ok e); journal Hin.
    + assert (live (store r (advanced e next rest q) w) (connection_id c)) as Hlive.
      { destruct (inv_mapped _ HI _ _ Hg) as (q' & Hr' & Hok).
        rewrite Hr in Hr'. inversion Hr'; subst q'.
        destruct (ok_connection _ _ _ Hok) as (c0 & Hc0 & Hd0).
        rewrite Hc in Hc0. inversion Hc0; subst c0.
        exists r, (advanced e next rest q), c.
        split; [by eapply store_lookup_eq|]. done. }
      unfold song_started, song_failed, caught in Hin.
      destruct (openStream e (url next)), (notify_ok e); journal Hin;
        by simplify_eq.
    + journal Hin.
    + unfold caught in Hin. destruct (notify_ok e); journal Hin.
Qed.

Lemma only_live_connections_are_used_witness :
  ∃ w' fx,
    step Scenario.sunny (PlayerSignal Idle 0) (Scenario.after Scenario.a_then_b)
    = Some (w', fx)
    ∧ ∀ cid pid, Subscribe cid pid ∈ fx → live w' cid.
Proof.
  destruct (step Scenario.sunny (PlayerSignal Idle 0)
              (Scenario.after Scenario.a_then_b)) as [[w' fx]|] eqn:Hs.
  - exists w', fx. split; [reflexivity|].
    assert (reachable (Scenario.after Scenario.a_then_b)) as Hreach
      by (apply reachable_after; vm_compute; eexists; reflexivity).
    exact (proj2 (only_live_connections_are_used Scenario.sunny
                    (PlayerSignal Idle 0) (Scenario.after Scenario.a_then_b)
                    w' fx Hreach Hs)).
  - vm_compute in Hs. discriminate Hs.
Defined.

(** * Properties of the bot process and its dashboard *)

(** ** The environment check *)

Lemma first_missing_None env keys :
  Dashboard.first_missing env keys = None
  ↔ ∀ key, key ∈ keys → Dashboard.unset env key = false.
Proof.
  induction keys as [|k keys IH]; simpl.
  - split; [by intros _ key ?%elem_of_nil | done].
  - destruct (Dashboard.unset env k) eqn:Hk.
    + split; [done|]. intros H. rewrite H in Hk; [done | by left].
    + rewrite IH. split.
      * intros H key [->|Hin]%elem_of_cons; auto.
      * intros H key Hin. apply H. by right.
Qed.

Lemma first_missing_Some env keys key :
  Dashboard.first_missing env keys = Some key →
  ∃ before after,
    keys = before ++ key :: after
    ∧ Dashboard.unset env key = true
    ∧ ∀ k, k ∈ before → Dashboard.unset env k = false.
Proof.
  induction keys as [|k keys IH]; simpl; [done|].
  destruct (Dashboard.unset env k) eqn:Hk.
  - intros [= ->]. exists [], keys. split; [done|]. split; [done|].
    by intros k' ?%elem_of_nil.
  - intros H. destruct (IH H) as (before & after & -> & Hu & Hb).
    exists (k :: before), after. split; [done|]. split; [done|].
    intros k' [->|Hin]%elem_of_cons; auto.
Qed.

(** The start-up check lets the process continue exactly when each of the
    seven required variables is set to a non-empty string; otherwise the
    process exits at the first required variable, in the order of the list,
    that is unset or empty. *)
Theorem env_check_stops_at_first_missing env :
  (Dashboard.validate_env env = None
   ↔ ∀ key, key ∈ Dashboard.requiredEnv →
       ∃ v, env !! key = Some v ∧ v ≠ "")
  ∧ ∀ key, Dashboard.validate_env env = Some key →
      ∃ before after,
        Dashboard.requiredEnv = before ++ key :: after
        ∧ Dashboard.unset env key = true
        ∧ ∀ k, k ∈ before → ∃ v, env !! k = Some v ∧ v ≠ "".
Proof.
  assert (∀ k, Dashboard.unset env k = false ↔ ∃ v, env !! k = Some v ∧ v ≠ "")
    as Hset.
  { intros k. unfold Dashboard.unset. destruct (env !! k) as [v|].
    - rewrite bool_decide_eq_false. split; [by exists v|]. by intros (v' & [= <-] & H).
    - split; [done|]. by intros (v & H & _). }
  split.
  - unfold Dashboard.validate_env. rewrite first_missing_None.
    split; intros H key Hin; apply Hset; auto.
  - intros key H. destruct (first_missing_Some _ _ _ H) as (b & a & Hl & Hu & Hb).
    exists b, a. split; [done|]. split; [done|]. intros k Hin. apply Hset. auto.
Qed.

(** ** Loading and registering the commands *)

Lemma Dirent_nested_ind (P : Dashboard.Dirent → Prop) :
  (∀ n, P (Dashboard.DirectoryEntry n None)) →
  (∀ n ds, Forall P ds → P (Dashboard.DirectoryEntry n (Some ds))) →
  (∀ n m, P (Dashboard.FileEntry n m)) →
  (∀ n, P (Dashboard.OtherEntry n)) →
  ∀ d, P d.
Proof.
  intros H1 H2 H3 H4. fix IH 1. intros [n [ds|] | n m | n]; [|done..].
  apply H2. induction ds as [|x ds IHds]; constructor; [apply IH | exact IHds].
Qed.

Lemma gather_usable turn ds :
  Forall (λ d, Forall Dashboard.usable (turn d).1) ds →
  Forall Dashboard.usable (Dashboard.gather turn ds).1.
Proof.
  induction 1 as [|x ds Hx _ IH]; simpl; [done|].
  destruct (turn x) as [c1 l1].
  destruct (Dashboard.gather turn ds) as [c2 l2]. simpl in *.
  by apply Forall_app.
Qed.

Lemma load_dirent_usable join d : ∀ dir,
  Forall Dashboard.usable (Dashboard.load_dirent join dir d).1.
Proof.
  induction d as [n|n ds IH|n [c|]|n] using Dirent_nested_ind; intros dir; simpl;
    try done.
  - apply gather_usable. eapply Forall_impl; [exact IH|]. intros x Hx. apply Hx.
  - destruct (Dashboard.endsWith n ".js"); [|done].
    destruct (Dashboard.cmd_data c) as [nm|] eqn:Hd; [|done].
    destruct (Dashboard.cmd_execute c) eqn:Hx; [|done].
    simpl. apply Forall_singleton. split; [by rewrite Hd|done].
  - by destruct (Dashboard.endsWith n ".js").
Qed.

Lemma loaded_usable join dir entries :
  Forall Dashboard.usable (Dashboard.loadCommandsRecursively join dir entries).1.
Proof.
  destruct entries as [ds|]; simpl; [|done].
  apply gather_usable, Forall_forall. intros d _. apply load_dirent_usable.
Qed.

Lemma register_last cmds : ∀ m0,
  Forall Dashboard.usable cmds →
  ∃ m, Dashboard.register cmds m0 = Some m
       ∧ (∀ n, m !! n
               = match last (filter (λ c, Dashboard.cmd_data c = Some n) cmds) with
                 | Some c => Some c
                 | None => m0 !! n
                 end)
       ∧ dom m = dom m0 ∪ list_to_set (omap Dashboard.cmd_data cmds).
Proof.
  induction cmds as [|c cmds IH]; intros m0 Hu; simpl.
  - exists m0. split; [done|]. split; [done|]. by rewrite union_empty_r_L.
  - apply Forall_cons in Hu as [[[k Hk] _] Hu]. rewrite Hk.
    destruct (IH (<[k := c]> m0) Hu) as (m & Hm & Hlook & Hdom).
    exists m. split; [done|]. split.
    + intros n. rewrite Hlook, filter_cons.
      destruct (decide (Dashboard.cmd_data c = Some n)) as [Hn|Hn].
      * rewrite last_cons. rewrite Hk in Hn. inversion Hn; subst k.
        destruct (last _); [done|]. apply lookup_insert_eq.
      * destruct (last _); [done|]. apply lookup_insert_ne. congruence.
    + rewrite Hdom, dom_insert_L. simpl. apply set_eq. intros x.
      rewrite !elem_of_union. tauto.
Qed.

Lemma size_names (l : list string) :
  (size (list_to_set l : gset string) ≤ length l)%nat
  ∧ (size (list_to_set l : gset string) = length l ↔ NoDup l).
Proof.
  induction l as [|x l [IH1 IH2]]; simpl.
  - split; [done|]. split; [constructor | done].
  - destruct (decide (x ∈ l)) as [Hin|Hnin].
    + assert (({[x]} ∪ list_to_set l : gset string) = list_to_set l) as ->.
      { apply subseteq_union_1_L, singleton_subseteq_l. by apply elem_of_list_to_set. }
      split; [lia|]. split; [lia|]. by intros [? _]%NoDup_cons.
    + rewrite size_union
        by (apply disjoint_singleton_l; by rewrite elem_of_list_to_set).
      rewrite size_singleton.
      split; [lia|]. rewrite NoDup_cons, <- IH2. split; [intros; split; [done|lia] | lia].
Qed.

(** Whatever the command directory holds, every module the loader returns
    exports [data] and a function [execute]; registering them never throws,
    the registry maps each name to the module loaded last under that name,
    and it has as many entries as modules were loaded exactly when no two
    loaded modules share a name (otherwise fewer). *)
Theorem loaded_commands_register_last_wins join dir entries :
  Forall Dashboard.usable (Dashboard.loadCommandsRecursively join dir entries).1
  ∧ ∃ m,
      Dashboard.register (Dashboard.loadCommandsRecursively join dir entries).1 ∅
      = Some m
      ∧ (∀ n, m !! n
              = last (filter (λ c, Dashboard.cmd_data c = Some n)
                        (Dashboard.loadCommandsRecursively join dir entries).1))
      ∧ (size m ≤ length (Dashboard.loadCommandsRecursively join dir entries).1)%nat
      ∧ (size m = length (Dashboard.loadCommandsRecursively join dir entries).1
         ↔ NoDup (omap Dashboard.cmd_data
                    (Dashboard.loadCommandsRecursively join dir entries).1)).
Proof.
  pose proof (loaded_usable join dir entries) as Hu.
  set (cmds := (Dashboard.loadCommandsRecursively join dir entries).1) in *.
  split; [done|].
  destruct (register_last cmds ∅ Hu) as (m & Hm & Hlook & Hdom).
  exists m. split; [done|]. split.
  { intros n. rewrite Hlook. destruct (last _); [done|apply lookup_empty]. }
  assert (length (omap Dashboard.cmd_data cmds) = length cmds) as Hlen.
  { clear -Hu. induction Hu as [|c l [[k Hk] _] _ IH]; simpl; [done|].
    rewrite Hk. simpl. by f_equal. }
  assert (size m = size (list_to_set (omap Dashboard.cmd_data cmds) : gset string))
    as Hsize.
  { by rewrite <- size_dom, Hdom, dom_empty_L, union_empty_l_L. }
  destruct (size_names (omap Dashboard.cmd_data cmds)) as [H1 H2].
  rewrite Hsize, <- Hlen. done.
Qed.

(** ** The servers a user may manage *)

Lemma administrator_bit p : Dashboard.administrator p = Z.testbit p 3.
Proof.
  unfold Dashboard.administrator.
  assert (Z.land p 8 = if Z.testbit p 3 then 8%Z else 0%Z) as ->.
  { apply Z.bits_inj'. intros n Hn. rewrite Z.land_spec.
    change 8%Z with (2 ^ 3)%Z. rewrite Z.pow2_bits_eqb by lia.
    destruct (Z.eqb_spec 3 n) as [<-|Hne].
    - rewrite andb_true_r. destruct (Z.testbit p 3) eqn:Hb.
      + by rewrite Z.pow2_bits_eqb, Z.eqb_refl by lia.
      + by rewrite Z.bits_0.
    - rewrite andb_false_r. destruct (Z.testbit p 3).
      + rewrite Z.pow2_bits_eqb by lia. symmetry. by apply Z.eqb_neq.
      + by rewrite Z.bits_0. }
  by destruct (Z.testbit p 3).
Qed.

Section ServersListed.

Context {Value : Type}.
Variable encodeURIComponent : string → string.
Variable is_truthy : Value → bool.
Variable BigInt : Value → option Z.
Variable ToString : Value → option string.

Lemma filter_manageable_throws (gs : list (@Dashboard.GuildEntry Value)) :
  Dashboard.filter_manageable BigInt gs = None
  ↔ Exists (λ g, Dashboard.manageable BigInt g = None) gs.
Proof.
  induction gs as [|g gs IH]; simpl.
  - split; [done | by intros ?%Exists_nil].
  - rewrite Exists_cons. destruct (Dashboard.manageable BigInt g) as [p|].
    + destruct (Dashboard.filter_manageable BigInt gs) as [l|].
      * split; [done|]. intros [H|H]; [done|]. by apply IH in H.
      * split; [|done]. intros _. right. by apply IH.
    + split; [|done]. intros _. by left.
Qed.

Lemma filter_manageable_Some (gs : list (@Dashboard.GuildEntry Value)) : ∀ l,
  Dashboard.filter_manageable BigInt gs = Some l →
  l `sublist_of` gs
  ∧ ∀ g, g ∈ l ↔ g ∈ gs ∧ Dashboard.manageable BigInt g = Some true.
Proof.
  induction gs as [|g gs IH]; simpl; intros l.
  - intros [= <-]. split; [done|]. intros g. split; [by intros ?%elem_of_nil|].
    by intros [?%elem_of_nil _].
  - destruct (Dashboard.manageable BigInt g) as [keep|] eqn:Hp; [|done].
    destruct (Dashboard.filter_manageable BigInt gs) as [l'|]; [|done].
    destruct (IH l' eq_refl) as [Hsub Hmem].
    destruct keep; intros [= <-].
    + split; [by constructor|]. intros x. rewrite !elem_of_cons, Hmem. split.
      * intros [->|[Hin Hx]]; [|by auto]. split; [by left|done].
      * intros [[->|Hin] Hx]; [by left | by right].
    + split; [by constructor|]. intros x. rewrite elem_of_cons, Hmem. split.
      * intros [Hin Hx]. auto.
      * intros [[->|Hin] Hx]; [congruence|done].
Qed.

Lemma manageable_true (g : @Dashboard.GuildEntry Value) :
  Dashboard.manageable BigInt g = Some true
  ↔ ∃ permissions id name icon p,
      g = Dashboard.GuildFields permissions id name icon
      ∧ permissions ≫= BigInt = Some p ∧ Z.testbit p 3 = true.
Proof.
  destruct g as [|permissions id name icon].
  - split; [done|]. by intros (? & ? & ? & ? & ? & ? & _).
  - unfold Dashboard.manageable, Dashboard.to_bigint. split.
    + destruct permissions as [v|]; [|done].
      destruct (BigInt v) as [p|] eqn:Hp; [|done].
      change (Some (Dashboard.administrator p) = Some true → ∃ permissions id0 name0 icon0 p0,
        Dashboard.GuildFields (Some v) id name icon
        = Dashboard.GuildFields permissions id0 name0 icon0
        ∧ permissions ≫= BigInt = Some p0 ∧ Z.testbit p0 3 = true).
      rewrite administrator_bit. intros [= Hb].
      by exists (Some v), id, name, icon, p.
    + intros (permissions' & id' & name' & icon' & p & Heq & Hp & Hb).
      injection Heq as -> -> -> ->.
      destruct permissions' as [v|]; [|done].
      change (BigInt v = Some p) in Hp. rewrite Hp.
      change (Some (Dashboard.administrator p) = Some true).
      by rewrite administrator_bit, Hb.
Qed.

Lemma mapM_summary_throws (l : list (@Dashboard.GuildEntry Value)) :
  mapM (Dashboard.summary is_truthy ToString) l = None
  ↔ Exists (λ g, Dashboard.summary is_truthy ToString g = None) l.
Proof.
  induction l as [|g l IH]; simpl.
  - split; [done | by intros ?%Exists_nil].
  - rewrite Exists_cons.
    destruct (Dashboard.summary is_truthy ToString g) as [sv|]; simpl.
    + destruct (mapM (Dashboard.summary is_truthy ToString) l) as [k|]; simpl.
      * split; [done|]. intros [H|H]; [done|]. by apply IH in H.
      * split; [|done]. intros _. right. by apply IH.
    + split; [|done]. intros _. by left.
Qed.

(** [GET /api/servers] without a truthy user in the session only redirects
    to the login page, carrying the encoded address that was asked for. With
    one, it answers the empty list when the session holds no guilds and
    throws when it holds a truthy value that is no array. For an array it
    lists, in the order of the session, exactly the elements whose
    converted permissions have bit 3 (Administrator, the value 8) set,
    whatever the other bits; it throws exactly when some element is [null]
    or has permissions that [BigInt] does not convert, or when the icon
    address of an element to list cannot be made. *)
Theorem servers_listed_iff_administrator req :
  (Dashboard.logged_in is_truthy req = false →
   Dashboard.api_servers encodeURIComponent is_truthy BigInt ToString req
   = Dashboard.Redirect
       ("/login?redirect=" +:+ encodeURIComponent (Dashboard.originalUrl req)))
  ∧ (Dashboard.logged_in is_truthy req = true →
     ∃ s, Dashboard.session req = Some s
       ∧ match Dashboard.userGuilds s with
         | Dashboard.FalsyGuilds =>
           Dashboard.api_servers encodeURIComponent is_truthy BigInt ToString req
           = Dashboard.JsonServers []
         | Dashboard.NotAnArray =>
           Dashboard.api_servers encodeURIComponent is_truthy BigInt ToString req
           = Dashboard.Throws
         | Dashboard.GuildArray gs =>
           (Dashboard.api_servers encodeURIComponent is_truthy BigInt ToString req
            = Dashboard.Throws
            ↔ Exists (λ g, Dashboard.manageable BigInt g = None) gs
              ∨ Exists (λ g, Dashboard.manageable BigInt g = Some true
                             ∧ Dashboard.summary is_truthy ToString g = None) gs)
           ∧ ∀ servers,
               Dashboard.api_servers encodeURIComponent is_truthy BigInt ToString req
               = Dashboard.JsonServers servers →
               ∃ l,
                 Forall2 (λ g sv, Dashboard.summary is_truthy ToString g = Some sv)
                   l servers
                 ∧ l `sublist_of` gs
                 ∧ ∀ g, g ∈ l
                        ↔ g ∈ gs
                          ∧ ∃ permissions id name icon p,
                              g = Dashboard.GuildFields permissions id name icon
                              ∧ permissions ≫= BigInt = Some p
                              ∧ Z.testbit p 3 = true
         end).
Proof.
  unfold Dashboard.api_servers, Dashboard.ensureAuth. split.
  - by intros ->.
  - intros Hlog. rewrite Hlog.
    destruct (Dashboard.session req) as [s|] eqn:Hs.
    2: { unfold Dashboard.logged_in in Hlog. by rewrite Hs in Hlog. }
    exists s. split; [done|]. simpl.
    destruct (Dashboard.userGuilds s) as [| |gs]; [done..|].
    destruct (Dashboard.filter_manageable BigInt gs) as [l|] eqn:Hf; simpl.
    + destruct (filter_manageable_Some gs l Hf) as [Hsub Hmem].
      destruct (mapM (Dashboard.summary is_truthy ToString) l) as [servers|] eqn:Hm.
      * split.
        -- split; [done|]. intros [H|H].
           ++ apply filter_manageable_throws in H. congruence.
           ++ assert (Exists (λ g, Dashboard.summary is_truthy ToString g = None) l)
                as Hex.
              { apply Exists_exists in H as (g & Hin & Hg & Hsum).
                apply Exists_exists. exists g. split; [|done]. by apply Hmem. }
              apply mapM_summary_throws in Hex. congruence.
        -- intros servers' [= <-]. exists l. split; [by apply mapM_Some|].
           split; [done|]. intros g. rewrite Hmem, manageable_true. done.
      * split; [|done]. split; [|done]. intros _. right.
        apply mapM_summary_throws in Hm.
        apply Exists_exists in Hm as (g & Hin & Hsum).
        apply Exists_exists. exists g. apply Hmem in Hin as [Hin Hg]. done.
    + split; [|done]. split; [|done]. intros _. left.
      by apply filter_manageable_throws.
Qed.

End ServersListed.

(** A session with two guilds, of which the user administers the first. *)
Lemma servers_listed_iff_administrator_witness :
  ∃ s,
    Dashboard.session
      {| Dashboard.session :=
           Some {| Dashboard.discordUser := Some "user";
                   Dashboard.userGuilds :=
                     Dashboard.GuildArray
                       [Dashboard.GuildFields (Some "8") (Some "1") (Some "one") None;
                        Dashboard.GuildFields (Some "4") (Some "2") (Some "two") None] |};
         Dashboard.originalUrl := "/api/servers" |}
    = Some s
    ∧ Dashboard.userGuilds s
      = Dashboard.GuildArray
          [Dashboard.GuildFields (Some "8") (Some "1") (Some "one") None;
           Dashboard.GuildFields (Some "4") (Some "2") (Some "two") None]
    ∧ Dashboard.api_servers (λ s, s) (λ v : string, negb (bool_decide (v = "")))
        (λ v, if bool_decide (v = "8") then Some 8%Z
              else if bool_decide (v = "4") then Some 4%Z else None)
        Some
        {| Dashboard.session :=
             Some {| Dashboard.discordUser := Some "user";
                     Dashboard.userGuilds :=
                       Dashboard.GuildArray
                         [Dashboard.GuildFields (Some "8") (Some "1") (Some "one") None;
                          Dashboard.GuildFields (Some "4") (Some "2") (Some "two") None] |};
           Dashboard.originalUrl := "/api/servers" |}
      = Dashboard.JsonServers
          [{| Dashboard.server_id := Some "1"; Dashboard.server_name := Some "one";
              Dashboard.server_icon := None |}].
Proof.
  destruct (proj2 (servers_listed_iff_administrator (λ s, s)
                     (λ v : string, negb (bool_decide (v = "")))
                     (λ v, if bool_decide (v = "8") then Some 8%Z
                           else if bool_decide (v = "4") then Some 4%Z else None)
                     Some
                     {| Dashboard.session :=
                          Some {| Dashboard.discordUser := Some "user";
                                  Dashboard.userGuilds :=
                                    Dashboard.GuildArray
                                      [Dashboard.GuildFields (Some "8") (Some "1")
                                         (Some "one") None;
                                       Dashboard.GuildFields (Some "4") (Some "2")
                                         (Some "two") None] |};
                        Dashboard.originalUrl := "/api/servers" |}))
    as (s & Hs & _); [reflexivity|].
  exists s. split; [exact Hs|]. simpl in Hs. inversion Hs; subst s.
  split; reflexivity.
Defined.

(** ** Where a login leads *)

(** After a login the user is always sent to an address that starts with
    "/", whatever the [state] parameter holds: a state that is missing,
    empty, cannot be decoded or decodes to anything else leads to
    "/dashboard". *)
Theorem post_login_redirect_is_local decodeURIComponent state :
  String.prefix "/" (Dashboard.post_login_redirect decodeURIComponent state) = true
  ∧ (Dashboard.post_login_redirect decodeURIComponent state = "/dashboard"
     ∨ ∃ st, state = Some st
             ∧ decodeURIComponent st
               = Some (Dashboard.post_login_redirect decodeURIComponent state)).
Proof.
  unfold Dashboard.post_login_redirect. destruct state as [st|]; [|by split; [|left]].
  destruct (bool_decide (st = "")); [by split; [|left]|].
  destruct (decodeURIComponent st) as [r|] eqn:Hd; [|by split; [|left]].
  destruct (String.prefix "/" r) eqn:Hp; [|by split; [|left]].
  split; [done|]. right. by exists st.
Qed.

(** The [state] that [GET /login] computes from the address asked for leads
    [GET /auth/callback] back to that address when it starts with "/" (to
    "/dashboard" when none was asked for), given that decoding undoes
    encoding and that only the empty string encodes to the empty string. *)
Theorem login_returns_to_requested_page encodeURIComponent decodeURIComponent
    redirect :
  (∀ s, decodeURIComponent (encodeURIComponent s) = Some s) →
  (∀ s, encodeURIComponent s = "" → s = "") →
  String.prefix "/" (Dashboard.or_dashboard redirect) = true →
  Dashboard.post_login_redirect decodeURIComponent
    (Some (Dashboard.login_state encodeURIComponent redirect))
  = Dashboard.or_dashboard redirect.
Proof.
  intros Hdec Hemp Hloc. unfold Dashboard.post_login_redirect, Dashboard.login_state.
  assert (Dashboard.or_dashboard redirect ≠ "") as Hne.
  { unfold Dashboard.or_dashboard. destruct redirect as [s|]; [|done].
    destruct (bool_decide (s = "")) eqn:Hs; [done|].
    by apply bool_decide_eq_false in Hs. }
  rewrite bool_decide_eq_false_2 by (intros H; by apply Hne, Hemp).
  by rewrite Hdec, Hloc.
Qed.

Lemma login_returns_to_requested_page_witness :
  Dashboard.post_login_redirect Some
    (Some (Dashboard.login_state (λ s, s) (Some "/setup.html")))
  = "/setup.html".
Proof.
  apply (login_returns_to_requested_page (λ s, s) Some (Some "/setup.html")).
  - reflexivity.
  - intros s H. exact H.
  - reflexivity.
Defined.

(** ** The buttons of a ticket *)



Lemma decimal_digit i : i < 5 → length (Dashboard.decimal i) = 1.
Proof.
  intros H. do 5 (destruct i as [|i]; [reflexivity|]). lia.
Qed.

Section TicketButtons.

Context {Number : Type}.
Variable number_truthy : Number → bool.
Variable String_other : @Dashboard.Json Number → option Dashboard.jstring.
Variable toUpperCase : Dashboard.jstring → Dashboard.jstring.
Variable builder_accepts : Dashboard.Button → bool.
Variable now_exceeds : Z → @Dashboard.Json Number → bool.

Lemma tokenShort_clean token short :
  Dashboard.tokenShort number_truthy token = Some short →
  length short ≤ 16 ∧ Forall (λ u, Dashboard.separator u = false) short.
Proof.
  unfold Dashboard.tokenShort.
  destruct (Dashboard.or_else number_truthy token (Dashboard.JStr []))
    as [| | |s| |]; try done.
  intros [= <-]. split.
  - etrans; [apply length_filter|]. rewrite length_take. lia.
  - apply Forall_forall. intros u Hu. by apply list_elem_of_filter in Hu as [Hu _].
Qed.

Lemma make_button_Some short i item b :
  Dashboard.make_button number_truthy String_other toUpperCase builder_accepts
    short i item = Some b →
  ∃ l s, b = Dashboard.built toUpperCase short i l s.
Proof.
  unfold Dashboard.make_button.
  destruct (Dashboard.to_string _ (Dashboard.label_value _ i item)) as [l|]; [|done].
  destruct (Dashboard.to_string _ (Dashboard.style_value _ item)) as [s|]; [|done].
  destruct (builder_accepts _); [|done]. intros [= <-]. by exists l, s.
Qed.

Lemma button_loop_Some token : ∀ items i row,
  Dashboard.button_loop number_truthy String_other toUpperCase builder_accepts
    token i items = Some row →
  length row = length items
  ∧ ∀ k b, row !! k = Some b →
      ∃ short item,
        Dashboard.tokenShort number_truthy token = Some short
        ∧ items !! k = Some item
        ∧ Dashboard.make_button number_truthy String_other toUpperCase
            builder_accepts short (i + k) item = Some b.
Proof.
  induction items as [|item items IH]; intros i row; simpl.
  - intros [= <-]. split; [done|]. by intros k b ?.
  - destruct (Dashboard.tokenShort number_truthy token) as [short|] eqn:Hs; [|done].
    destruct (Dashboard.make_button _ _ _ _ short i item) as [b0|] eqn:Hb; [|done].
    destruct (Dashboard.button_loop _ _ _ _ token (S i) items) as [bs|] eqn:Hl;
      [|done].
    intros [= <-]. destruct (IH _ _ Hl) as [Hlen Hbs]. split; [simpl; lia|].
    intros [|k] b Hk; simpl in Hk.
    + inversion Hk; subst b. exists short, item. by rewrite Nat.add_0_r.
    + destruct (Hbs _ _ Hk) as (short' & item' & Hs' & Hi & Hb').
      exists short', item'. split; [done|]. split; [done|].
      by replace (i + S k) with (S i + k) by lia.
Qed.

Lemma button_loop_None token : ∀ items i,
  Dashboard.button_loop number_truthy String_other toUpperCase builder_accepts
    token i items = None
  ↔ (items ≠ [] ∧ Dashboard.tokenShort number_truthy token = None)
    ∨ ∃ short k item,
        Dashboard.tokenShort number_truthy token = Some short
        ∧ items !! k = Some item
        ∧ Dashboard.make_button number_truthy String_other toUpperCase
            builder_accepts short (i + k) item = None.
Proof.
  induction items as [|item items IH]; intros i; simpl.
  - split; [done|]. intros [[? _]|(? & ? & ? & _ & ? & _)]; done.
  - destruct (Dashboard.tokenShort number_truthy token) as [short|] eqn:Hs.
    2: { split; [|done]. intros _. by left. }
    destruct (Dashboard.make_button _ _ _ _ short i item) as [b0|] eqn:Hb.
    2: { split; [|done]. intros _. right. exists short, 0, item.
         by rewrite Nat.add_0_r. }
    destruct (Dashboard.button_loop _ _ _ _ token (S i) items) as [bs|] eqn:Hl.
    + split; [done|]. intros [[_ ?]|(short' & k & item' & Hs' & Hk & Hm)]; [done|].
      assert (Dashboard.button_loop number_truthy String_other toUpperCase
                builder_accepts token (S i) items = None) as Hn; [|congruence].
      destruct k as [|k]; simpl in Hk.
      * inversion Hk; subst item'. inversion Hs'; subst short'.
        rewrite Nat.add_0_r in Hm. congruence.
      * apply IH. right. exists short', k, item'. split; [done|]. split; [done|].
        by replace (S i + k) with (i + S k) by lia.
    + split; [|done]. intros _. apply IH in Hl as [[_ Hl]|Hl]; [done|].
      destruct Hl as (short' & k & item' & Hs' & Hk & Hm). right.
      exists short', (S k), item'. split; [done|]. split; [done|].
      by replace (i + S k) with (S i + k) by lia.
Qed.

Lemma safeButtons_length (buttons : option (@Dashboard.Json Number)) :
  length (Dashboard.safeButtons buttons) ≤ 5.
Proof.
  unfold Dashboard.safeButtons. destruct buttons as [[| | | |items|]|]; simpl; try lia.
  rewrite length_take. lia.
Qed.

(** A ticket message never carries more than five buttons (the first five
    of the array sent, none when [buttons] is not an array), each with a
    label of at most 80 code units and a custom id of at most 25. Building
    the row throws exactly when there is at least one button and either the
    token is truthy but not a string, or the label or the style of one of
    the buttons cannot be converted to a string, or the builder refuses one
    of the buttons. The message carries the row only if it has a button. *)
Theorem ticket_row_is_within_limits token buttons :
  (Dashboard.row_components number_truthy String_other toUpperCase builder_accepts
     token buttons = None
   ↔ Dashboard.safeButtons buttons ≠ []
     ∧ (Dashboard.tokenShort number_truthy token = None
        ∨ ∃ k item,
            Dashboard.safeButtons buttons !! k = Some item
            ∧ (Dashboard.to_string String_other
                 (Dashboard.label_value number_truthy k item) = None
               ∨ Dashboard.to_string String_other
                   (Dashboard.style_value number_truthy item) = None
               ∨ ∃ short l s,
                   Dashboard.tokenShort number_truthy token = Some short
                   ∧ Dashboard.to_string String_other
                       (Dashboard.label_value number_truthy k item) = Some l
                   ∧ Dashboard.to_string String_other
                       (Dashboard.style_value number_truthy item) = Some s
                   ∧ builder_accepts (Dashboard.built toUpperCase short k l s)
                     = false)))
  ∧ ∀ row,
      Dashboard.row_components number_truthy String_other toUpperCase
        builder_accepts token buttons = Some row →
      (length row ≤ 5)%nat
      ∧ length row = length (Dashboard.safeButtons buttons)
      ∧ Forall (λ b, (length (Dashboard.label b) ≤ 80)%nat
                     ∧ (length (Dashboard.customId b) ≤ 25)%nat
                     ∧ builder_accepts b = true) row
      ∧ Dashboard.message_components row
        = (if decide (row = []) then [] else [row]).
Proof.
  unfold Dashboard.row_components. split.
  - rewrite button_loop_None. simpl. split.
    + intros [[Hne Hs]|(short & k & item & Hs & Hk & Hm)].
      * split; [done|]. by left.
      * split; [by intros Hnil; rewrite Hnil in Hk|]. right. exists k, item.
        split; [done|]. unfold Dashboard.make_button in Hm.
        destruct (Dashboard.to_string _ (Dashboard.label_value _ k item)) as [l|];
          [|by left].
        destruct (Dashboard.to_string _ (Dashboard.style_value _ item)) as [s|];
          [|by right; left].
        right; right. exists short, l, s. split; [done|]. split; [done|].
        split; [done|]. by destruct (builder_accepts _).
    + intros [Hne [Hs|(k & item & Hk & Hbad)]]; [by left|].
      destruct (Dashboard.tokenShort number_truthy token) as [short|] eqn:Hs;
        [|by left].
      right. exists short, k, item. split; [done|]. split; [done|].
      unfold Dashboard.make_button.
      destruct Hbad as [->|[Hst|(short' & l & s & Hs' & -> & -> & Hb)]]; [done| |].
      * rewrite Hst.
        by destruct (Dashboard.to_string String_other
                       (Dashboard.label_value number_truthy k item)).
      * inversion Hs'; subst short'. by rewrite Hb.
  - intros row Hrow. destruct (button_loop_Some _ _ _ _ Hrow) as [Hlen Hbs].
    pose proof (safeButtons_length buttons) as H5.
    split; [lia|]. split; [done|]. split.
    + apply Forall_lookup. intros k b Hk.
      destruct (Hbs _ _ Hk) as (short & item & Hs & Hi & Hb).
      destruct (tokenShort_clean _ _ Hs) as [Hshort _].
      apply lookup_lt_Some in Hk.
      assert (builder_accepts b = true) as Hacc.
      { unfold Dashboard.make_button in Hb.
        destruct (Dashboard.to_string _ _); [|done].
        destruct (Dashboard.to_string _ _); [|done].
        destruct (builder_accepts _) eqn:Ha; [|done]. by inversion Hb; subst. }
      destruct (make_button_Some _ _ _ _ Hb) as (l & s & ->).
      unfold Dashboard.built in *. cbn [Dashboard.label Dashboard.customId].
      split; [rewrite length_take; lia|]. split; [|done].
      rewrite !length_app, decimal_digit by lia.
      change (length (Dashboard.lit "ticket:")) with 7.
      change (length (Dashboard.lit ":")) with 1. lia.
    + by destruct row.
Qed.


(** [POST /api/ticket/deploy] sends at most one message, and only after
    every check has passed: the token is truthy and decrypts to a truthy
    payload that the expiry test lets through, with login required the
    session has a user whose id reads as the payload's user id, the bot has
    the guild, and the channel is a guild text channel. The message carries
    at most one row of one to five buttons, and the answer is success exactly
    when the message was sent and the sending fulfilled. *)
Theorem deploy_sends_only_after_every_check require_login token buttons env r fx :
  Dashboard.ticket_deploy number_truthy String_other toUpperCase
    builder_accepts now_exceeds require_login token buttons env = (r, fx) →
  (length fx ≤ 1)%nat
  ∧ (r = Dashboard.Deployed ↔ fx ≠ [] ∧ Dashboard.d_send_ok env = true)
  ∧ ∀ components, Dashboard.Send components ∈ fx →
      (∃ t, token = Some t ∧ Dashboard.truthy number_truthy t = true)
      ∧ (∃ payload,
           Dashboard.d_decrypt env = Dashboard.DecryptReturns payload
           ∧ Dashboard.truthy number_truthy payload = true
           ∧ Dashboard.expired_for_deploy now_exceeds (Dashboard.d_now env) payload
             = false
           ∧ (require_login = true →
              ∃ user owner, Dashboard.d_user env = Some user
                ∧ Dashboard.truthy number_truthy user = true
                ∧ Dashboard.to_string_opt String_other
                    (Dashboard.field (Dashboard.lit "id") user) = Some owner
                ∧ Dashboard.to_string_opt String_other
                    (Dashboard.field (Dashboard.lit "userId") payload)
                  = Some owner))
      ∧ Dashboard.d_guild env = true
      ∧ Dashboard.d_channel env = Some GuildText
      ∧ (length components ≤ 1)%nat
      ∧ Forall (λ row, (1 ≤ length row ≤ 5)%nat) components.
Proof.
  unfold Dashboard.ticket_deploy.
  assert (∀ code message (P : list (list Dashboard.Button) → Prop),
    (Dashboard.Status code message, @nil (@Dashboard.DeployEffect)) = (r, fx) →
    (length fx ≤ 1)%nat
    ∧ (r = Dashboard.Deployed ↔ fx ≠ [] ∧ Dashboard.d_send_ok env = true)
    ∧ ∀ components, Dashboard.Send components ∈ fx → P components) as Hno.
  { intros code message P [= <- <-]. split; [simpl; lia|]. split.
    - split; [done|]. by intros [? _].
    - intros components Hin. by apply elem_of_nil in Hin. }
  destruct token as [t|]; simpl; [|intros H; exact (Hno _ _ _ H)].
  destruct (Dashboard.truthy number_truthy t) eqn:Ht; simpl; rewrite ?Ht; simpl;
    [|intros H; exact (Hno _ _ _ H)].
  destruct (Dashboard.d_decrypt env) as [|payload] eqn:Hd;
    [intros H; exact (Hno _ _ _ H)|].
  destruct (Dashboard.truthy number_truthy payload) eqn:Hp; simpl;
    [|intros H; exact (Hno _ _ _ H)].
  destruct (Dashboard.expired_for_deploy now_exceeds (Dashboard.d_now env) payload)
    eqn:Hx; [intros H; exact (Hno _ _ _ H)|].
  set (refused :=
    if require_login then
      match Dashboard.d_user env with
      | Some user =>
        if Dashboard.truthy number_truthy user then
          match Dashboard.to_string_opt String_other
                  (Dashboard.field (Dashboard.lit "id") user),
                Dashboard.to_string_opt String_other
                  (Dashboard.field (Dashboard.lit "userId") payload) with
          | Some mine, Some owner =>
            if bool_decide (mine = owner) then None
            else Some (Dashboard.Status 403 "Not token owner")
          | _, _ => Some (Dashboard.Status 500 "Server error")
          end
        else Some (Dashboard.Status 401 "Login required")
      | None => Some (Dashboard.Status 401 "Login required")
      end
    else @None (@Dashboard.TicketResponse Number)).
  assert (refused = None →
    require_login = true →
    ∃ user owner, Dashboard.d_user env = Some user
      ∧ Dashboard.truthy number_truthy user = true
      ∧ Dashboard.to_string_opt String_other
          (Dashboard.field (Dashboard.lit "id") user) = Some owner
      ∧ Dashboard.to_string_opt String_other
          (Dashboard.field (Dashboard.lit "userId") payload) = Some owner)
    as Hchecked.
  { unfold refused. intros Hlogin ->.
    destruct (Dashboard.d_user env) as [user|]; [|done].
    destruct (Dashboard.truthy number_truthy user) eqn:Hu; [|done].
    destruct (Dashboard.to_string_opt String_other
                (Dashboard.field (Dashboard.lit "id") user)) as [mine|] eqn:Hmine;
      [|done].
    destruct (Dashboard.to_string_opt String_other
                (Dashboard.field (Dashboard.lit "userId") payload)) as [owner|]
      eqn:Howner; [|done].
    destruct (bool_decide (mine = owner)) eqn:Hid; [|done].
    apply bool_decide_eq_true in Hid. subst owner. by exists user, mine. }
  assert (∀ response, refused = Some response →
    ∃ code message, response = Dashboard.Status code message) as Hrefused.
  { unfold refused. intros response Hlogin.
    destruct require_login; [|done].
    destruct (Dashboard.d_user env) as [user|]; [|injection Hlogin as <-; eauto].
    destruct (Dashboard.truthy number_truthy user);
      [|injection Hlogin as <-; eauto].
    destruct (Dashboard.to_string_opt String_other
                (Dashboard.field (Dashboard.lit "id") user)) as [mine|];
      [|injection Hlogin as <-; eauto].
    destruct (Dashboard.to_string_opt String_other
                (Dashboard.field (Dashboard.lit "userId") payload)) as [owner|];
      [|injection Hlogin as <-; eauto].
    destruct (bool_decide (mine = owner)); [done|]. injection Hlogin as <-; eauto. }
  clearbody refused.
  destruct refused as [response|].
  { destruct (Hrefused _ eq_refl) as (code & message & ->).
    intros H; exact (Hno _ _ _ H). }
  specialize (Hchecked eq_refl). clear Hrefused.
  destruct (Dashboard.d_guild env) eqn:Hg; simpl; [|intros H; exact (Hno _ _ _ H)].
  destruct (Dashboard.d_channel env) as [type|] eqn:Hc;
    [|intros H; exact (Hno _ _ _ H)].
  destruct (Dashboard.is_GuildText type) eqn:Hty; simpl;
    [|intros H; exact (Hno _ _ _ H)].
  assert (type = GuildText) as -> by (by destruct type).
  destruct (Dashboard.d_embed_ok env); simpl; [|intros H; exact (Hno _ _ _ H)].
  destruct (Dashboard.row_components number_truthy String_other toUpperCase
              builder_accepts (Some t) buttons) as [row|] eqn:Hrow;
    [|intros H; exact (Hno _ _ _ H)].
  assert (length row ≤ 5)%nat as Hlen.
  { unfold Dashboard.row_components in Hrow.
    destruct (button_loop_Some _ _ _ _ Hrow) as [Hl _].
    pose proof (safeButtons_length buttons). lia. }
  assert (∀ components,
    Dashboard.Send components ∈ [Dashboard.Send (Dashboard.message_components row)] →
    (length components ≤ 1)%nat
    ∧ Forall (λ row, (1 ≤ length row ≤ 5)%nat) components) as Hsent.
  { intros components Hin. apply list_elem_of_singleton in Hin.
    injection Hin as ->.
    destruct row as [|b row]; simpl; [split; [lia|constructor]|].
    split; [lia|]. constructor; [|constructor]. simpl in *. lia. }
  destruct (Dashboard.d_send_ok env) eqn:Hs; intros [= <- <-].
  - split; [simpl; lia|]. split; [done|].
    intros components Hin. destruct (Hsent _ Hin) as [H3 H4].
    split; [by exists t|]. split; [by exists payload|]. done.
  - split; [simpl; lia|]. split; [split; [done|by intros [_ ?]]|].
    intros components Hin. destruct (Hsent _ Hin) as [H3 H4].
    split; [by exists t|]. split; [by exists payload|]. done.
Qed.

(** The two ticket endpoints do not agree on a token without an expiry
    date. For a token that decrypts to a truthy payload with no [expiresAt],
    [GET /api/ticket/token] answers 400 "Token expired" whatever the time
    and the guild cache, whereas [POST /api/ticket/deploy] never answers
    that, and deploys once the other checks pass. *)
Theorem token_without_expiry_still_deploys require_login token buttons env payload
    cached row :
  Dashboard.truthy number_truthy token = true →
  Dashboard.d_decrypt env = Dashboard.DecryptReturns payload →
  Dashboard.truthy number_truthy payload = true →
  Dashboard.field (Dashboard.lit "expiresAt") payload = None →
  Dashboard.ticket_token number_truthy now_exceeds (Some token)
    (Dashboard.d_decrypt env) (Dashboard.d_now env) cached
  = Dashboard.Status 400 "Token expired"
  ∧ (Dashboard.ticket_deploy number_truthy String_other toUpperCase
    builder_accepts now_exceeds
       require_login (Some token) buttons env).1
    ≠ Dashboard.Status 400 "Token expired"
  ∧ ((require_login = true →
      ∃ user owner,
        Dashboard.d_user env = Some user
        ∧ Dashboard.truthy number_truthy user = true
        ∧ Dashboard.to_string_opt String_other
            (Dashboard.field (Dashboard.lit "id") user) = Some owner
        ∧ Dashboard.to_string_opt String_other
            (Dashboard.field (Dashboard.lit "userId") payload) = Some owner) →
     Dashboard.d_guild env = true →
     Dashboard.d_channel env = Some GuildText →
     Dashboard.d_embed_ok env = true →
     Dashboard.d_send_ok env = true →
     Dashboard.row_components number_truthy String_other toUpperCase builder_accepts
       (Some token) buttons = Some row →
     Dashboard.ticket_deploy number_truthy String_other toUpperCase
    builder_accepts now_exceeds
       require_login (Some token) buttons env
     = (Dashboard.Deployed, [Dashboard.Send (Dashboard.message_components row)])).
Proof.
  intros Ht Hd Hp Hx. unfold Dashboard.ticket_token, Dashboard.ticket_deploy.
  rewrite Hd. simpl. rewrite !Ht. simpl. rewrite !Hp. simpl.
  unfold Dashboard.expired_for_token, Dashboard.expired_for_deploy.
  rewrite Hx. split; [done|]. split.
  - destruct require_login.
    + destruct (Dashboard.d_user env) as [user|]; [|done].
      destruct (Dashboard.truthy number_truthy user); [|done].
      destruct (Dashboard.to_string_opt String_other
                  (Dashboard.field (Dashboard.lit "id") user)) as [mine|]; [|done].
      destruct (Dashboard.to_string_opt String_other
                  (Dashboard.field (Dashboard.lit "userId") payload)) as [owner|];
        [|done].
      destruct (bool_decide (mine = owner)); [|done].
      destruct (Dashboard.d_guild env); [|done].
      destruct (Dashboard.d_channel env) as [type|]; [|done].
      destruct (Dashboard.is_GuildText type); [|done].
      destruct (Dashboard.d_embed_ok env); [|done].
      destruct (Dashboard.row_components _ _ _ _ _ _); [|done].
      by destruct (Dashboard.d_send_ok env).
    + destruct (Dashboard.d_guild env); [|done].
      destruct (Dashboard.d_channel env) as [type|]; [|done].
      destruct (Dashboard.is_GuildText type); [|done].
      destruct (Dashboard.d_embed_ok env); [|done].
      destruct (Dashboard.row_components _ _ _ _ _ _); [|done].
      by destruct (Dashboard.d_send_ok env).
  - intros Hlogin Hg Hc He Hs Hrow. rewrite Hg, Hc, He, Hs.
    destruct require_login.
    + destruct (Hlogin eq_refl) as (user & owner & -> & -> & -> & ->).
      rewrite bool_decide_eq_true_2 by done. simpl. by rewrite Hrow.
    + simpl. by rewrite Hrow.
Qed.

End TicketButtons.

(** A ticket request with three buttons and a token holding separators. *)
Lemma ticket_row_is_within_limits_witness :
  ∃ row,
    Dashboard.row_components (λ n : nat, negb (n =? 0)%nat)
      (λ _, Some (Dashboard.lit "[object Object]")) (λ s, s) (λ _, true)
      (Some (Dashboard.JStr (Dashboard.lit "ab:cd/ef+gh=ijklmnopqrstu")))
      (Some (Dashboard.JArr
               [Dashboard.JObj [(Dashboard.lit "label",
                                 Dashboard.JStr (Dashboard.lit "Billing"))];
                Dashboard.JNull; Dashboard.JNum 0%nat]))
    = Some row
    ∧ (length row ≤ 5)%nat.
Proof.
  eexists. split; [vm_compute; reflexivity|].
  refine (proj1 (proj2 (ticket_row_is_within_limits
    (λ n : nat, negb (n =? 0)%nat)
    (λ _, Some (Dashboard.lit "[object Object]")) (λ s, s) (λ _, true)
    (Some (Dashboard.JStr (Dashboard.lit "ab:cd/ef+gh=ijklmnopqrstu")))
    (Some (Dashboard.JArr
             [Dashboard.JObj [(Dashboard.lit "label",
                               Dashboard.JStr (Dashboard.lit "Billing"))];
              Dashboard.JNull; Dashboard.JNum 0%nat]))) _ _)).
  vm_compute; reflexivity.
Defined.


(** A logged-in owner deploys one button to a text channel. *)
Lemma deploy_sends_only_after_every_check_witness :
  ∃ r fx,
    Dashboard.ticket_deploy (λ n : nat, negb (n =? 0)%nat)
      (λ _, Some (Dashboard.lit "[object Object]")) (λ s, s) (λ _, true) (λ now v, false) true
      (Some (Dashboard.JStr (Dashboard.lit "token")))
      (Some (Dashboard.JArr [Dashboard.JNull]))
      {| Dashboard.d_decrypt :=
           Dashboard.DecryptReturns
             (Dashboard.JObj [(Dashboard.lit "userId",
                               Dashboard.JStr (Dashboard.lit "42"))]);
         Dashboard.d_now := 1000;
         Dashboard.d_user :=
           Some (Dashboard.JObj [(Dashboard.lit "id",
                                  Dashboard.JStr (Dashboard.lit "42"))]);
         Dashboard.d_guild := true;
         Dashboard.d_channel := Some GuildText;
         Dashboard.d_embed_ok := true;
         Dashboard.d_send_ok := true |}
    = (r, fx)
    ∧ (length fx ≤ 1)%nat.
Proof.
  eexists _, _. split; [vm_compute; reflexivity|].
  refine (proj1 (deploy_sends_only_after_every_check
    (λ n : nat, negb (n =? 0)%nat)
    (λ _, Some (Dashboard.lit "[object Object]")) (λ s, s) (λ _, true) (λ now v, false) true
    (Some (Dashboard.JStr (Dashboard.lit "token")))
    (Some (Dashboard.JArr [Dashboard.JNull]))
    {| Dashboard.d_decrypt :=
         Dashboard.DecryptReturns
           (Dashboard.JObj [(Dashboard.lit "userId",
                             Dashboard.JStr (Dashboard.lit "42"))]);
       Dashboard.d_now := 1000;
       Dashboard.d_user :=
         Some (Dashboard.JObj [(Dashboard.lit "id",
                                Dashboard.JStr (Dashboard.lit "42"))]);
       Dashboard.d_guild := true;
       Dashboard.d_channel := Some GuildText;
       Dashboard.d_embed_ok := true;
       Dashboard.d_send_ok := true |} _ _ _)).
  vm_compute; reflexivity.
Defined.

(** A payload without [expiresAt]: refused by the one endpoint, deployed by
    the other. *)
Lemma token_without_expiry_still_deploys_witness :
  Dashboard.ticket_token (λ n : nat, negb (n =? 0)%nat) (λ now v, false)
    (Some (Dashboard.JStr (Dashboard.lit "token")))
    (Dashboard.DecryptReturns
       (Dashboard.JObj [(Dashboard.lit "guildId",
                         Dashboard.JStr (Dashboard.lit "7"))]))
    1000 (Some (Dashboard.lit "guild"))
  = Dashboard.Status 400 "Token expired".
Proof.
  refine (proj1 (token_without_expiry_still_deploys
    (λ n : nat, negb (n =? 0)%nat)
    (λ _, Some (Dashboard.lit "[object Object]")) (λ s, s) (λ _, true) (λ now v, false) false
    (Dashboard.JStr (Dashboard.lit "token")) None
    {| Dashboard.d_decrypt :=
         Dashboard.DecryptReturns
           (Dashboard.JObj [(Dashboard.lit "guildId",
                             Dashboard.JStr (Dashboard.lit "7"))]);
       Dashboard.d_now := 1000;
       Dashboard.d_user := None;
       Dashboard.d_guild := true;
       Dashboard.d_channel := Some GuildText;
       Dashboard.d_embed_ok := true;
       Dashboard.d_send_ok := true |}
    _ (Some (Dashboard.lit "guild")) [] _ _ _ _));
    vm_compute; reflexivity.
Defined.
